(** * Reconciliation of wrapped syntax trees after a text insertion

    A shallow embedding of [insertIntoSyntaxList] (manipulation helper) and of
    [StraightReplacementNodeHandler.handleNode], together with the wrapper
    registry they drive, and the properties of the reconciliation walk. *)

From Stdlib Require Import ZArith Lia List Ascii String.
From stdpp Require Import base option list gmap.

Local Open Scope Z_scope.
Set Warnings "-register-all".

(** ** Compiler nodes

    A node of the external parser: immutable, identified by object identity
    ([nid] stands for the JavaScript reference), carrying its syntax kind, its
    [pos]/[end] offsets and its ordered children. *)

Inductive tsNode : Type :=
  TsNode { nid : nat; kind : Z; pos : Z; endPos : Z; children : list tsNode }.

(** All compiler nodes of a subtree, in document order (root first). *)
Fixpoint subnodes (n : tsNode) : list tsNode :=
  n :: flat_map subnodes (children n).

Definition nids (n : tsNode) : list nat := map nid (subnodes n).

(** The structural parent of the node with identity [target] below [root]. *)
Fixpoint findParent (target : nat) (root : tsNode) : option tsNode :=
  if existsb (fun c => Nat.eqb (nid c) target) (children root) then Some root
  else
    (fix scan (cs : list tsNode) : option tsNode :=
       match cs with
       | [] => None
       | c :: cs' =>
           match findParent target c with
           | Some p => Some p
           | None => scan cs'
           end
       end) (children root).

(** ** Errors *)

Definition text := list ascii.

Inductive errorMessage : Type :=
  | InsertErrorMessageText (header : string) (currentNode newNode : tsNode)
  | ReplaceTreeErrorMessage (currentKind newKind : Z)
  | KindMismatchDuringReplacement (currentKind newKind : Z).

Inductive error : Type :=
  | ArgumentError (argName : string) (rangeEnd provided : Z)
  | InvalidOperationError (msg : errorMessage)
  | NotImplementedError (expectedKind insertedKind : Z)
  | PlainError (msg : string)
  | TypeError.

Inductive result (A : Type) : Type :=
  | Ok (a : A)
  | Throw (e : error).
Arguments Ok {A} a.
Arguments Throw {A} e.

(** ** Wrapper registry *)

(** A wrapper object: its current compiler node and whether it was forgotten. *)
Record Wrapper : Type := mkWrapper { node : tsNode; forgotten : bool }.

(** The factory owns the wrappers (addressed by identity) and the cache from
    compiler-node identity to wrapper identity. *)
Record Factory : Type := mkFactory {
  nodeCache : gmap nat nat;
  wrappers : gmap nat Wrapper;
  nextId : nat
}.

(** Computations over the factory; a thrown error keeps the state reached. *)
Definition M (A : Type) : Type := Factory -> result A * Factory.

Definition ret {A} (a : A) : M A := fun f => (Ok a, f).
Definition throw {A} (e : error) : M A := fun f => (Throw e, f).
Definition bind {A B} (c : M A) (k : A -> M B) : M B :=
  fun f => match c f with
           | (Ok a, f') => k a f'
           | (Throw e, f') => (Throw e, f')
           end.

Notation "'let*' x ':=' c 'in' k" := (bind c (fun x => k))
  (at level 10, x name, c at level 100, k at level 200).
Notation "c ';;' k" := (bind c (fun _ => k))
  (at level 100, k at level 200, right associativity).

(** Modelled from the spec: [getOrCreateWrapper] of the Wrapper Registry (the
    source calls it [factory.getNodeFromCompilerNode]); the registry class is
    not among the sources.  Returns the wrapper tracked for that exact node,
    else constructs and registers a new one. *)
Definition getNodeFromCompilerNode (n : tsNode) : M nat :=
  fun f =>
    match nodeCache f !! nid n with
    | Some w => (Ok w, f)
    | None =>
        let w := nextId f in
        (Ok w, {| nodeCache := <[nid n := w]> (nodeCache f);
                  wrappers := <[w := mkWrapper n false]> (wrappers f);
                  nextId := S w |})
    end.

Fixpoint getNodesFromCompilerNodes (ns : list tsNode) : M (list nat) :=
  match ns with
  | [] => ret []
  | n :: ns' =>
      let* w := getNodeFromCompilerNode n in
      let* ws := getNodesFromCompilerNodes ns' in
      ret (w :: ws)
  end.

(** The current compiler node of a wrapper ([wrapper.node]). *)
Definition compilerNodeOf (w : nat) (f : Factory) : option tsNode :=
  node <$> wrappers f !! w.

Definition isForgotten (w : nat) (f : Factory) : bool :=
  match wrappers f !! w with
  | Some o => forgotten o
  | None => false
  end.

(** Reading through a wrapper reference; [undefined] raises a TypeError. *)
Definition getCompilerNode (w : option nat) : M tsNode :=
  fun f =>
    match w with
    | None => (Throw TypeError, f)
    | Some w =>
        match compilerNodeOf w f with
        | Some n => (Ok n, f)
        | None => (Throw TypeError, f)
        end
    end.

Definition getKind (w : option nat) : M Z :=
  let* n := getCompilerNode w in ret (kind n).

Definition dropKeys (ks : list nat) (m : gmap nat nat) : gmap nat nat :=
  foldr delete m ks.

(** Modelled from the spec: [replaceUnderlyingNode] of the Wrapper Registry
    (the source calls it [compilerFactory.replaceCompilerNode]).  The kinds
    must agree (checked); the wrapper's current revision is updated, the
    mapping is registered under the new node and the mapping of the old node
    is dropped recursively. *)
Definition replaceCompilerNode (w : nat) (newNode : tsNode) : M unit :=
  fun f =>
    match wrappers f !! w with
    | None => (Throw TypeError, f)
    | Some o =>
        if kind (node o) =? kind newNode then
          (Ok tt,
           {| nodeCache := dropKeys (nids (node o)) (<[nid newNode := w]> (nodeCache f));
              wrappers := <[w := mkWrapper newNode (forgotten o)]> (wrappers f);
              nextId := nextId f |})
        else
          (Throw (InvalidOperationError
                    (KindMismatchDuringReplacement (kind (node o)) (kind newNode))), f)
    end.

(** Modelled from the spec: [forget] of the Wrapper Registry marks the wrapper
    and every wrapper reachable through its subtree as forgotten and removes
    them from the mapping. *)
Definition forgetOne (n : tsNode) (f : Factory) : Factory :=
  match nodeCache f !! nid n with
  | None => f
  | Some w =>
      {| nodeCache := delete (nid n) (nodeCache f);
         wrappers := alter (fun o => mkWrapper (node o) true) w (wrappers f);
         nextId := nextId f |}
  end.

Definition forget (w : nat) : M unit :=
  fun f =>
    match compilerNodeOf w f with
    | None => (Throw TypeError, f)
    | Some n => (Ok tt, foldr forgetOne f (subnodes n))
    end.

(** ** Children iterators

    [getChildrenIterator] is a generator over the compiler children of the
    wrapper's current node; each [next()] wraps one more child.  The cursor is
    the list of compiler children not yet yielded. *)
Definition getChildrenIterator (w : option nat) : M (list tsNode) :=
  let* n := getCompilerNode w in ret (children n).

(** [iterator.next().value]: the wrapper of the next child, or [undefined]. *)
Definition next (cursor : list tsNode) : M (option nat * list tsNode) :=
  match cursor with
  | [] => ret (None, [])
  | c :: cursor' =>
      let* w := getNodeFromCompilerNode c in ret (Some w, cursor')
  end.

(** [next().value] of an iterator over a candidate: the child is wrapped by
    the factory and handed on as a candidate (its compiler node). *)
Definition nextCandidate (cursor : list tsNode) : M (option tsNode * list tsNode) :=
  match cursor with
  | [] => ret (None, [])
  | c :: cursor' =>
      getNodeFromCompilerNode c ;; ret (Some c, cursor')
  end.

(** [node.getChildren()]: the wrappers of all children, as an array. *)
Definition getChildren (w : option nat) : M (list nat) :=
  let* n := getCompilerNode w in getNodesFromCompilerNodes (children n).

(** ** Text *)

(** JavaScript [String.prototype.substring] on code-unit indices: both ends
    are clamped to the string and swapped when out of order; an absent end
    means the length. *)
Definition clamp (len i : Z) : Z := Z.max 0 (Z.min i len).

Definition substring (s : text) (indexStart : Z) (indexEnd : option Z) : text :=
  let len := Z.of_nat (length s) in
  let a := clamp len indexStart in
  let b := match indexEnd with Some e => clamp len e | None => len end in
  let lo := Z.min a b in
  let hi := Z.max a b in
  take (Z.to_nat (hi - lo)) (drop (Z.to_nat lo) s).

Definition newFileText (currentText : text) (insertPos : Z) (newText : text) : text :=
  substring currentText 0 (Some insertPos) ++ newText ++ substring currentText insertPos None.

(** ** The external compiler *)

(** The parser is consumed as a black box: text in, root node out; a source
    file node carries the full text it was parsed from. *)
Class Compiler : Type := {
  createSourceFile : text -> tsNode;
  sourceText : tsNode -> text
}.

(** ** insertIntoSyntaxList *)

(** [areNodesEqual] of the source, on the current revisions of its two
    arguments ([None] is [undefined]). *)
Definition areNodesEqual (a b : option tsNode) : bool :=
  match a, b with
  | None, None => true
  | None, Some _ | Some _, None => false
  | Some a, Some b => (pos a =? pos b) && (kind a =? kind b)
  end.

Section Walk.
  (** The closure variables of the two inner functions. *)
Variables (syntaxList : nat) (syntaxListParent : option nat).
Variables (childIndex insertItemsCount : Z).

  (** The test guarding the call of [handleSyntaxList]: the candidate child
      against [syntaxList], then the candidate's parent (the node being
      iterated) against [syntaxListParent]. *)
Definition isInsertTarget (newNodeChild newNode : tsNode) (f : Factory) : bool :=
    areNodesEqual (Some newNodeChild) (compilerNodeOf syntaxList f)
    && areNodesEqual (Some newNode) (syntaxListParent ≫= fun p => compilerNodeOf p f).

Section Loops.
Variable handleNode : option nat -> tsNode -> M unit.
Variable handleSyntaxList : option nat -> tsNode -> M unit.

    (** One iteration of the [for..of] of [handleNode]; the candidate child
        has just been yielded (and wrapped) by the candidate's iterator. *)
Definition handleNodeStep (newNode : tsNode) (cursor : list tsNode)
        (newNodeChild : tsNode) : M (list tsNode) :=
      getNodeFromCompilerNode newNodeChild ;;
      fun f =>
        (let target := isInsertTarget newNodeChild newNode f in
         let* yielded := next cursor in
         (if target then handleSyntaxList yielded.1 newNodeChild
          else handleNode yielded.1 newNodeChild) ;;
         ret yielded.2) f.

Fixpoint handleNodeLoop (newNode : tsNode) (cursor : list tsNode)
        (newChildren : list tsNode) : M (list tsNode) :=
      match newChildren with
      | [] => ret cursor
      | newNodeChild :: rest =>
          let* cursor' := handleNodeStep newNode cursor newNodeChild in
          handleNodeLoop newNode cursor' rest
      end.

    (** One iteration of the [for..of] of [handleSyntaxList]. *)
Definition handleSyntaxListStep (i : Z) (cursor : list tsNode)
        (newNodeChild : tsNode) : M (Z * list tsNode) :=
      if (childIndex <=? i) && (i <? childIndex + insertItemsCount) then
        ret (i + 1, cursor)
      else
        let* yielded := next cursor in
        handleNode yielded.1 newNodeChild ;;
        ret (i + 1, yielded.2).

Fixpoint handleSyntaxListLoop (i : Z) (cursor : list tsNode)
        (newChildren : list tsNode) : M (Z * list tsNode) :=
      match newChildren with
      | [] => ret (i, cursor)
      | newNodeChild :: rest =>
          let* st := handleSyntaxListStep i cursor newNodeChild in
          handleSyntaxListLoop st.1 st.2 rest
      end.
End Loops.

Definition replaceCurrent (currentNode : option nat) (newNode : tsNode) : M unit :=
    match currentNode with
    | Some w => replaceCompilerNode w newNode
    | None => throw TypeError
    end.

Fixpoint handleNode (currentNode : option nat) (newNode : tsNode) {struct newNode} : M unit :=
    let* current := getCompilerNode currentNode in
    if negb (kind current =? kind newNode) then
      throw (InvalidOperationError
               (InsertErrorMessageText "Error inserting into syntax list!" current newNode))
    else
      let* currentNodeChildren := getChildrenIterator currentNode in
      handleNodeLoop handleNode
        (fun currentNode newNode =>
           let* currentNodeChildren := getChildrenIterator currentNode in
           getNodesFromCompilerNodes (children newNode) ;;
           handleSyntaxListLoop handleNode 0 currentNodeChildren (children newNode) ;;
           replaceCurrent currentNode newNode)
        newNode currentNodeChildren (children newNode) ;;
      replaceCurrent currentNode newNode.

Definition handleSyntaxList (currentNode : option nat) (newNode : tsNode) : M unit :=
    let* currentNodeChildren := getChildrenIterator currentNode in
    getNodesFromCompilerNodes (children newNode) ;;
    handleSyntaxListLoop handleNode 0 currentNodeChildren (children newNode) ;;
    replaceCurrent currentNode newNode.
End Walk.

(** [node.getParent()]: the wrapper of the parent compiler node; a parent
    pointer is the structural parent in the tree of the file. *)
Definition getParent (sourceFile : nat) (w : nat) : M (option nat) :=
  let* root := getCompilerNode (Some sourceFile) in
  let* n := getCompilerNode (Some w) in
  match findParent (nid n) root with
  | None => ret None
  | Some p => let* pw := getNodeFromCompilerNode p in ret (Some pw)
  end.

Section Pipeline.
Context `{Compiler}.

Definition getFullText (sourceFile : nat) : M text :=
    let* root := getCompilerNode (Some sourceFile) in ret (sourceText root).

  (** The temporary source file: a full reparse, wrapped by the factory. *)
Definition createTempSourceFileFromText (fileText : text) : M tsNode :=
    let root := createSourceFile fileText in
    getNodeFromCompilerNode root ;; ret root.

Definition insertIntoSyntaxList (sourceFile : nat) (insertPos : Z) (newText : text)
      (syntaxList : nat) (childIndex insertItemsCount : Z) : M unit :=
    let* syntaxListChildren := getChildren (Some syntaxList) in
    let* syntaxListParent := getParent sourceFile syntaxList in
    if (childIndex <? 0) || (Z.of_nat (length syntaxListChildren) <? childIndex) then
      throw (ArgumentError "childIndex" (Z.of_nat (length syntaxListChildren)) childIndex)
    else
      let* currentText := getFullText sourceFile in
      let* tempSourceFile :=
        createTempSourceFileFromText (newFileText currentText insertPos newText) in
      handleNode syntaxList syntaxListParent childIndex insertItemsCount
        (Some sourceFile) tempSourceFile.
End Pipeline.

(** ** StraightReplacementNodeHandler *)

Module StraightReplacementNodeHandler.

Section Loop.
    (** Modelled from the spec: [NodeHandlerHelper.handleForValues] is not
        among the sources; the straight strategy recurses into each pair via
        this same dispatch, the current compiler child being addressed through
        its wrapper. *)
Variable handleForValues : tsNode -> option tsNode -> M unit.

Fixpoint handleChildren (currentChildren : list tsNode) (newNodeChildren : list tsNode)
        : M (list tsNode) :=
      match currentChildren with
      | [] => ret newNodeChildren
      | currentNodeChild :: rest =>
          let* yielded := nextCandidate newNodeChildren in
          handleForValues currentNodeChild yielded.1 ;;
          handleChildren rest yielded.2
      end.
End Loop.

  (** [current] is the compiler node of the wrapper [currentNode]. *)
Fixpoint handleNodeAt (current : tsNode) (currentNode : nat)
      (newNode : option tsNode) {struct current} : M unit :=
    match newNode with
    | None => throw TypeError
    | Some newNode =>
        if negb (kind current =? kind newNode) then
          throw (InvalidOperationError
                   (ReplaceTreeErrorMessage (kind current) (kind newNode)))
        else
          let* leftOver :=
            handleChildren
              (fun currentNodeChild newNodeChild =>
                 let* w := getNodeFromCompilerNode currentNodeChild in
                 handleNodeAt currentNodeChild w newNodeChild)
              (children current) (children newNode) in
          let* yielded := nextCandidate leftOver in
          match yielded.1 with
          | Some _ =>
              throw (PlainError "Error replacing tree: Should not have new children left over.")
          | None => replaceCompilerNode currentNode newNode
          end
    end.

Definition handleForValues (currentNodeChild : tsNode) (newNode : option tsNode) : M unit :=
    let* w := getNodeFromCompilerNode currentNodeChild in
    handleNodeAt currentNodeChild w newNode.

Definition handleNode (currentNode : nat) (newNode : option tsNode) : M unit :=
    let* current := getCompilerNode (Some currentNode) in
    handleNodeAt current currentNode newNode.

End StraightReplacementNodeHandler.

(** * Specification vocabulary *)

(** ** Well-formed factories and wrapper creation *)

(** Wrapper identities are allocated below [nextId]. *)
Definition factoryWf (f : Factory) : Prop :=
  (forall w, is_Some (wrappers f !! w) -> (w < nextId f)%nat)
  /\ (forall k w, nodeCache f !! k = Some w -> (w < nextId f)%nat).

(** [f'] keeps every wrapper and every cache entry of [f] as it is. *)
Definition extends (f f' : Factory) : Prop :=
  wrappers f ⊆ wrappers f' /\ nodeCache f ⊆ nodeCache f'
  /\ (nextId f <= nextId f')%nat.

(** ** Kind mismatches are fatal *)

Section Reach.
Variables (sl : nat) (slp : option nat) (ci ic : Z).

  (** An invocation of [handleNode]: its two arguments and the state of the
      factory when it is entered. *)
Definition invocation : Type := option nat * tsNode * Factory.

Definition runHandleNode (a : invocation) : result unit * Factory :=
    handleNode sl slp ci ic a.1.1 a.1.2 a.2.

  (** [calls a b]: the invocation [a] gets to make the nested invocation [b],
      either directly for a child, or through [handleSyntaxList] for a child
      of the list outside the inserted range. *)
Inductive calls : invocation -> invocation -> Prop :=
  | calls_child cur new f current before c after cursor f1 tmp f2 y f3 :
      compilerNodeOf cur f = Some current ->
      kind current = kind new ->
      children new = before ++ c :: after ->
      handleNodeLoop sl slp (handleNode sl slp ci ic) (handleSyntaxList sl slp ci ic)
        new (children current) before f = (Ok cursor, f1) ->
      getNodeFromCompilerNode c f1 = (Ok tmp, f2) ->
      isInsertTarget sl slp c new f2 = false ->
      next cursor f2 = (Ok y, f3) ->
      calls (Some cur, new, f) (y.1, c, f3)
  | calls_list_child cur new f current before c after cursor f1 tmp f2 y f3
        lcursor ws f4 lbefore d lafter st f5 y2 f6 :
      compilerNodeOf cur f = Some current ->
      kind current = kind new ->
      children new = before ++ c :: after ->
      handleNodeLoop sl slp (handleNode sl slp ci ic) (handleSyntaxList sl slp ci ic)
        new (children current) before f = (Ok cursor, f1) ->
      getNodeFromCompilerNode c f1 = (Ok tmp, f2) ->
      isInsertTarget sl slp c new f2 = true ->
      next cursor f2 = (Ok y, f3) ->
      getChildrenIterator y.1 f3 = (Ok lcursor, f3) ->
      getNodesFromCompilerNodes (children c) f3 = (Ok ws, f4) ->
      children c = lbefore ++ d :: lafter ->
      handleSyntaxListLoop ci ic (handleNode sl slp ci ic) 0 lcursor lbefore f4
        = (Ok st, f5) ->
      (ci <=? st.1) && (st.1 <? ci + ic) = false ->
      next st.2 f5 = (Ok y2, f6) ->
      calls (Some cur, new, f) (y2.1, d, f6).

End Reach.

Module StraightFacts.
Import StraightReplacementNodeHandler.

  (** An invocation of the handler: the current compiler node and its
      wrapper, the candidate, and the state on entry. *)
Definition invocation : Type := tsNode * nat * option tsNode * Factory.

Definition run (a : invocation) : result unit * Factory :=
    handleNodeAt a.1.1.1 a.1.1.2 a.1.2 a.2.

Inductive calls : invocation -> invocation -> Prop :=
  | calls_child current cw new f before c after cursor f1 y f2 w f3 :
      kind current = kind new ->
      children current = before ++ c :: after ->
      handleChildren handleForValues before (children new) f = (Ok cursor, f1) ->
      nextCandidate cursor f1 = (Ok y, f2) ->
      getNodeFromCompilerNode c f2 = (Ok w, f3) ->
      calls (current, cw, Some new, f) (c, w, y.1, f3).

End StraightFacts.


(** ** A worked file: [enum E { A }] *)

Module SyntaxKind.
Definition EndOfFileToken : Z := 1.
Definition OpenBraceToken : Z := 17.
Definition CloseBraceToken : Z := 18.
Definition CommaToken : Z := 26.
Definition Identifier : Z := 71.
Definition EnumKeyword : Z := 83.
Definition EnumDeclaration : Z := 232.
Definition EnumMember : Z := 264.
Definition SourceFile : Z := 265.
Definition SyntaxList : Z := 286.
End SyntaxKind.

Module Example.
Import SyntaxKind.

Definition token (id : nat) (k : Z) (p e : Z) : tsNode := TsNode id k p e [].

(** The tree of [enum E { A }]. *)
Definition memberA : tsNode := TsNode 7 EnumMember 8 10 [token 8 Identifier 8 10].
Definition members : tsNode := TsNode 6 SyntaxList 8 10 [memberA].
Definition enumE : tsNode :=
  TsNode 2 EnumDeclaration 0 12
    [token 3 EnumKeyword 0 4; token 4 Identifier 4 6; token 5 OpenBraceToken 6 8;
     members; token 9 CloseBraceToken 10 12].
Definition statements : tsNode := TsNode 1 SyntaxList 0 12 [enumE].
Definition oldFile : tsNode :=
  TsNode 0 SourceFile 0 12 [statements; token 10 EndOfFileToken 12 12].

(** The tree of [enum E { A, B }], a fresh parse. *)
Definition memberA' : tsNode := TsNode 27 EnumMember 8 10 [token 28 Identifier 8 10].
Definition comma' : tsNode := token 31 CommaToken 10 11.
Definition memberB' : tsNode := TsNode 32 EnumMember 11 13 [token 33 Identifier 11 13].
Definition members' : tsNode := TsNode 26 SyntaxList 8 13 [memberA'; comma'; memberB'].
Definition enumE' : tsNode :=
  TsNode 22 EnumDeclaration 0 15
    [token 23 EnumKeyword 0 4; token 24 Identifier 4 6; token 25 OpenBraceToken 6 8;
     members'; token 29 CloseBraceToken 13 15].
Definition statements' : tsNode := TsNode 21 SyntaxList 0 15 [enumE'].
Definition newFile : tsNode :=
  TsNode 20 SourceFile 0 15 [statements'; token 30 EndOfFileToken 15 15].

Definition oldText : text := list_ascii_of_string "enum E { A }".
Definition newText : text := list_ascii_of_string "enum E { A, B }".

(** A parser that knows the two texts. *)
Definition parser : Compiler :=
  {| createSourceFile := fun t => if decide (t = newText) then newFile else oldFile;
     sourceText := fun n => if decide (nid n = 0%nat) then oldText else newText |}.

(** The caller holds wrappers on the file (0), the enum (1), its member list
    (2) and the member [A] (3). *)
Definition factory : Factory :=
  {| nodeCache := {[ 0%nat := 0%nat; 2%nat := 1%nat; 6%nat := 2%nat; 7%nat := 3%nat ]};
     wrappers := {[ 0%nat := mkWrapper oldFile false; 1%nat := mkWrapper enumE false;
                    2%nat := mkWrapper members false; 3%nat := mkWrapper memberA false ]};
     nextId := 4 |}.

(** A reparse in which the closing brace came out as another kind of token. *)
Definition brokenFile : tsNode :=
  TsNode 20 SourceFile 0 15
    [TsNode 21 SyntaxList 0 15
       [TsNode 22 EnumDeclaration 0 15
          [token 23 EnumKeyword 0 4; token 24 Identifier 4 6; token 25 OpenBraceToken 6 8;
           members'; token 29 CommaToken 13 15]];
     token 30 EndOfFileToken 15 15].

Definition brokenParser : Compiler :=
  {| createSourceFile := fun _ => brokenFile;
     sourceText := fun _ => oldText |}.

(** A reparse that lost the end-of-file token of the file. *)
Definition shortFile : tsNode := TsNode 20 SourceFile 0 15 [statements'].

Definition shortParser : Compiler :=
  {| createSourceFile := fun _ => shortFile;
     sourceText := fun _ => oldText |}.

End Example.

(** ** Statements compared with the code *)

(** Same start position and same kind. *)
Definition sameStartAndKind (a b : tsNode) : Prop :=
  pos a = pos b /\ kind a = kind b.

(** The candidate child and its parent have the start position and kind of
    the caller's syntax list and of its parent. *)
Definition delegationCondition (sl : nat) (slp : option nat)
    (newNodeChild newNode : tsNode) (f : Factory) : Prop :=
  (exists l, compilerNodeOf sl f = Some l /\ sameStartAndKind newNodeChild l)
  /\ (exists p parent, slp = Some p /\ compilerNodeOf p f = Some parent
                       /\ sameStartAndKind newNode parent).

(** The splice walk leaves the candidate children of the inserted range
    without a wrapper. *)
Definition inserted_children_stay_unwrapped : Prop :=
  forall sl slp ci ic cur new f r f',
    handleSyntaxList sl slp ci ic (Some cur) new f = (r, f') ->
    forall (i : nat) c,
      children new !! i = Some c ->
      ci <= Z.of_nat i < ci + ic ->
      nodeCache f !! nid c = None ->
      nodeCache f' !! nid c = None.

(** A failed edit leaves every wrapper either as it was or forgotten. *)
Definition atomic_on_failure : Prop :=
  forall (C : Compiler) sourceFile insertPos newText syntaxList childIndex
         insertItemsCount f e f',
    factoryWf f ->
    insertIntoSyntaxList sourceFile insertPos newText syntaxList childIndex
      insertItemsCount f = (Throw e, f') ->
    forall w o, wrappers f !! w = Some o ->
                compilerNodeOf w f' = Some (node o) \/ isForgotten w f' = true.

(** [f'] has every wrapper of [f], with the same forgotten mark. *)
Definition keepsWrappers (f f' : Factory) : Prop :=
  forall w o, wrappers f !! w = Some o ->
              exists o', wrappers f' !! w = Some o' /\ forgotten o' = forgotten o.

(** A computation that keeps the factory well formed and every wrapper in it,
    whatever its outcome. *)
Definition preserves {A} (c : M A) : Prop :=
  forall f r f', factoryWf f -> c f = (r, f') ->
                 factoryWf f' /\ keepsWrappers f f' /\ (nextId f <= nextId f')%nat.

(** Two small files for the straight pairing of children. *)
Module Small.
Import SyntaxKind.

Definition twoChildren : tsNode :=
  TsNode 40 SourceFile 0 1
    [TsNode 41 SyntaxList 0 1 []; TsNode 42 EndOfFileToken 1 1 []].
Definition oneChild' : tsNode :=
  TsNode 50 SourceFile 0 1 [TsNode 51 SyntaxList 0 1 []].
Definition twoChildren' : tsNode :=
  TsNode 60 SourceFile 0 1
    [TsNode 61 SyntaxList 0 1 []; TsNode 62 EndOfFileToken 1 1 []].
Definition otherKind' : tsNode :=
  TsNode 70 SourceFile 0 1
    [TsNode 71 SyntaxList 0 1 []; TsNode 72 CommaToken 1 1 []].
Definition oneChild : tsNode :=
  TsNode 45 SourceFile 0 1 [TsNode 46 SyntaxList 0 1 []].

(** One wrapper (0) on the file [twoChildren], one (1) on [oneChild]. *)
Definition factory : Factory :=
  {| nodeCache := {[ 40%nat := 0%nat; 45%nat := 1%nat ]};
     wrappers := {[ 0%nat := mkWrapper twoChildren false;
                    1%nat := mkWrapper oneChild false ]};
     nextId := 2 |}.
End Small.

(** ** Alignment of a candidate tree with the current tree *)

(** What the guard of [handleNode] compares a candidate child against: start
    and kind of the caller's list, start and kind of its parent (if any). *)
Record target : Type := mkTarget {
  listPos : Z;
  listKind : Z;
  parentSig : option (Z * Z)
}.

Definition isTarget (t : target) (newNodeChild newNode : tsNode) : bool :=
  ((pos newNodeChild =? listPos t) && (kind newNodeChild =? listKind t))
  && match parentSig t with
     | Some (p, k) => (pos newNode =? p) && (kind newNode =? k)
     | None => false
     end.

(** The wrappers [sl] and [slp] still show the start and kind of [t]. *)
Definition pinned (sl : nat) (slp : option nat) (t : target) (f : Factory) : Prop :=
  (exists l, compilerNodeOf sl f = Some l /\ pos l = listPos t /\ kind l = listKind t)
  /\ match slp with
     | None => parentSig t = None
     | Some p => exists parent, compilerNodeOf p f = Some parent
                                /\ parentSig t = Some (pos parent, kind parent)
     end.

(** A node that wrapper [x] may be moved to without changing what [t] says. *)
Definition acceptable (sl : nat) (slp : option nat) (t : target)
    (x : nat) (nd : tsNode) : Prop :=
  (x = sl -> pos nd = listPos t /\ kind nd = listKind t)
  /\ (slp = Some x -> parentSig t = Some (pos nd, kind nd)).

Definition fsub (l : list tsNode) : list tsNode := flat_map subnodes l.
Definition fnids (l : list tsNode) : list nat := map nid (fsub l).

(** A cache entry for a node of [olds] leads to a wrapper on that node. *)
Definition consistent (olds : list tsNode) (f : Factory) : Prop :=
  forall m wm, m ∈ fsub olds -> nodeCache f !! nid m = Some wm ->
               compilerNodeOf wm f = Some m.

Section Alignment.
Variable t : target.
Variables ci ic : Z.

Definition inRange (i : Z) : bool := (ci <=? i) && (i <? ci + ic).

(** [pairsNode o n ps sk]: the walk of [handleNode] over the current node [o]
    and the candidate [n] pairs every node below [o] with a node below [n] of
    the same kind ([ps], in the order of the walk) and passes over the
    candidate nodes [sk] of the inserted ranges. *)
Inductive pairsNode : tsNode -> tsNode -> list (tsNode * tsNode) -> list tsNode -> Prop :=
  | pairs_node o n ps sk :
      kind o = kind n ->
      pairsChildren n (children o) (children n) ps sk ->
      pairsNode o n ((o, n) :: ps) sk
with pairsChildren : tsNode -> list tsNode -> list tsNode ->
                     list (tsNode * tsNode) -> list tsNode -> Prop :=
  | pairs_nil p : pairsChildren p [] [] [] []
  | pairs_straight p o os n ns ps1 sk1 ps2 sk2 :
      isTarget t n p = false ->
      pairsNode o n ps1 sk1 ->
      pairsChildren p os ns ps2 sk2 ->
      pairsChildren p (o :: os) (n :: ns) (ps1 ++ ps2) (sk1 ++ sk2)
  | pairs_splice p o os n ns ps1 sk1 ps2 sk2 :
      isTarget t n p = true ->
      pairsList o n ps1 sk1 ->
      pairsChildren p os ns ps2 sk2 ->
      pairsChildren p (o :: os) (n :: ns) (ps1 ++ ps2) (sk1 ++ sk2)
with pairsList : tsNode -> tsNode -> list (tsNode * tsNode) -> list tsNode -> Prop :=
  | pairs_list o n ps sk :
      kind o = kind n ->
      pairsListChildren 0 (children o) (children n) ps sk ->
      pairsList o n ((o, n) :: ps) sk
with pairsListChildren : Z -> list tsNode -> list tsNode ->
                         list (tsNode * tsNode) -> list tsNode -> Prop :=
  | pairs_list_nil i : pairsListChildren i [] [] [] []
  | pairs_list_skip i os n ns ps sk :
      inRange i = true ->
      pairsListChildren (i + 1) os ns ps sk ->
      pairsListChildren i os (n :: ns) ps (n :: sk)
  | pairs_list_take i o os n ns ps1 sk1 ps2 sk2 :
      inRange i = false ->
      pairsNode o n ps1 sk1 ->
      pairsListChildren (i + 1) os ns ps2 sk2 ->
      pairsListChildren i (o :: os) (n :: ns) (ps1 ++ ps2) (sk1 ++ sk2).

Scheme pairsNode_min := Minimality for pairsNode Sort Prop
  with pairsChildren_min := Minimality for pairsChildren Sort Prop
  with pairsList_min := Minimality for pairsList Sort Prop
  with pairsListChildren_min := Minimality for pairsListChildren Sort Prop.

Combined Scheme pairs_mutind
  from pairsNode_min, pairsChildren_min, pairsList_min, pairsListChildren_min.
End Alignment.

(** What a successful walk over the current nodes [olds] and the candidates
    [news] has done to the factory. *)
Record reconciled (sl : nat) (slp : option nat) (t : target) (lb : nat)
    (olds news : list tsNode) (ps : list (tsNode * tsNode)) (sk : list tsNode)
    (f f' : Factory) : Prop := mkReconciled {
  rec_wf : factoryWf f';
  rec_next : (nextId f <= nextId f')%nat;
  rec_pinned : pinned sl slp t f';
  rec_cache_frame :
    forall k, k ∉ fnids olds -> k ∉ fnids news -> nodeCache f' !! k = nodeCache f !! k;
  rec_pairs :
    forall m m', (m, m') ∈ ps ->
      exists wm, nodeCache f' !! nid m' = Some wm
                 /\ compilerNodeOf wm f' = Some m'
                 /\ (forall w0, nodeCache f !! nid m = Some w0 -> wm = w0);
  rec_skipped :
    forall c', c' ∈ sk ->
      exists wc, nodeCache f' !! nid c' = Some wc
                 /\ compilerNodeOf wc f' = Some c'
                 /\ (lb <= wc)%nat;
  rec_frame :
    forall x nd, compilerNodeOf x f = Some nd ->
      (forall m, m ∈ fsub olds -> nodeCache f !! nid m <> Some x) ->
      compilerNodeOf x f' = Some nd
}.

(** What the walk over [olds] and [news] needs of the factory it starts in:
    the entries of the cache for the current nodes lead to wrappers on those
    nodes, current and candidate nodes are distinct objects, and moving the
    wrappers to their partners leaves the target [t] as it is. *)
Record ready (sl : nat) (slp : option nat) (t : target) (lb : nat)
    (olds news : list tsNode) (ps : list (tsNode * tsNode)) (f : Factory) : Prop :=
  mkReady {
  rdy_wf : factoryWf f;
  rdy_pinned : pinned sl slp t f;
  rdy_lb : (lb <= nextId f)%nat;
  rdy_consistent : consistent olds f;
  rdy_distinct : NoDup (fnids olds ++ fnids news);
  rdy_acceptable :
    forall m m' wm, (m, m') ∈ ps -> nodeCache f !! nid m = Some wm ->
                    acceptable sl slp t wm m'
}.

(** The target read off the caller's list and its parent in the file. *)
Definition targetFor (list : tsNode) (parent : option tsNode) : target :=
  mkTarget (pos list) (kind list) (option_map (fun p => (pos p, kind p)) parent).

(** Same kind, same text span and, recursively, the same children. *)
Inductive sameTree : tsNode -> tsNode -> Prop :=
  | same_tree o n :
      kind o = kind n -> pos o = pos n -> endPos o = endPos n ->
      Forall2 sameTree (children o) (children n) ->
      sameTree o n.

(** ** An insertion of siblings in the caller's list *)

Section Insertion.
Variable t : target.
Variable lst : tsNode.
Variables offset count : nat.

(** [unchanged o n ps]: [n] is [o] again, kind by kind and child by child,
    and the guard takes none of the children for the list; [ps] pairs each
    node below [o] with the node at the same place below [n]. *)
Inductive unchanged : tsNode -> tsNode -> list (tsNode * tsNode) -> Prop :=
  | unchanged_node o n ps :
      kind o = kind n ->
      unchangedAll n (children o) (children n) ps ->
      unchanged o n ((o, n) :: ps)
with unchangedAll : tsNode -> list tsNode -> list tsNode ->
                    list (tsNode * tsNode) -> Prop :=
  | unchanged_nil p : unchangedAll p [] [] []
  | unchanged_cons p o os n ns ps1 ps2 :
      isTarget t n p = false ->
      unchanged o n ps1 ->
      unchangedAll p os ns ps2 ->
      unchangedAll p (o :: os) (n :: ns) (ps1 ++ ps2).

Scheme unchanged_min := Minimality for unchanged Sort Prop
  with unchangedAll_min := Minimality for unchangedAll Sort Prop.

Combined Scheme unchanged_mutind from unchanged_min, unchangedAll_min.

(** The children of the list that were there before, each unchanged. *)
Inductive unchangedEach : list tsNode -> list tsNode -> list (tsNode * tsNode) -> Prop :=
  | each_nil : unchangedEach [] [] []
  | each_cons o os n ns ps1 ps2 :
      unchanged o n ps1 ->
      unchangedEach os ns ps2 ->
      unchangedEach (o :: os) (n :: ns) (ps1 ++ ps2).

(** [inserted o n ps ins]: below [o] is the caller's list [lst]; [n] is [o]
    where the list has received the siblings [ins] at [offset], all the rest
    being unchanged; the guard takes the list's candidate, and only it, for
    the list. *)
Inductive inserted : tsNode -> tsNode -> list (tsNode * tsNode) -> list tsNode -> Prop :=
  | inserted_in o n before after before' l' after' lo hi lo' hi' ins ps1 ps2 psLo psHi :
      kind o = kind n ->
      children o = before ++ lst :: after ->
      children n = before' ++ l' :: after' ->
      unchangedAll n before before' ps1 ->
      unchangedAll n after after' ps2 ->
      isTarget t l' n = true ->
      kind lst = kind l' ->
      children lst = lo ++ hi ->
      children l' = lo' ++ ins ++ hi' ->
      length lo = offset ->
      length ins = count ->
      unchangedEach lo lo' psLo ->
      unchangedEach hi hi' psHi ->
      inserted o n ((o, n) :: ps1 ++ ((lst, l') :: psLo ++ psHi) ++ ps2) ins
  | inserted_below o n before c after before' c' after' ps1 psc ps2 ins :
      kind o = kind n ->
      children o = before ++ c :: after ->
      children n = before' ++ c' :: after' ->
      unchangedAll n before before' ps1 ->
      unchangedAll n after after' ps2 ->
      isTarget t c' n = false ->
      inserted c c' psc ins ->
      inserted o n ((o, n) :: ps1 ++ psc ++ ps2) ins.
End Insertion.


(** ** Deciding facts on concrete trees *)

Lemma tsNode_eq_dec : forall a b : tsNode, {a = b} + {a <> b}.
Proof.
  fix IH 1. intros [i k p e cs] [i' k' p' e' cs'].
  destruct (Nat.eq_dec i i') as [->|]; [|right; congruence].
  destruct (Z.eq_dec k k') as [->|]; [|right; congruence].
  destruct (Z.eq_dec p p') as [->|]; [|right; congruence].
  destruct (Z.eq_dec e e') as [->|]; [|right; congruence].
  destruct (@list_eq_dec _ IH cs cs') as [->|]; [left; reflexivity | right; congruence].
Defined.

#[global] Instance tsNode_eq : EqDecision tsNode := tsNode_eq_dec.

Definition consistentb (olds : list tsNode) (f : Factory) : bool :=
  forallb (fun m => match nodeCache f !! nid m with
                    | Some wm => bool_decide (compilerNodeOf wm f = Some m)
                    | None => true
                    end) (fsub olds).

Module ExampleEdit.
Import SyntaxKind Example.

(** The pairs and the inserted nodes of the edit of [enum E { A }]. *)
Definition headPairs : list (tsNode * tsNode) :=
  [ (token 3 EnumKeyword 0 4, token 23 EnumKeyword 0 4);
    (token 4 Identifier 4 6, token 24 Identifier 4 6);
    (token 5 OpenBraceToken 6 8, token 25 OpenBraceToken 6 8) ].

Definition memberPairs : list (tsNode * tsNode) :=
  [ (memberA, memberA'); (token 8 Identifier 8 10, token 28 Identifier 8 10) ].

Definition closePairs : list (tsNode * tsNode) :=
  [ (token 9 CloseBraceToken 10 12, token 29 CloseBraceToken 13 15) ].

Definition enumPairs : list (tsNode * tsNode) :=
  (enumE, enumE') :: headPairs ++ ((members, members') :: memberPairs) ++ closePairs.

Definition pairs : list (tsNode * tsNode) :=
  (oldFile, newFile) :: ((statements, statements') :: enumPairs)
    ++ [ (token 10 EndOfFileToken 12 12, token 30 EndOfFileToken 15 15) ].



(** A second parse of [enum E { A }]: the same tree, made of new objects. *)
Definition oldFileAgain : tsNode :=
  TsNode 100 SourceFile 0 12
    [TsNode 101 SyntaxList 0 12
       [TsNode 102 EnumDeclaration 0 12
          [token 103 EnumKeyword 0 4; token 104 Identifier 4 6;
           token 105 OpenBraceToken 6 8;
           TsNode 106 SyntaxList 8 10
             [TsNode 107 EnumMember 8 10 [token 108 Identifier 8 10]];
           token 109 CloseBraceToken 10 12]];
     token 110 EndOfFileToken 12 12].

Definition sameParser : Compiler :=
  {| createSourceFile := fun _ => oldFileAgain;
     sourceText := fun _ => oldText |}.
End ExampleEdit.

(** * FileUtils

    The string helpers of the [FileUtils] class.  A JavaScript string is the
    list of its UTF-16 code units; [undefined] is [None]. *)

Module FileUtils.

Definition jsString : Type := list N.

(** A string literal of the source (Basic Latin only). *)
Definition lit (s : string) : jsString := map N_of_ascii (list_ascii_of_string s).

Definition slash : N := 47%N.
Definition backslash : N := 92%N.
Definition dot : N := 46%N.
(** The byte order mark, code unit FEFF. *)
Definition bom : N := 65279%N.

(** [String.prototype.substring], as in the text model. *)
Definition substring (s : jsString) (indexStart : Z) (indexEnd : option Z) : jsString :=
  let len := Z.of_nat (length s) in
  let a := clamp len indexStart in
  let b := match indexEnd with Some e => clamp len e | None => len end in
  let lo := Z.min a b in
  let hi := Z.max a b in
  take (Z.to_nat (hi - lo)) (drop (Z.to_nat lo) s).

(** [s.lastIndexOf(c)] for a search string of one code unit: the greatest
    index holding [c], or [-1]. *)
Fixpoint lastIndexOf (s : jsString) (c : N) : Z :=
  match s with
  | [] => -1
  | x :: r =>
      let i := lastIndexOf r c in
      if 0 <=? i then i + 1 else if (x =? c)%N then 0 else -1
  end.

(** [s.split(sep)] for a separator of one code unit. *)
Fixpoint split (sep : N) (s : jsString) : list jsString :=
  match s with
  | [] => [[]]
  | c :: r =>
      if (c =? sep)%N then [] :: split sep r
      else match split sep r with
           | first :: others => (c :: first) :: others
           | [] => [[c]]
           end
  end.

(** [fileOrDirPath.replace(/\\/g, "/")]. *)
Definition standardizeSlashes (fileOrDirPath : jsString) : jsString :=
  map (fun c => if (c =? backslash)%N then slash else c) fileOrDirPath.

(** [s.replace(/^\//, empty)]: one leading slash is dropped. *)
Definition trimSlashStart (s : jsString) : jsString :=
  match s with
  | c :: r => if (c =? slash)%N then r else s
  | [] => []
  end.

(** [s.replace(/\/$/, empty)]: one trailing slash is dropped. *)
Fixpoint trimSlashEnd (s : jsString) : jsString :=
  match s with
  | [] => []
  | [c] => if (c =? slash)%N then [] else [c]
  | c :: r => c :: trimSlashEnd r
  end.

Definition splitPathBySlashes (fileOrDirPath : option jsString) : list jsString :=
  let fileOrDirPath := trimSlashEnd (trimSlashStart (default [] fileOrDirPath)) in
  split slash (trimSlashStart (standardizeSlashes fileOrDirPath)).

(** [items[i]]; [undefined] outside the array. *)
Definition itemAt (items : list jsString) (i : Z) : option jsString :=
  if i <? 0 then None else items !! Z.to_nat i.

(** The [for] loop of [pathEndsWith] from [i] on, [n] iterations being left. *)
Fixpoint endsWithFrom (endsWithItems pathItems : list jsString) (i : Z) (n : nat) : bool :=
  match n with
  | O => true
  | S n' =>
      if bool_decide (itemAt endsWithItems (Z.of_nat (length endsWithItems) - i - 1)
                      = itemAt pathItems (Z.of_nat (length pathItems) - i - 1))
      then endsWithFrom endsWithItems pathItems (i + 1) n'
      else false
  end.

Definition pathEndsWith (fileOrDirPath endsWithPath : option jsString) : bool :=
  let pathItems := splitPathBySlashes fileOrDirPath in
  let endsWithItems := splitPathBySlashes endsWithPath in
  if (length pathItems <? length endsWithItems)%nat then false
  else if endsWithFrom endsWithItems pathItems 0 (length endsWithItems)
       then (0 <? length endsWithItems)%nat
       else false.

(** The [for] loop of [pathStartsWith]. *)
Fixpoint startsWithFrom (startsWithItems pathItems : list jsString) (i : Z) (n : nat) : bool :=
  match n with
  | O => true
  | S n' =>
      if bool_decide (itemAt startsWithItems i = itemAt pathItems i)
      then startsWithFrom startsWithItems pathItems (i + 1) n'
      else false
  end.

Definition pathStartsWith (fileOrDirPath startsWithPath : option jsString) : bool :=
  let pathItems := splitPathBySlashes fileOrDirPath in
  let startsWithItems := splitPathBySlashes startsWithPath in
  if (length pathItems <? length startsWithItems)%nat then false
  else if startsWithFrom startsWithItems pathItems 0 (length startsWithItems)
       then (0 <? length startsWithItems)%nat
       else false.

Definition getTextWithByteOrderMark (text : jsString) : jsString :=
  if bool_decide (head text = Some bom) then text else bom :: text.

(** Node's [path] module and [String.prototype.toLowerCase] are used as they
    come. *)
Class NodePath : Type := {
  join : list jsString -> jsString;
  normalize : jsString -> jsString;
  isAbsolute : jsString -> bool;
  dirname : jsString -> jsString;
  basename : jsString -> jsString;
  relative : jsString -> jsString -> jsString;
  toLowerCase : jsString -> jsString
}.

Section WithPath.
Context `{NodePath}.

Definition pathJoin (paths : list jsString) : jsString :=
  standardizeSlashes (join paths).

Definition pathIsAbsolute (fileOrDirPath : jsString) : bool := isAbsolute fileOrDirPath.

(** [currentDirectory] is [fileSystem.getCurrentDirectory()]. *)
Definition getStandardizedAbsolutePath (currentDirectory : jsString)
    (fileOrDirPath : jsString) (relativeBase : option jsString) : jsString :=
  let isAbsolutePath := isAbsolute fileOrDirPath in
  let fileOrDirPath :=
    match relativeBase with
    | Some base =>
        if negb isAbsolutePath then join [base; fileOrDirPath] else fileOrDirPath
    | None =>
        if negb isAbsolutePath then join [currentDirectory; fileOrDirPath]
        else fileOrDirPath
    end in
  standardizeSlashes (normalize fileOrDirPath).

Definition getDirPath (fileOrDirPath : jsString) : jsString := dirname fileOrDirPath.

Definition getBaseName (fileOrDirPath : jsString) : jsString := basename fileOrDirPath.

Definition getExtension (fileOrDirPath : jsString) : jsString :=
  let baseName := getBaseName fileOrDirPath in
  let lastDotIndex := lastIndexOf baseName dot in
  if lastDotIndex <=? 0 then []
  else
    let lastExt := substring baseName lastDotIndex None in
    let lastExtLowerCase := toLowerCase lastExt in
    if bool_decide (lastExtLowerCase = lit ".ts")
       && bool_decide (toLowerCase (substring baseName (lastDotIndex - 2) (Some lastDotIndex))
                       = lit ".d")
    then substring baseName (lastDotIndex - 2) None
    else if bool_decide (lastExtLowerCase = lit ".map")
            && bool_decide (toLowerCase (substring baseName (lastDotIndex - 3)
                                           (Some lastDotIndex)) = lit ".js")
    then substring baseName (lastDotIndex - 3) None
    else lastExt.

Definition getRelativePathTo (absolutePathFrom absolutePathTo : jsString) : jsString :=
  let relativePath := relative (dirname absolutePathFrom) (dirname absolutePathTo) in
  standardizeSlashes (join [relativePath; basename absolutePathTo]).
End WithPath.

(** ** ensureDirectoryExistsSync

    The file system wrapper is used through its two operations, over a state
    of its own; [mkdirSync] returning [None] stands for a thrown error.  The
    recursion on the parent directory is bounded by [fuel]. *)
Section EnsureDirectory.
Context `{NodePath}.
Variable FS : Type.
Variable directoryExistsSync : jsString -> FS -> bool.
Variable mkdirSync : jsString -> FS -> option FS.

Inductive ensured : Type :=
  | Returned (fs : FS)
  | Thrown (fs : FS)
  | Unfinished.

Fixpoint ensureDirectoryExistsSync (fuel : nat) (dirPath : jsString) (fs : FS) : ensured :=
  match fuel with
  | O => Unfinished
  | S fuel' =>
      if directoryExistsSync dirPath fs then Returned fs
      else
        let parentDirPath := dirname dirPath in
        let afterParent :=
          if negb (bool_decide (parentDirPath = dirPath))
             && negb (bool_decide (dirname parentDirPath = parentDirPath))
          then ensureDirectoryExistsSync fuel' parentDirPath fs
          else Returned fs in
        match afterParent with
        | Returned fs1 =>
            match mkdirSync dirPath fs1 with
            | Some fs2 => Returned fs2
            | None => Thrown fs1
            end
        | Thrown fs1 => Thrown fs1
        | Unfinished => Unfinished
        end
  end.
End EnsureDirectory.
Arguments Returned {FS} fs.
Arguments Thrown {FS} fs.
Arguments Unfinished {FS}.

(** Above a directory whose parent is not its own parent, [dirname] is
    shorter: what bounds the recursion of [ensureDirectoryExistsSync]. *)
Definition shortens `{NodePath} : Prop :=
  forall p, dirname p <> p -> dirname (dirname p) <> dirname p ->
            (length (dirname p) < length p)%nat.

(** A file system that is the list of its directories. *)
Definition listedExists (p : jsString) (dirs : list jsString) : bool :=
  bool_decide (p ∈ dirs).

Definition listedMkdir (p : jsString) (dirs : list jsString) : option (list jsString) :=
  Some (p :: dirs).

(** A file system that only records the calls of [mkdirSync], the directories
    found by [directoryExistsSync] being those of [present]. *)
Definition recordingExists (present : jsString -> bool) (p : jsString)
    (log : list jsString) : bool := present p.

Definition recordingMkdir (p : jsString) (log : list jsString) : option (list jsString) :=
  Some (log ++ [p]).

(** A stand-in for Node's [path] on POSIX-like strings, for worked examples:
    [basename] is the part after the last slash, [dirname] the part before
    it, [toLowerCase] lowers Basic Latin letters. *)
Module Posix.
Definition lowerUnit (c : N) : N :=
  if (65 <=? c)%N && (c <=? 90)%N then (c + 32)%N else c.

Definition afterLastSlash (s : jsString) : jsString :=
  let i := lastIndexOf s slash in
  if i <? 0 then s else substring s (i + 1) None.

Definition beforeLastSlash (s : jsString) : jsString :=
  let i := lastIndexOf s slash in
  if i <? 0 then lit "." else if i =? 0 then lit "/" else substring s 0 (Some i).

Definition joinSlash (paths : list jsString) : jsString :=
  foldr (fun p acc => match acc with [] => p | _ => p ++ slash :: acc end) [] paths.

Definition path : NodePath :=
  {| join := joinSlash;
     normalize := fun p => p;
     isAbsolute := fun p => bool_decide (head p = Some slash);
     dirname := beforeLastSlash;
     basename := afterLastSlash;
     relative := fun _ to => to;
     toLowerCase := map lowerUnit |}.
End Posix.

End FileUtils.

(** * What every run of the walk keeps *)

(** [f'] has every wrapper of [f], on a node of the same kind. *)
Definition keepsKinds (f f' : Factory) : Prop :=
  forall w o, wrappers f !! w = Some o ->
              exists o', wrappers f' !! w = Some o' /\ kind (node o') = kind (node o).

(** The errors of the reconciliation walk itself. *)
Definition walkError (e : error) : Prop :=
  e = TypeError \/ exists msg, e = InvalidOperationError msg.

(** A computation that keeps the factory well formed and the kind of every
    wrapper, and fails with an error among [allowed] only. *)
Definition steady {A} (allowed : error -> Prop) (c : M A) : Prop :=
  forall f r f', factoryWf f -> c f = (r, f') ->
                 factoryWf f' /\ keepsKinds f f'
                 /\ forall e, r = Throw e -> allowed e.

(** The errors of [insertIntoSyntaxList]: those of the walk and the range
    error on [childIndex]. *)
Definition insertError (childIndex : Z) (e : error) : Prop :=
  walkError e
  \/ exists n, e = ArgumentError "childIndex" n childIndex
               /\ (childIndex < 0 \/ n < childIndex).

(** The number of indices below [n] outside [childIndex, childIndex +
    insertItemsCount): the candidate children that the splice walk pairs with
    a pre-edit child. *)
Definition pairedCount (childIndex insertItemsCount : Z) (n : nat) : nat :=
  length (filter (fun i : nat => negb ((childIndex <=? Z.of_nat i)
                                       && (Z.of_nat i <? childIndex + insertItemsCount)))
            (seq 0 n)).

(** * StatementedNode *)

(** [Array.prototype.slice(start, end)]: a negative index counts from the
    end, both are clamped to the array. *)
Definition slice {A} (l : list A) (start stop : Z) : list A :=
  let len := Z.of_nat (length l) in
  let from := if start <? 0 then Z.max (len + start) 0 else Z.min start len in
  let to := if stop <? 0 then Z.max (len + stop) 0 else Z.min stop len in
  take (Z.to_nat (Z.max (to - from) 0)) (drop (Z.to_nat from) l).

Module StatementedNode.
Section Mixin.
  (** Members of the base class and manipulation helpers that the mixin
      calls; they are not among the sources and are taken as they come. *)
Variable getRequiredChildSyntaxList : nat -> M nat.
Variable verifyAndGetIndex : Z -> Z -> M Z.
Variable insertIntoBracesOrSourceFile :
  nat -> nat -> list nat -> Z -> list text -> M unit.
Variable appendNewLineSeparatorIfNecessary : nat -> nat -> M unit.

  (** The closing [for..of] of [_insertMainChildren]. *)
Fixpoint checkKinds (children : list nat) (expectedSyntaxKind : Z) : M unit :=
    match children with
    | [] => ret tt
    | child :: rest =>
        let* k := getKind (Some child) in
        if negb (k =? expectedSyntaxKind) then
          throw (NotImplementedError expectedSyntaxKind k)
        else checkKinds rest expectedSyntaxKind
    end.

Definition _insertMainChildren (this sourceFile : nat) (index : Z)
      (childCodes : list text) (expectedSyntaxKind : Z) : M (list nat) :=
    let* syntaxList := getRequiredChildSyntaxList this in
    let* mainChildren := getChildren (Some syntaxList) in
    let* index := verifyAndGetIndex index (Z.of_nat (length mainChildren)) in
    insertIntoBracesOrSourceFile sourceFile this mainChildren index childCodes ;;
    appendNewLineSeparatorIfNecessary this sourceFile ;;
    let* newMainChildren := getChildren (Some syntaxList) in
    let children :=
      slice newMainChildren index (index + Z.of_nat (length childCodes)) in
    checkKinds children expectedSyntaxKind ;;
    ret children.
End Mixin.
End StatementedNode.

(** * Offsets after an insertion *)







Section Edit.
Variable t : target.
Variable lst : tsNode.
Variables offset count : nat.
Variable len : Z.

End Edit.


Module ExampleSpans.
Import SyntaxKind Example ExampleEdit.


End ExampleSpans.

(** * A failed edit, wrapper by wrapper *)

(** Every wrapper of [f] is in [f'], on the node it had or on one of [news]. *)
Definition movedOnto (news : list tsNode) (f f' : Factory) : Prop :=
  forall w o, wrappers f !! w = Some o ->
              exists o', wrappers f' !! w = Some o'
                         /\ (node o' = node o \/ node o' ∈ news).

(** A computation that keeps the factory well formed and moves wrappers onto
    nodes of [news] only. *)
Definition onto {A} (news : list tsNode) (c : M A) : Prop :=
  forall f r f', factoryWf f -> c f = (r, f') -> factoryWf f' /\ movedOnto news f f'.

(** * Properties *)

(** ** Unfolding equations *)

Lemma handleNode_eq sl slp ci ic (cur : option nat) (new : tsNode) :
  handleNode sl slp ci ic cur new =
    (let* current := getCompilerNode cur in
     if negb (kind current =? kind new) then
       throw (InvalidOperationError
                (InsertErrorMessageText "Error inserting into syntax list!" current new))
     else
       let* currentNodeChildren := getChildrenIterator cur in
       handleNodeLoop sl slp (handleNode sl slp ci ic) (handleSyntaxList sl slp ci ic)
         new currentNodeChildren (children new) ;;
       replaceCurrent cur new).
Proof. destruct new; reflexivity. Qed.

Lemma bind_ok {A B} (c : M A) (k : A -> M B) f a f1 :
  c f = (Ok a, f1) -> bind c k f = k a f1.
Proof. intros E. unfold bind. now rewrite E. Qed.

Lemma bind_throw {A B} (c : M A) (k : A -> M B) f e f1 :
  c f = (Throw e, f1) -> bind c k f = (Throw e, f1).
Proof. intros E. unfold bind. now rewrite E. Qed.

Lemma bind_ok_eq {A B} (c : M A) (k : A -> M B) f a f1 r :
  c f = (Ok a, f1) -> k a f1 = r -> bind c k f = r.
Proof. intros E <-. now apply bind_ok. Qed.

Lemma bind_inv {A B} (c : M A) (k : A -> M B) f r f2 :
  bind c k f = (r, f2) ->
  (exists a f1, c f = (Ok a, f1) /\ k a f1 = (r, f2))
  \/ (exists e, c f = (Throw e, f2) /\ r = Throw e).
Proof.
  unfold bind. destruct (c f) as [[a|e] f1]; intros E.
  - left. eauto.
  - right. exists e. inversion E; subst. auto.
Qed.

(** ** The patched text *)

Lemma substring_prefix (t : text) (p : Z) :
  0 <= p <= Z.of_nat (length t) -> substring t 0 (Some p) = take (Z.to_nat p) t.
Proof.
  intros Hp. unfold substring, clamp.
  rewrite (Z.max_l 0 (Z.min 0 _)) by lia.
  rewrite (Z.min_l p) by lia. rewrite (Z.max_r 0 p) by lia.
  rewrite Z.min_l by lia. rewrite Z.max_r by lia.
  rewrite Z.sub_0_r. reflexivity.
Qed.

Lemma substring_suffix (t : text) (p : Z) :
  0 <= p <= Z.of_nat (length t) -> substring t p None = drop (Z.to_nat p) t.
Proof.
  intros Hp. unfold substring, clamp.
  rewrite (Z.min_l p) by lia. rewrite (Z.max_r 0 p) by lia.
  rewrite Z.min_l by lia. rewrite Z.max_r by lia.
  apply take_ge. rewrite length_drop. lia.
Qed.

(** C7: for a position inside the text, the text given to the parser is the
    prefix of the current text up to the position, then the inserted text,
    then the rest of the current text. *)
Theorem patched_text_is_splice (t s : text) (p : Z) :
  0 <= p <= Z.of_nat (length t) ->
  newFileText t p s = take (Z.to_nat p) t ++ s ++ drop (Z.to_nat p) t.
Proof.
  intros Hp. unfold newFileText.
  now rewrite substring_prefix, substring_suffix.
Qed.

Lemma patched_text_is_splice_witness :
  0 <= 7 <= Z.of_nat (length (list_ascii_of_string "enum E { A }"))
  /\ newFileText (list_ascii_of_string "enum E { A }") 7 (list_ascii_of_string "X")
     = list_ascii_of_string "enum E X{ A }".
Proof.
  split; [vm_compute; split; discriminate |].
  rewrite (patched_text_is_splice _ _ 7); [reflexivity | vm_compute; split; discriminate].
Defined.

Lemma extends_refl f : extends f f.
Proof. repeat split; auto. Qed.

Lemma extends_trans f1 f2 f3 : extends f1 f2 -> extends f2 f3 -> extends f1 f3.
Proof.
  intros (A1 & B1 & C1) (A2 & B2 & C2). repeat split.
  - etrans; eauto.
  - etrans; eauto.
  - lia.
Qed.

Lemma wf_fresh_wrapper f : factoryWf f -> wrappers f !! nextId f = None.
Proof.
  intros [Hw _]. destruct (wrappers f !! nextId f) eqn:E; [|done].
  specialize (Hw (nextId f)). rewrite E in Hw.
  assert (nextId f < nextId f)%nat by (apply Hw; eauto). lia.
Qed.

Lemma getNodeFromCompilerNode_spec n f :
  factoryWf f ->
  exists w f', getNodeFromCompilerNode n f = (Ok w, f')
    /\ factoryWf f' /\ extends f f'
    /\ nodeCache f' !! nid n = Some w
    /\ (forall w0, nodeCache f !! nid n = Some w0 -> w = w0 /\ f' = f)
    /\ (nodeCache f !! nid n = None ->
        w = nextId f
        /\ f' = mkFactory (<[nid n := w]> (nodeCache f))
                          (<[w := mkWrapper n false]> (wrappers f)) (S w)).
Proof.
  intros Hwf. unfold getNodeFromCompilerNode.
  destruct (nodeCache f !! nid n) as [w|] eqn:E.
  - exists w, f. repeat split; auto using extends_refl; try apply Hwf; congruence.
  - eexists _, _. split; [reflexivity|].
    pose proof (wf_fresh_wrapper f Hwf) as Hfresh.
    destruct Hwf as [Hw Hc].
    repeat split; simpl.
    + intros w [o Ho]. destruct (decide (w = nextId f)) as [->|Hne]; [lia|].
      rewrite lookup_insert_ne in Ho by congruence.
      specialize (Hw w (ltac:(eauto))). lia.
    + intros k w Hk. destruct (decide (k = nid n)) as [->|Hne].
      * rewrite lookup_insert_eq in Hk. inversion Hk. lia.
      * rewrite lookup_insert_ne in Hk by congruence.
        specialize (Hc _ _ Hk). lia.
    + now apply insert_subseteq.
    + now apply insert_subseteq.
    + lia.
    + apply lookup_insert_eq.
    + intros; discriminate.
    + intros; discriminate.
Qed.

Lemma getNodesFromCompilerNodes_spec ns : forall f,
  factoryWf f ->
  exists ws f', getNodesFromCompilerNodes ns f = (Ok ws, f')
    /\ factoryWf f' /\ extends f f' /\ length ws = length ns.
Proof.
  induction ns as [|n ns IH]; intros f Hwf; simpl.
  - exists [], f. repeat split; auto using extends_refl; apply Hwf.
  - destruct (getNodeFromCompilerNode_spec n f Hwf) as (w & f1 & E1 & Hwf1 & Hx1 & _).
    destruct (IH f1 Hwf1) as (ws & f2 & E2 & Hwf2 & Hx2 & Hlen).
    exists (w :: ws), f2. split.
    + rewrite (bind_ok _ _ _ _ _ E1). rewrite (bind_ok _ _ _ _ _ E2). reflexivity.
    + repeat split; try apply Hwf2; simpl; try lia.
      all: eapply extends_trans; eauto.
Qed.

Lemma extends_compilerNodeOf f f' w n :
  extends f f' -> compilerNodeOf w f = Some n -> compilerNodeOf w f' = Some n.
Proof.
  intros (Hw & _) E. unfold compilerNodeOf in *.
  destruct (wrappers f !! w) as [o|] eqn:Eo; [|discriminate].
  now rewrite (lookup_weaken _ _ _ _ Eo Hw).
Qed.

Lemma getCompilerNode_some w n f :
  compilerNodeOf w f = Some n -> getCompilerNode (Some w) f = (Ok n, f).
Proof. intros E. unfold getCompilerNode. now rewrite E. Qed.

Lemma getChildrenIterator_some w n f :
  compilerNodeOf w f = Some n -> getChildrenIterator (Some w) f = (Ok (children n), f).
Proof.
  intros E. unfold getChildrenIterator.
  now rewrite (bind_ok _ _ _ _ _ (getCompilerNode_some _ _ _ E)).
Qed.

(** ** The range check on [childIndex] *)

(** C10: a [childIndex] below zero or above the number of children of the
    syntax list raises an ArgumentError; the outcome is the same whatever the
    parser, the insert position and the new text are (none of them has been
    consulted), every wrapper and cache entry is kept as it was, and the
    source file still has its node and text. *)
Theorem childIndex_out_of_range (sourceFile syntaxList : nat)
    (childIndex insertItemsCount : Z) (f : Factory) (list root : tsNode) :
  factoryWf f ->
  compilerNodeOf syntaxList f = Some list ->
  compilerNodeOf sourceFile f = Some root ->
  childIndex < 0 \/ Z.of_nat (length (children list)) < childIndex ->
  exists f',
    (forall (C : Compiler) (insertPos : Z) (newText : text),
        insertIntoSyntaxList sourceFile insertPos newText syntaxList
          childIndex insertItemsCount f
        = (Throw (ArgumentError "childIndex"
                    (Z.of_nat (length (children list))) childIndex), f'))
    /\ wrappers f ⊆ wrappers f'
    /\ nodeCache f ⊆ nodeCache f'
    /\ (forall C : Compiler,
           @getFullText C sourceFile f' = (Ok (@sourceText C root), f')).
Proof.
  intros Hwf Hsl Hsf Hrange.
  destruct (getNodesFromCompilerNodes_spec (children list) f Hwf)
    as (ws & f1 & E1 & Hwf1 & Hx1 & Hlen).
  assert (Hsf1 : compilerNodeOf sourceFile f1 = Some root)
    by eauto using extends_compilerNodeOf.
  assert (Hsl1 : compilerNodeOf syntaxList f1 = Some list)
    by eauto using extends_compilerNodeOf.
  assert (Hpar : exists slp f2, getParent sourceFile syntaxList f1 = (Ok slp, f2)
                                /\ extends f1 f2).
  { unfold getParent.
    rewrite (bind_ok _ _ _ _ _ (getCompilerNode_some _ _ _ Hsf1)).
    rewrite (bind_ok _ _ _ _ _ (getCompilerNode_some _ _ _ Hsl1)).
    destruct (findParent (nid list) root) as [p|].
    - destruct (getNodeFromCompilerNode_spec p f1 Hwf1) as (pw & f2 & E2 & _ & Hx2 & _).
      exists (Some pw), f2. now rewrite (bind_ok _ _ _ _ _ E2).
    - exists None, f1. split; [reflexivity | apply extends_refl]. }
  destruct Hpar as (slp & f2 & E2 & Hx2).
  pose proof (extends_trans _ _ _ Hx1 Hx2) as Hx.
  exists f2. split; [|split; [apply Hx | split; [apply Hx|]]].
  - intros C insertPos newText. unfold insertIntoSyntaxList.
    assert (Eg : getChildren (Some syntaxList) f = (Ok ws, f1)).
    { unfold getChildren.
      now rewrite (bind_ok _ _ _ _ _ (getCompilerNode_some _ _ _ Hsl)). }
    rewrite (bind_ok _ _ _ _ _ Eg), (bind_ok _ _ _ _ _ E2), Hlen.
    replace ((childIndex <? 0) || (Z.of_nat (length (children list)) <? childIndex))
      with true; [reflexivity|].
    symmetry. apply orb_true_iff. destruct Hrange; [left | right]; now apply Z.ltb_lt.
  - intros C. unfold getFullText.
    assert (Hsf2 : compilerNodeOf sourceFile f2 = Some root)
      by eauto using extends_compilerNodeOf.
    now rewrite (bind_ok _ _ _ _ _ (getCompilerNode_some _ _ _ Hsf2)).
Qed.

(** ** Loops over a split list of candidate children *)

Section LoopLemmas.
Variables (sl : nat) (slp : option nat) (ci ic : Z).
Variable hN hSL : option nat -> tsNode -> M unit.

Lemma handleNodeLoop_app new before after : forall cursor f,
    handleNodeLoop sl slp hN hSL new cursor (before ++ after) f
    = (let* cursor' := handleNodeLoop sl slp hN hSL new cursor before in
       handleNodeLoop sl slp hN hSL new cursor' after) f.
Proof.
    induction before as [|c before IH]; intros cursor f; simpl.
    - reflexivity.
    - unfold bind.
      destruct (handleNodeStep sl slp hN hSL new cursor c f) as [[cursor1|e] f1];
        [rewrite IH|]; reflexivity.
Qed.

Lemma handleSyntaxListLoop_app before after : forall i cursor f,
    handleSyntaxListLoop ci ic hN i cursor (before ++ after) f
    = (let* st := handleSyntaxListLoop ci ic hN i cursor before in
       handleSyntaxListLoop ci ic hN st.1 st.2 after) f.
Proof.
    induction before as [|c before IH]; intros i cursor f; simpl.
    - reflexivity.
    - unfold bind.
      destruct (handleSyntaxListStep ci ic hN i cursor c f) as [[st|e] f1];
        [rewrite IH|]; reflexivity.
Qed.
End LoopLemmas.

Section ReachFacts.
Variables (sl : nat) (slp : option nat) (ci ic : Z).

Lemma calls_propagates a b e f' :
    calls sl slp ci ic a b ->
    runHandleNode sl slp ci ic b = (Throw e, f') ->
    runHandleNode sl slp ci ic a = (Throw e, f').
Proof.
    intros Hc Hb. unfold runHandleNode in *.
    destruct Hc as
      [cur new f current before c after cursor f1 tmp f2 y f3
         Hcur Hk Hch Hloop Htmp Htgt Hnext
      |cur new f current before c after cursor f1 tmp f2 y f3
         lcursor ws f4 lbefore d lafter st f5 y2 f6
         Hcur Hk Hch Hloop Htmp Htgt Hnext Hit Hws Hlch Hlloop Hrange Hnext2];
      simpl in *; rewrite handleNode_eq.
    - rewrite (bind_ok _ _ _ _ _ (getCompilerNode_some _ _ _ Hcur)).
      rewrite Hk, Z.eqb_refl. cbn [negb].
      rewrite (bind_ok _ _ _ _ _ (getChildrenIterator_some _ _ _ Hcur)).
      apply bind_throw. rewrite Hch, handleNodeLoop_app.
      rewrite (bind_ok _ _ _ _ _ Hloop). simpl.
      apply bind_throw. unfold handleNodeStep.
      rewrite (bind_ok _ _ _ _ _ Htmp). rewrite Htgt.
      rewrite (bind_ok _ _ _ _ _ Hnext).
      apply bind_throw. exact Hb.
    - rewrite (bind_ok _ _ _ _ _ (getCompilerNode_some _ _ _ Hcur)).
      rewrite Hk, Z.eqb_refl. cbn [negb].
      rewrite (bind_ok _ _ _ _ _ (getChildrenIterator_some _ _ _ Hcur)).
      apply bind_throw. rewrite Hch, handleNodeLoop_app.
      rewrite (bind_ok _ _ _ _ _ Hloop). simpl.
      apply bind_throw. unfold handleNodeStep.
      rewrite (bind_ok _ _ _ _ _ Htmp). rewrite Htgt.
      rewrite (bind_ok _ _ _ _ _ Hnext).
      apply bind_throw. unfold handleSyntaxList.
      rewrite (bind_ok _ _ _ _ _ Hit), (bind_ok _ _ _ _ _ Hws).
      apply bind_throw. rewrite Hlch, handleSyntaxListLoop_app.
      rewrite (bind_ok _ _ _ _ _ Hlloop). simpl.
      apply bind_throw. unfold handleSyntaxListStep.
      rewrite Hrange. rewrite (bind_ok _ _ _ _ _ Hnext2).
      apply bind_throw. exact Hb.
Qed.

Lemma handleNode_kind_mismatch cur new f current :
    compilerNodeOf cur f = Some current ->
    kind current <> kind new ->
    handleNode sl slp ci ic (Some cur) new f
    = (Throw (InvalidOperationError
                (InsertErrorMessageText "Error inserting into syntax list!" current new)), f).
Proof.
    intros Hcur Hk. rewrite handleNode_eq.
    rewrite (bind_ok _ _ _ _ _ (getCompilerNode_some _ _ _ Hcur)).
    apply Z.eqb_neq in Hk. now rewrite Hk.
Qed.
End ReachFacts.

Module StraightLemmas.
Import StraightReplacementNodeHandler StraightFacts.


Lemma handleNodeAt_eq current currentNode newNode :
    handleNodeAt current currentNode newNode =
      match newNode with
      | None => throw TypeError
      | Some newNode =>
          if negb (kind current =? kind newNode) then
            throw (InvalidOperationError
                     (ReplaceTreeErrorMessage (kind current) (kind newNode)))
          else
            let* leftOver :=
              handleChildren handleForValues (children current) (children newNode) in
            let* yielded := nextCandidate leftOver in
            match yielded.1 with
            | Some _ =>
                throw (PlainError
                         "Error replacing tree: Should not have new children left over.")
            | None => replaceCompilerNode currentNode newNode
            end
      end.
Proof. destruct current; reflexivity. Qed.

Lemma handleChildren_app hfv before after : forall cursor f,
    handleChildren hfv (before ++ after) cursor f
    = (let* cursor' := handleChildren hfv before cursor in
       handleChildren hfv after cursor') f.
Proof.
    induction before as [|c before IH]; intros cursor f; simpl.
    - reflexivity.
    - unfold bind.
      destruct (nextCandidate cursor f) as [[y|e] f1]; [|reflexivity].
      destruct (hfv c y.1 f1) as [[u|e] f2]; [rewrite IH|]; reflexivity.
Qed.

Lemma straight_calls_propagates a b e f' :
    calls a b -> run b = (Throw e, f') -> run a = (Throw e, f').
Proof.
    intros Hc Hb. unfold run in *.
    destruct Hc as [current cw new f before c after cursor f1 y f2 w f3
                      Hk Hch Hloop Hnext Hw].
    simpl in *. rewrite handleNodeAt_eq.
    rewrite Hk, Z.eqb_refl. cbn [negb].
    apply bind_throw. rewrite Hch, handleChildren_app.
    rewrite (bind_ok _ _ _ _ _ Hloop). simpl.
    rewrite (bind_ok _ _ _ _ _ Hnext).
    apply bind_throw. unfold handleForValues.
    rewrite (bind_ok _ _ _ _ _ Hw). exact Hb.
Qed.

Lemma handleNodeAt_kind_mismatch current cw new f :
    kind current <> kind new ->
    handleNodeAt current cw (Some new) f
    = (Throw (InvalidOperationError
                (ReplaceTreeErrorMessage (kind current) (kind new))), f).
Proof.
    intros Hk. rewrite handleNodeAt_eq.
    apply Z.eqb_neq in Hk. now rewrite Hk.
Qed.
End StraightLemmas.

(** C2: when the walk gets to a pair of nodes of different kinds, the whole
    walk ends there with an InvalidOperationError that carries the two nodes
    (or their kinds, in the straight handler); the state is the one in which
    the mismatch was met, so nothing is done about it afterwards. *)
Theorem kind_mismatch_is_fatal :
  (forall sl slp ci ic (a : invocation) cur new f current,
      rtc (calls sl slp ci ic) a (Some cur, new, f) ->
      compilerNodeOf cur f = Some current ->
      kind current <> kind new ->
      runHandleNode sl slp ci ic a
      = (Throw (InvalidOperationError
                  (InsertErrorMessageText "Error inserting into syntax list!"
                     current new)), f))
  /\ (forall (a : StraightFacts.invocation) current cw new f,
         rtc StraightFacts.calls a (current, cw, Some new, f) ->
         kind current <> kind new ->
         StraightFacts.run a
         = (Throw (InvalidOperationError
                     (ReplaceTreeErrorMessage (kind current) (kind new))), f)).
Proof.
  split.
  - intros sl slp ci ic a cur new f current Hreach Hcur Hk.
    remember (Some cur, new, f) as b eqn:Eb.
    induction Hreach as [a|a a' b Hcall Hreach IH]; subst.
    + unfold runHandleNode. simpl. now apply handleNode_kind_mismatch.
    + eapply calls_propagates; eauto.
  - intros a current cw new f Hreach Hk.
    remember (current, cw, Some new, f) as b eqn:Eb.
    induction Hreach as [a|a a' b Hcall Hreach IH]; subst.
    + unfold StraightFacts.run. simpl.
      now apply StraightLemmas.handleNodeAt_kind_mismatch.
    + eapply StraightLemmas.straight_calls_propagates; eauto.
Qed.


(** ** The splice walk *)

Lemma getNodesFromCompilerNodes_registers ns : forall f,
  factoryWf f ->
  exists ws f', getNodesFromCompilerNodes ns f = (Ok ws, f')
    /\ factoryWf f' /\ extends f f'
    /\ Forall (fun n => is_Some (nodeCache f' !! nid n)) ns.
Proof.
  induction ns as [|n ns IH]; intros f Hwf; simpl.
  - exists [], f. repeat split; auto using extends_refl; apply Hwf.
  - destruct (getNodeFromCompilerNode_spec n f Hwf) as (w & f1 & E1 & Hwf1 & Hx1 & Hreg & _).
    destruct (IH f1 Hwf1) as (ws & f2 & E2 & Hwf2 & Hx2 & Hall).
    exists (w :: ws), f2. split.
    + rewrite (bind_ok _ _ _ _ _ E1). rewrite (bind_ok _ _ _ _ _ E2). reflexivity.
    + split; [exact Hwf2|]. split; [eapply extends_trans; eauto|].
      constructor; [|exact Hall].
      destruct Hx2 as (_ & Hc & _).
      exists w. eapply lookup_weaken; eauto.
Qed.

(** ** Which pair goes to the splice reconciler *)

Lemma areNodesEqual_true a b :
  areNodesEqual (Some a) b = true <-> exists n, b = Some n /\ sameStartAndKind a n.
Proof.
  unfold sameStartAndKind. destruct b as [n|]; simpl.
  - rewrite andb_true_iff, !Z.eqb_eq. split.
    + intros [? ?]; eauto.
    + intros (n' & E & ? & ?). inversion E; subst. auto.
  - split; [discriminate | intros (n & E & _); discriminate].
Qed.

Lemma isInsertTarget_iff sl slp c new f :
  isInsertTarget sl slp c new f = true <-> delegationCondition sl slp c new f.
Proof.
  unfold isInsertTarget, delegationCondition.
  rewrite andb_true_iff, !areNodesEqual_true. split.
  - intros [Hl (n & En & Hn)]. split; [exact Hl|].
    destruct slp as [p|]; simpl in En; [|discriminate]. eauto.
  - intros [Hl (p & parent & -> & Ep & Hp)]. split; [exact Hl|].
    exists parent. simpl. auto.
Qed.

Lemma handleNodeStep_eq sl slp hN hSL new o cursor c f tmp f1 w f2 :
  getNodeFromCompilerNode c f = (Ok tmp, f1) ->
  getNodeFromCompilerNode o f1 = (Ok w, f2) ->
  handleNodeStep sl slp hN hSL new (o :: cursor) c f
  = if isInsertTarget sl slp c new f1
    then (hSL (Some w) c ;; ret cursor) f2
    else (hN (Some w) c ;; ret cursor) f2.
Proof.
  intros E1 E2.
  unfold handleNodeStep. rewrite (bind_ok _ _ _ _ _ E1).
  unfold next. rewrite (bind_ok _ _ _ _ _ (bind_ok _ _ _ _ _ E2)).
  unfold ret at 1. simpl.
  destruct (isInsertTarget sl slp c new f1); reflexivity.
Qed.

(** ** No wrapper is forgotten by the walk *)

Lemma tsNode_nested_ind (P : tsNode -> Prop) :
  (forall n, Forall P (children n) -> P n) -> forall n, P n.
Proof.
  intros H. fix IH 1. intros [i k p e cs]. apply H. simpl.
  induction cs as [|c cs IHcs]; constructor; [apply IH | exact IHcs].
Qed.

Lemma keepsWrappers_refl f : keepsWrappers f f.
Proof. intros w o E. eauto. Qed.

Lemma keepsWrappers_trans f1 f2 f3 :
  keepsWrappers f1 f2 -> keepsWrappers f2 f3 -> keepsWrappers f1 f3.
Proof.
  intros H1 H2 w o E. destruct (H1 _ _ E) as (o' & E' & Hf).
  destruct (H2 _ _ E') as (o'' & E'' & Hf'). exists o''. split; congruence.
Qed.

Lemma extends_keepsWrappers f f' : extends f f' -> keepsWrappers f f'.
Proof.
  intros (Hw & _) w o E. exists o. split; [|reflexivity].
  eapply lookup_weaken; eauto.
Qed.

Lemma preserves_ret {A} (a : A) : preserves (ret a).
Proof.
  intros f r f' Hwf E. inversion E; subst.
  auto using keepsWrappers_refl.
Qed.

Lemma preserves_throw {A} e : preserves (@throw A e).
Proof.
  intros f r f' Hwf E. inversion E; subst.
  auto using keepsWrappers_refl.
Qed.

Lemma preserves_bind {A B} (c : M A) (k : A -> M B) :
  preserves c -> (forall a, preserves (k a)) -> preserves (bind c k).
Proof.
  intros Hc Hk f r f' Hwf E.
  destruct (bind_inv _ _ _ _ _ E) as [(a & f1 & E1 & E2)|(e & E1 & _)].
  - destruct (Hc _ _ _ Hwf E1) as (Hwf1 & Hk1 & Hn1).
    destruct (Hk a _ _ _ Hwf1 E2) as (Hwf2 & Hk2 & Hn2).
    split; [exact Hwf2|]. split; [eapply keepsWrappers_trans; eauto | lia].
  - eapply Hc; eauto.
Qed.

Lemma preserves_getNodeFromCompilerNode n : preserves (getNodeFromCompilerNode n).
Proof.
  intros f r f' Hwf E.
  destruct (getNodeFromCompilerNode_spec n f Hwf) as (w & f1 & E1 & Hwf1 & Hx & _).
  rewrite E1 in E. inversion E; subst.
  split; [exact Hwf1|]. split; [now apply extends_keepsWrappers | apply Hx].
Qed.

Lemma preserves_getNodesFromCompilerNodes ns : preserves (getNodesFromCompilerNodes ns).
Proof.
  induction ns as [|n ns IH]; simpl.
  - apply preserves_ret.
  - apply preserves_bind; [apply preserves_getNodeFromCompilerNode|].
    intros w. apply preserves_bind; [exact IH|]. intros ws. apply preserves_ret.
Qed.

Lemma preserves_getCompilerNode w : preserves (getCompilerNode w).
Proof.
  intros f r f' Hwf E. unfold getCompilerNode in E.
  destruct w as [w|]; [destruct (compilerNodeOf w f)|]; inversion E; subst;
    auto using keepsWrappers_refl.
Qed.

Lemma preserves_getChildrenIterator w : preserves (getChildrenIterator w).
Proof.
  apply preserves_bind; [apply preserves_getCompilerNode|].
  intros n. apply preserves_ret.
Qed.

Lemma preserves_next cursor : preserves (next cursor).
Proof.
  destruct cursor as [|c cursor]; simpl.
  - apply preserves_ret.
  - apply preserves_bind; [apply preserves_getNodeFromCompilerNode|].
    intros w. apply preserves_ret.
Qed.

Lemma preserves_nextCandidate cursor : preserves (nextCandidate cursor).
Proof.
  destruct cursor as [|c cursor]; simpl.
  - apply preserves_ret.
  - apply preserves_bind; [apply preserves_getNodeFromCompilerNode|].
    intros w. apply preserves_ret.
Qed.

Lemma lookup_dropKeys_Some ks (m : gmap nat nat) k w :
  dropKeys ks m !! k = Some w -> m !! k = Some w.
Proof.
  induction ks as [|a ks IH]; simpl; [auto|].
  intros E. destruct (decide (a = k)) as [->|Hne].
  - rewrite lookup_delete_eq in E. discriminate.
  - rewrite lookup_delete_ne in E by exact Hne. auto.
Qed.

Lemma preserves_replaceCompilerNode w n : preserves (replaceCompilerNode w n).
Proof.
  intros f r f' Hwf E. unfold replaceCompilerNode in E.
  destruct (wrappers f !! w) as [o|] eqn:Eo.
  2:{ inversion E; subst. auto using keepsWrappers_refl. }
  destruct (kind (node o) =? kind n).
  2:{ inversion E; subst. auto using keepsWrappers_refl. }
  inversion E; subst. clear E. destruct Hwf as [Hw Hc].
  split; [split|split]; simpl.
  - intros w' [o' Ho']. destruct (decide (w' = w)) as [->|Hne].
    + apply Hw. eauto.
    + rewrite lookup_insert_ne in Ho' by congruence. apply Hw. eauto.
  - intros k w' Hk. apply lookup_dropKeys_Some in Hk.
    destruct (decide (k = nid n)) as [->|Hne].
    + rewrite lookup_insert_eq in Hk. inversion Hk; subst. apply Hw. eauto.
    + rewrite lookup_insert_ne in Hk by congruence. eauto.
  - intros w' o' Ho'. simpl. destruct (decide (w' = w)) as [->|Hne].
    + rewrite lookup_insert_eq. eexists. split; [reflexivity|]. simpl. congruence.
    + rewrite lookup_insert_ne by congruence. eauto.
  - lia.
Qed.

Lemma preserves_replaceCurrent cur n : preserves (replaceCurrent cur n).
Proof.
  destruct cur as [w|]; simpl;
    [apply preserves_replaceCompilerNode | apply preserves_throw].
Qed.

Section PreservesLoops.
Variables (sl : nat) (slp : option nat) (ci ic : Z).
Variable hN hSL : option nat -> tsNode -> M unit.

Lemma preserves_handleNodeStep new cursor c :
  (forall cur, preserves (hN cur c)) -> (forall cur, preserves (hSL cur c)) ->
  preserves (handleNodeStep sl slp hN hSL new cursor c).
Proof.
  intros HN HSL. unfold handleNodeStep.
  apply preserves_bind; [apply preserves_getNodeFromCompilerNode|].
  intros _ f r f' Hwf E.
  revert E. apply preserves_bind; [apply preserves_next | | exact Hwf].
  intros y. apply preserves_bind; [|intros; apply preserves_ret].
  destruct (isInsertTarget sl slp c new f); auto.
Qed.

Lemma preserves_handleNodeLoop new cs : forall cursor,
  Forall (fun c => (forall cur, preserves (hN cur c))
                   /\ (forall cur, preserves (hSL cur c))) cs ->
  preserves (handleNodeLoop sl slp hN hSL new cursor cs).
Proof.
  induction cs as [|c cs IH]; intros cursor Hall; simpl.
  - apply preserves_ret.
  - inversion Hall as [|? ? [HN HSL] Hrest]; subst.
    apply preserves_bind; [now apply preserves_handleNodeStep|].
    intros cursor'. now apply IH.
Qed.

Lemma preserves_handleSyntaxListStep i cursor c :
  (forall cur, preserves (hN cur c)) ->
  preserves (handleSyntaxListStep ci ic hN i cursor c).
Proof.
  intros HN. unfold handleSyntaxListStep.
  destruct ((ci <=? i) && (i <? ci + ic)); [apply preserves_ret|].
  apply preserves_bind; [apply preserves_next|].
  intros y. apply preserves_bind; [apply HN | intros; apply preserves_ret].
Qed.

Lemma preserves_handleSyntaxListLoop cs : forall i cursor,
  Forall (fun c => forall cur, preserves (hN cur c)) cs ->
  preserves (handleSyntaxListLoop ci ic hN i cursor cs).
Proof.
  induction cs as [|c cs IH]; intros i cursor Hall; simpl.
  - apply preserves_ret.
  - inversion Hall as [|? ? HN Hrest]; subst.
    apply preserves_bind; [now apply preserves_handleSyntaxListStep|].
    intros st. now apply IH.
Qed.
End PreservesLoops.

Lemma preserves_walk sl slp ci ic new :
  (forall cur, preserves (handleNode sl slp ci ic cur new))
  /\ (forall cur, preserves (handleSyntaxList sl slp ci ic cur new)).
Proof.
  induction new as [new IH] using tsNode_nested_ind.
  assert (HSL : forall cur, preserves (handleSyntaxList sl slp ci ic cur new)).
  { intros cur. unfold handleSyntaxList.
    apply preserves_bind; [apply preserves_getChildrenIterator|]. intros cursor.
    apply preserves_bind; [apply preserves_getNodesFromCompilerNodes|]. intros _.
    apply preserves_bind; [|intros; apply preserves_replaceCurrent].
    apply preserves_handleSyntaxListLoop.
    eapply Forall_impl; [exact IH|]. intros c [H _]. exact H. }
  split; [|exact HSL].
  intros cur. rewrite handleNode_eq.
  apply preserves_bind; [apply preserves_getCompilerNode|]. intros current.
  destruct (negb (kind current =? kind new)); [apply preserves_throw|].
  apply preserves_bind; [apply preserves_getChildrenIterator|]. intros cursor.
  apply preserves_bind; [|intros; apply preserves_replaceCurrent].
  apply preserves_handleNodeLoop. exact IH.
Qed.

Lemma preserves_getParent sf w : preserves (getParent sf w).
Proof.
  unfold getParent.
  apply preserves_bind; [apply preserves_getCompilerNode|]. intros root.
  apply preserves_bind; [apply preserves_getCompilerNode|]. intros n.
  destruct (findParent (nid n) root); [|apply preserves_ret].
  apply preserves_bind; [apply preserves_getNodeFromCompilerNode|].
  intros; apply preserves_ret.
Qed.

Lemma preserves_insertIntoSyntaxList (C : Compiler) sf p s sl ci ic :
  preserves (insertIntoSyntaxList sf p s sl ci ic).
Proof.
  unfold insertIntoSyntaxList.
  apply preserves_bind.
  { unfold getChildren. apply preserves_bind; [apply preserves_getCompilerNode|].
    intros; apply preserves_getNodesFromCompilerNodes. }
  intros ws. apply preserves_bind; [apply preserves_getParent|]. intros slp.
  destruct ((ci <? 0) || (Z.of_nat (length ws) <? ci)); [apply preserves_throw|].
  apply preserves_bind.
  { unfold getFullText. apply preserves_bind; [apply preserves_getCompilerNode|].
    intros; apply preserves_ret. }
  intros t. apply preserves_bind.
  { unfold createTempSourceFileFromText.
    apply preserves_bind; [apply preserves_getNodeFromCompilerNode|].
    intros; apply preserves_ret. }
  intros tmp. apply preserves_walk.
Qed.

(** ** Concrete factories are well formed *)

Lemma factoryWf_alt f :
  map_Forall (fun w _ => (w < nextId f)%nat) (wrappers f) ->
  map_Forall (fun _ w => (w < nextId f)%nat) (nodeCache f) ->
  factoryWf f.
Proof.
  intros Hw Hc. split.
  - intros w [o Ho]. exact (Hw _ _ Ho).
  - intros k w Hk. exact (Hc _ _ Hk).
Qed.

Lemma example_factory_wf : factoryWf Example.factory.
Proof.
  apply factoryWf_alt; refine (bool_decide_unpack _ _); vm_compute; exact I.
Qed.

Lemma small_factory_wf : factoryWf Small.factory.
Proof.
  apply factoryWf_alt; refine (bool_decide_unpack _ _); vm_compute; exact I.
Qed.

(** ** Witnesses on the worked files *)

Lemma childIndex_out_of_range_witness :
  exists f',
    (forall (C : Compiler) (insertPos : Z) (newText : text),
        insertIntoSyntaxList 0 insertPos newText 2 5 1 Example.factory
        = (Throw (ArgumentError "childIndex" 1 5), f'))
    /\ wrappers Example.factory ⊆ wrappers f'
    /\ nodeCache Example.factory ⊆ nodeCache f'
    /\ (forall C : Compiler,
           @getFullText C 0 f' = (Ok (@sourceText C Example.oldFile), f')).
Proof.
  apply (childIndex_out_of_range 0 2 5 1 Example.factory Example.members Example.oldFile).
  - exact example_factory_wf.
  - reflexivity.
  - reflexivity.
  - right. simpl. lia.
Defined.

Lemma kind_mismatch_is_fatal_witness :
  runHandleNode 0 None 0 0 (Some 0%nat, Small.otherKind', Small.factory)
  = (Throw (InvalidOperationError
              (InsertErrorMessageText "Error inserting into syntax list!"
                 (TsNode 42 SyntaxKind.EndOfFileToken 1 1 [])
                 (TsNode 72 SyntaxKind.CommaToken 1 1 []))),
     (handleNode 0 None 0 0 (Some 0%nat) Small.otherKind' Small.factory).2)
  /\ StraightFacts.run (Small.twoChildren, 0%nat, Some Small.otherKind', Small.factory)
     = (Throw (InvalidOperationError
                 (ReplaceTreeErrorMessage SyntaxKind.EndOfFileToken SyntaxKind.CommaToken)),
        (StraightReplacementNodeHandler.handleNode 0 (Some Small.otherKind')
           Small.factory).2).
Proof.
  split.
  - apply (proj1 kind_mismatch_is_fatal 0%nat None 0 0
             (Some 0%nat, Small.otherKind', Small.factory) 5%nat).
    + eapply rtc_l; [|apply rtc_refl].
      eapply (calls_child 0 None 0 0 0%nat Small.otherKind' Small.factory
                Small.twoChildren [TsNode 71 SyntaxKind.SyntaxList 0 1 []]
                (TsNode 72 SyntaxKind.CommaToken 1 1 []) []
                [TsNode 42 SyntaxKind.EndOfFileToken 1 1 []] _ 4%nat _ (Some 5%nat, [])).
      * reflexivity.
      * reflexivity.
      * reflexivity.
      * vm_compute. reflexivity.
      * vm_compute. reflexivity.
      * vm_compute. reflexivity.
      * vm_compute. reflexivity.
    + vm_compute. reflexivity.
    + vm_compute. discriminate.
  - apply (proj2 kind_mismatch_is_fatal
             (Small.twoChildren, 0%nat, Some Small.otherKind', Small.factory)
             (TsNode 42 SyntaxKind.EndOfFileToken 1 1 []) 5%nat
             (TsNode 72 SyntaxKind.CommaToken 1 1 [])).
    + eapply rtc_l; [|apply rtc_refl].
      eapply (StraightFacts.calls_child Small.twoChildren 0%nat Small.otherKind'
                Small.factory [TsNode 41 SyntaxKind.SyntaxList 0 1 []]
                (TsNode 42 SyntaxKind.EndOfFileToken 1 1 []) []
                [TsNode 72 SyntaxKind.CommaToken 1 1 []] _
                (Some (TsNode 72 SyntaxKind.CommaToken 1 1 []), [])).
      * reflexivity.
      * reflexivity.
      * vm_compute. reflexivity.
      * vm_compute. reflexivity.
      * vm_compute. reflexivity.
    + vm_compute. discriminate.
Defined.

(** C3, as stated, fails: the comma inserted after [A] has no wrapper before
    the splice walk and has one after it. *)
Lemma inserted_child_is_wrapped : ~ inserted_children_stay_unwrapped.
Proof.
  intros H.
  specialize (H 2%nat (Some 1%nat) 1 2 2%nat Example.members' Example.factory _ _
                (surjective_pairing _) 1%nat Example.comma').
  assert (Hf : nodeCache
                 (handleSyntaxList 2 (Some 1%nat) 1 2 (Some 2%nat) Example.members'
                    Example.factory).2 !! nid Example.comma' = None).
  { apply H; [reflexivity | lia | reflexivity]. }
  vm_compute in Hf. discriminate.
Qed.

(** ** Children left over *)

(** C5: three inserted children are declared where the reparse has two; the
    splice walk skips the three candidate children, never takes the pre-edit
    member [A] from the cursor, and still completes: the list wrapper is put
    on the candidate list while the wrapper of [A] stays on its pre-edit
    node, which is no longer registered. *)
Theorem splice_leftover_goes_unnoticed :
  let r := @insertIntoSyntaxList Example.parser 0 10 (list_ascii_of_string ", B")
             2 0 3 Example.factory in
  r.1 = Ok tt
  /\ compilerNodeOf 2 r.2 = Some Example.members'
  /\ compilerNodeOf 3 r.2 = Some Example.memberA
  /\ nodeCache r.2 !! nid Example.memberA = None.
Proof. vm_compute. repeat split. Qed.

(** C6: the candidate file has one child where the current file has two; the
    insert walk pairs the first children, leaves the second current child
    alone and completes.  The straight handler stops with an error when the
    candidate has a child more than the current node. *)
Theorem current_leftover_goes_unnoticed :
  (let r := handleNode 0 None 0 0 (Some 0%nat) Small.oneChild' Small.factory in
   r.1 = Ok tt
   /\ compilerNodeOf 0 r.2 = Some Small.oneChild'
   /\ nodeCache r.2 !! 42%nat = None)
  /\ (let r := @insertIntoSyntaxList Example.shortParser 0 10
                 (list_ascii_of_string ", B") 2 1 2 Example.factory in
      r.1 = Ok tt /\ compilerNodeOf 0 r.2 = Some Example.shortFile)
  /\ (StraightReplacementNodeHandler.handleNode 1 (Some Small.twoChildren')
        Small.factory).1
     = Throw (PlainError "Error replacing tree: Should not have new children left over.")
  /\ (handleNode 0 None 0 0 (Some 1%nat) Small.twoChildren' Small.factory).1
     = Throw TypeError.
Proof. vm_compute. repeat split. Qed.

(** ** Nodes of a forest *)

Lemma subnodes_eq n : subnodes n = n :: fsub (children n).
Proof. destruct n; reflexivity. Qed.

Lemma nids_eq n : nids n = nid n :: fnids (children n).
Proof. unfold nids, fnids. now rewrite subnodes_eq. Qed.

Lemma fsub_cons a l : fsub (a :: l) = subnodes a ++ fsub l.
Proof. reflexivity. Qed.

Lemma fsub_app l1 l2 : fsub (l1 ++ l2) = fsub l1 ++ fsub l2.
Proof. unfold fsub. apply flat_map_app. Qed.

Lemma fnids_cons a l : fnids (a :: l) = nids a ++ fnids l.
Proof. unfold fnids, nids. rewrite fsub_cons. apply map_app. Qed.

Lemma fnids_app l1 l2 : fnids (l1 ++ l2) = fnids l1 ++ fnids l2.
Proof. unfold fnids. rewrite fsub_app. apply map_app. Qed.

Lemma fsub_single a : fsub [a] = subnodes a.
Proof. unfold fsub. simpl. apply app_nil_r. Qed.

Lemma fnids_single a : fnids [a] = nids a.
Proof. unfold fnids, nids. now rewrite fsub_single. Qed.

Lemma elem_of_fnids m l : m ∈ fsub l -> nid m ∈ fnids l.
Proof. intros H. unfold fnids. apply list_elem_of_fmap. eauto. Qed.

Lemma elem_of_nids m n : m ∈ subnodes n -> nid m ∈ nids n.
Proof. intros H. unfold nids. apply list_elem_of_fmap. eauto. Qed.

Lemma subnodes_self n : n ∈ subnodes n.
Proof. rewrite subnodes_eq. apply list_elem_of_here. Qed.

Lemma elem_of_fsub_child c l m : c ∈ l -> m ∈ subnodes c -> m ∈ fsub l.
Proof.
  intros Hc Hm. unfold fsub. apply list_elem_of_In, in_flat_map.
  exists c. split; now apply list_elem_of_In.
Qed.

(** ** Where the paired and the skipped nodes are *)

Section AlignmentFacts.
Variable t : target.
Variables ci ic : Z.

Lemma pairs_located :
  (forall o n ps sk, pairsNode t ci ic o n ps sk ->
      (forall m m', (m, m') ∈ ps -> m ∈ subnodes o /\ m' ∈ subnodes n)
      /\ (forall c, c ∈ sk -> c ∈ subnodes n))
  /\ (forall p os ns ps sk, pairsChildren t ci ic p os ns ps sk ->
      (forall m m', (m, m') ∈ ps -> m ∈ fsub os /\ m' ∈ fsub ns)
      /\ (forall c, c ∈ sk -> c ∈ fsub ns))
  /\ (forall o n ps sk, pairsList t ci ic o n ps sk ->
      (forall m m', (m, m') ∈ ps -> m ∈ subnodes o /\ m' ∈ subnodes n)
      /\ (forall c, c ∈ sk -> c ∈ subnodes n))
  /\ (forall i os ns ps sk, pairsListChildren t ci ic i os ns ps sk ->
      (forall m m', (m, m') ∈ ps -> m ∈ fsub os /\ m' ∈ fsub ns)
      /\ (forall c, c ∈ sk -> c ∈ fsub ns)).
Proof.
  apply pairs_mutind.
  - intros o n ps sk Hk _ [IHp IHs]. split.
    + intros m m' Hin. rewrite !subnodes_eq.
      apply elem_of_cons in Hin as [E|Hin].
      * inversion E; subst. split; apply list_elem_of_here.
      * destruct (IHp _ _ Hin). split; now apply list_elem_of_further.
    + intros c Hc. rewrite subnodes_eq. apply list_elem_of_further. auto.
  - intros p. split; intros *; intros Hin; inversion Hin.
  - intros p o os n ns ps1 sk1 ps2 sk2 _ _ [IH1p IH1s] _ [IH2p IH2s]. split.
    + intros m m' Hin. rewrite !fsub_cons, !elem_of_app.
      apply elem_of_app in Hin as [Hin|Hin].
      * destruct (IH1p _ _ Hin). auto.
      * destruct (IH2p _ _ Hin). auto.
    + intros c Hc. rewrite fsub_cons, elem_of_app.
      apply elem_of_app in Hc as [Hc|Hc]; auto.
  - intros p o os n ns ps1 sk1 ps2 sk2 _ _ [IH1p IH1s] _ [IH2p IH2s]. split.
    + intros m m' Hin. rewrite !fsub_cons, !elem_of_app.
      apply elem_of_app in Hin as [Hin|Hin].
      * destruct (IH1p _ _ Hin). auto.
      * destruct (IH2p _ _ Hin). auto.
    + intros c Hc. rewrite fsub_cons, elem_of_app.
      apply elem_of_app in Hc as [Hc|Hc]; auto.
  - intros o n ps sk Hk _ [IHp IHs]. split.
    + intros m m' Hin. rewrite !subnodes_eq.
      apply elem_of_cons in Hin as [E|Hin].
      * inversion E; subst. split; apply list_elem_of_here.
      * destruct (IHp _ _ Hin). split; now apply list_elem_of_further.
    + intros c Hc. rewrite subnodes_eq. apply list_elem_of_further. auto.
  - intros i. split; intros *; intros Hin; inversion Hin.
  - intros i os n ns ps sk _ _ [IHp IHs]. split.
    + intros m m' Hin. destruct (IHp _ _ Hin). split; [auto|].
      rewrite fsub_cons, elem_of_app. auto.
    + intros c Hc. rewrite fsub_cons, elem_of_app.
      apply elem_of_cons in Hc as [->|Hc]; [left; apply subnodes_self | auto].
  - intros i o os n ns ps1 sk1 ps2 sk2 _ _ [IH1p IH1s] _ [IH2p IH2s]. split.
    + intros m m' Hin. rewrite !fsub_cons, !elem_of_app.
      apply elem_of_app in Hin as [Hin|Hin].
      * destruct (IH1p _ _ Hin). auto.
      * destruct (IH2p _ _ Hin). auto.
    + intros c Hc. rewrite fsub_cons, elem_of_app.
      apply elem_of_app in Hc as [Hc|Hc]; auto.
Qed.
End AlignmentFacts.

(** ** Distinct identities *)

Lemma NoDup_four (a1 a2 b1 b2 : list nat) :
  NoDup ((a1 ++ a2) ++ (b1 ++ b2)) ->
  NoDup (a1 ++ b1) /\ NoDup (a2 ++ b2)
  /\ (forall k, k ∈ a1 -> (k ∉ a2) /\ (k ∉ b2))
  /\ (forall k, k ∈ b1 -> (k ∉ a2) /\ (k ∉ b2))
  /\ (forall k, k ∈ a2 -> (k ∉ a1) /\ (k ∉ b1))
  /\ (forall k, k ∈ b2 -> (k ∉ a1) /\ (k ∉ b1)).
Proof.
  rewrite !NoDup_app. intros ((Ha1 & Ha12 & Ha2) & Hab & (Hb1 & Hb12 & Hb2)).
  assert (Hab' : forall k, k ∈ a1 \/ k ∈ a2 -> k ∈ b1 \/ k ∈ b2 -> False).
  { intros k H1 H2. apply (Hab k); rewrite elem_of_app; auto. }
  split; [|split; [|split; [|split; [|split]]]].
  - split; [exact Ha1|]. split; [|exact Hb1]. intros k Hk Hk'. eapply Hab'; eauto.
  - split; [exact Ha2|]. split; [|exact Hb2]. intros k Hk Hk'. eapply Hab'; eauto.
  - intros k Hk. split; intros Hk'; [eapply Ha12 | eapply Hab']; eauto.
  - intros k Hk. split; intros Hk'; [eapply Hab' | eapply Hb12]; eauto.
  - intros k Hk. split; intros Hk'; [eapply Ha12 | eapply Hab']; eauto.
  - intros k Hk. split; intros Hk'; [eapply Hab' | eapply Hb12]; eauto.
Qed.

Lemma NoDup_nid_inj (l : list tsNode) m1 m2 :
  NoDup (map nid l) -> m1 ∈ l -> m2 ∈ l -> nid m1 = nid m2 -> m1 = m2.
Proof.
  induction l as [|a l IH]; intros Hnd H1 H2 E; [inversion H1|].
  simpl in Hnd. apply NoDup_cons in Hnd as [Ha Hnd].
  apply elem_of_cons in H1 as [->|H1]; apply elem_of_cons in H2 as [->|H2]; auto.
  - exfalso. apply Ha. rewrite E. apply list_elem_of_fmap. eauto.
  - exfalso. apply Ha. rewrite <- E. apply list_elem_of_fmap. eauto.
Qed.

(** ** The guard under a pinned target *)

Lemma isInsertTarget_pinned sl slp t c new f :
  pinned sl slp t f -> isInsertTarget sl slp c new f = isTarget t c new.
Proof.
  intros [(l & El & Hp & Hk) Hpar]. unfold isInsertTarget, isTarget.
  rewrite El. simpl. rewrite Hp, Hk. f_equal.
  destruct slp as [p|]; simpl.
  - destruct Hpar as (parent & Ep & ->). now rewrite Ep.
  - now rewrite Hpar.
Qed.

Lemma pinned_extends sl slp t f f' :
  extends f f' -> pinned sl slp t f -> pinned sl slp t f'.
Proof.
  intros Hx [(l & El & Hl) Hpar]. split.
  - exists l. split; [eapply extends_compilerNodeOf; eauto | exact Hl].
  - destruct slp as [p|]; [|exact Hpar].
    destruct Hpar as (parent & Ep & Hs). exists parent.
    split; [eapply extends_compilerNodeOf; eauto | exact Hs].
Qed.

Lemma pinned_below sl slp t f x :
  factoryWf f -> pinned sl slp t f -> (nextId f <= x)%nat ->
  x <> sl /\ slp <> Some x.
Proof.
  intros [Hw _] [(l & El & _) Hpar] Hx. split.
  - intros ->. unfold compilerNodeOf in El.
    destruct (wrappers f !! sl) eqn:E; [|discriminate].
    specialize (Hw sl (ltac:(eauto))). lia.
  - intros ->. destruct Hpar as (parent & Ep & _). unfold compilerNodeOf in Ep.
    destruct (wrappers f !! x) eqn:E; [|discriminate].
    specialize (Hw x (ltac:(eauto))). lia.
Qed.

Lemma acceptable_fresh sl slp t f x nd :
  factoryWf f -> pinned sl slp t f -> (nextId f <= x)%nat -> acceptable sl slp t x nd.
Proof.
  intros Hwf Hp Hx. destruct (pinned_below _ _ _ _ _ Hwf Hp Hx) as [H1 H2].
  split; intros; contradiction.
Qed.

Lemma compilerNodeOf_lt f x nd :
  factoryWf f -> compilerNodeOf x f = Some nd -> (x < nextId f)%nat.
Proof.
  intros [Hw _] E. unfold compilerNodeOf in E.
  destruct (wrappers f !! x) eqn:Ex; [|discriminate]. apply Hw. eauto.
Qed.

(** ** Replacing the node of a wrapper *)

Lemma lookup_dropKeys_in ks (m : gmap nat nat) k : k ∈ ks -> dropKeys ks m !! k = None.
Proof.
  induction ks as [|a ks IH]; intros Hk; [inversion Hk|]. simpl.
  destruct (decide (a = k)) as [->|Hne].
  - apply lookup_delete_eq.
  - rewrite lookup_delete_ne by exact Hne. apply IH.
    apply elem_of_cons in Hk as [->|Hk]; [contradiction | exact Hk].
Qed.

Lemma lookup_dropKeys_notin ks (m : gmap nat nat) k : k ∉ ks -> dropKeys ks m !! k = m !! k.
Proof.
  induction ks as [|a ks IH]; intros Hk; [reflexivity|]. simpl.
  apply not_elem_of_cons in Hk as [Hne Hk].
  rewrite lookup_delete_ne by congruence. now apply IH.
Qed.

Lemma replaceCompilerNode_ok w o n f :
  compilerNodeOf w f = Some o -> kind o = kind n ->
  exists b,
    wrappers f !! w = Some (mkWrapper o b)
    /\ replaceCompilerNode w n f
       = (Ok tt, mkFactory (dropKeys (nids o) (<[nid n := w]> (nodeCache f)))
                   (<[w := mkWrapper n b]> (wrappers f)) (nextId f)).
Proof.
  intros E Hk. unfold compilerNodeOf in E. unfold replaceCompilerNode.
  destruct (wrappers f !! w) as [[o' b]|] eqn:Ew; [|discriminate].
  simpl in E. inversion E; subst. exists b. split; [reflexivity|].
  simpl. now rewrite Hk, Z.eqb_refl.
Qed.

Lemma pinned_replace sl slp t f w n b ks :
  pinned sl slp t f -> acceptable sl slp t w n ->
  pinned sl slp t
    (mkFactory ks (<[w := mkWrapper n b]> (wrappers f)) (nextId f)).
Proof.
  intros [(l & El & Hl) Hpar] [Hsl Hslp]. split.
  - unfold compilerNodeOf. simpl. destruct (decide (sl = w)) as [->|Hne].
    + rewrite lookup_insert_eq. simpl. exists n. split; [reflexivity|]. now apply Hsl.
    + rewrite lookup_insert_ne by congruence. exists l. auto.
  - destruct slp as [p|]; [|exact Hpar].
    destruct Hpar as (parent & Ep & Hs).
    unfold compilerNodeOf. simpl. destruct (decide (p = w)) as [->|Hne].
    + rewrite lookup_insert_eq. simpl. exists n. split; [reflexivity|]. now apply Hslp.
    + rewrite lookup_insert_ne by congruence. exists parent. auto.
Qed.

(** ** Composing reconciliations *)

Section ReconciledFacts.
Variables (sl : nat) (slp : option nat) (t : target) (lb : nat).

Lemma extends_cache f f1 k x :
  extends f f1 -> nodeCache f !! k = Some x -> nodeCache f1 !! k = Some x.
Proof. intros (_ & Hc & _) E. eapply lookup_weaken; eauto. Qed.

(** Wrappers allocated before the walk starts do not change what it does. *)
Lemma reconciled_rebase A B ps sk f f1 f2 :
  factoryWf f -> extends f f1 ->
  (forall k x, nodeCache f1 !! k = Some x ->
               nodeCache f !! k = Some x
               \/ ((k ∈ fnids A \/ k ∈ fnids B) /\ (nextId f <= x)%nat)) ->
  reconciled sl slp t lb A B ps sk f1 f2 ->
  reconciled sl slp t lb A B ps sk f f2.
Proof.
  intros Hwf Hx Hnew R. destruct R as [Rwf Rnext Rpin Rcf Rps Rsk Rfr].
  split; auto.
  - destruct Hx as (_ & _ & Hn). lia.
  - intros k HA HB. rewrite (Rcf k HA HB).
    destruct (nodeCache f1 !! k) as [x|] eqn:E1.
    + destruct (Hnew _ _ E1) as [E|[[Hk|Hk] _]]; [now rewrite E | contradiction..].
    + destruct (nodeCache f !! k) as [y|] eqn:E; [|reflexivity].
      rewrite (extends_cache _ _ _ _ Hx E) in E1. discriminate.
  - intros m m' Hin. destruct (Rps _ _ Hin) as (wm & H1 & H2 & H3).
    exists wm. split; [exact H1|]. split; [exact H2|].
    intros w0 E. apply H3. eapply extends_cache; eauto.
  - intros x nd E Hno. apply Rfr; [eapply extends_compilerNodeOf; eauto|].
    intros m Hm E1. destruct (Hnew _ _ E1) as [E0|[_ Hlt]].
    + exact (Hno m Hm E0).
    + pose proof (compilerNodeOf_lt _ _ _ Hwf E). lia.
Qed.

(** One reconciliation after another, on forests with distinct identities. *)
Lemma reconciled_compose A1 B1 ps1 sk1 A2 B2 ps2 sk2 f f1 f2 :
  reconciled sl slp t lb A1 B1 ps1 sk1 f f1 ->
  reconciled sl slp t lb A2 B2 ps2 sk2 f1 f2 ->
  (forall k, k ∈ fnids B1 -> (k ∉ fnids A2) /\ (k ∉ fnids B2)) ->
  (forall k, k ∈ fnids A2 -> (k ∉ fnids A1) /\ (k ∉ fnids B1)) ->
  (forall m m', (m, m') ∈ ps1 -> m' ∈ fsub B1) ->
  (forall c, c ∈ sk1 -> c ∈ fsub B1) ->
  (forall m m', (m, m') ∈ ps2 -> m ∈ fsub A2) ->
  consistent A2 f1 ->
  reconciled sl slp t lb (A1 ++ A2) (B1 ++ B2) (ps1 ++ ps2) (sk1 ++ sk2) f f2.
Proof.
  intros R1 R2 D1 D2 L1 L1s L2 C2.
  destruct R1 as [Rwf1 Rnext1 Rpin1 Rcf1 Rps1 Rsk1 Rfr1].
  destruct R2 as [Rwf2 Rnext2 Rpin2 Rcf2 Rps2 Rsk2 Rfr2].
  assert (Hkeep : forall m' wm, m' ∈ fsub B1 ->
            nodeCache f1 !! nid m' = Some wm -> compilerNodeOf wm f1 = Some m' ->
            nodeCache f2 !! nid m' = Some wm /\ compilerNodeOf wm f2 = Some m').
  { intros m' wm Hm' Ec En.
    destruct (D1 _ (elem_of_fnids _ _ Hm')) as [HA HB]. split.
    - now rewrite (Rcf2 _ HA HB).
    - apply Rfr2; [exact En|]. intros m2 Hm2 E2.
      pose proof (C2 _ _ Hm2 E2) as En2. rewrite En in En2. inversion En2; subst.
      apply HA. now apply elem_of_fnids. }
  split; auto.
  - lia.
  - intros k HA HB. rewrite fnids_app, elem_of_app in HA, HB.
    rewrite Rcf2 by tauto. apply Rcf1; tauto.
  - intros m m' Hin. apply elem_of_app in Hin as [Hin|Hin].
    + destruct (Rps1 _ _ Hin) as (wm & H1 & H2 & H3).
      destruct (Hkeep m' wm (L1 _ _ Hin) H1 H2). exists wm. auto.
    + destruct (Rps2 _ _ Hin) as (wm & H1 & H2 & H3).
      exists wm. split; [exact H1|]. split; [exact H2|].
      intros w0 E. apply H3.
      destruct (D2 _ (elem_of_fnids _ _ (L2 _ _ Hin))) as [HA HB].
      now rewrite (Rcf1 _ HA HB).
  - intros c Hin. apply elem_of_app in Hin as [Hin|Hin].
    + destruct (Rsk1 _ Hin) as (wc & H1 & H2 & H3).
      destruct (Hkeep c wc (L1s _ Hin) H1 H2). exists wc. auto.
    + apply Rsk2. exact Hin.
  - intros x nd E Hno. apply Rfr2.
    + apply Rfr1; [exact E|]. intros m Hm. apply Hno.
      rewrite fsub_app, elem_of_app. auto.
    + intros m Hm E1. destruct (D2 _ (elem_of_fnids _ _ Hm)) as [HA HB].
      rewrite (Rcf1 _ HA HB) in E1. revert E1. apply Hno.
      rewrite fsub_app, elem_of_app. auto.
Qed.

(** Nothing to reconcile. *)
Lemma reconciled_nil f :
  factoryWf f -> pinned sl slp t f -> reconciled sl slp t lb [] [] [] [] f f.
Proof.
  intros Hwf Hp. split; auto.
  - intros m m' Hin. inversion Hin.
  - intros c Hin. inversion Hin.
Qed.

(** The wrapper is moved to the candidate once its children are done. *)
Lemma reconciled_close o n w ps sk f f2 :
  factoryWf f ->
  nodeCache f !! nid o = Some w ->
  consistent [o] f ->
  NoDup (nids o ++ nids n) ->
  kind o = kind n ->
  acceptable sl slp t w n ->
  (forall m m', (m, m') ∈ ps -> m' ∈ fsub (children n)) ->
  (forall c, c ∈ sk -> c ∈ fsub (children n)) ->
  reconciled sl slp t lb (children o) (children n) ps sk f f2 ->
  exists f3, replaceCompilerNode w n f2 = (Ok tt, f3)
    /\ reconciled sl slp t lb [o] [n] ((o, n) :: ps) sk f f3.
Proof.
  intros Hwf Hw Hcons Hnd Hk Hacc Lp Ls R.
  destruct R as [Rwf Rnext Rpin Rcf Rps Rsk Rfr].
  assert (Hwo : compilerNodeOf w f = Some o).
  { apply Hcons; [rewrite fsub_single; apply subnodes_self | exact Hw]. }
  rewrite !nids_eq in Hnd.
  apply NoDup_app in Hnd as (Hndo & Hdisj & Hndn).
  apply NoDup_cons in Hndo as [Hoc _]. apply NoDup_cons in Hndn as [Hnc _].
  assert (Hon : nid o <> nid n).
  { intros E. apply (Hdisj (nid o)); [left | rewrite E; left]. }
  assert (Hcn_o : forall k, k ∈ fnids (children n) -> k ∉ nids o).
  { intros k Hk'. rewrite nids_eq. apply not_elem_of_cons. split.
    - intros ->. apply (Hdisj (nid o)); [left | now right].
    - intros Hk''. apply (Hdisj k); now right. }
  assert (Hn_o : nid n ∉ nids o).
  { rewrite nids_eq. intros H. apply (Hdisj (nid n)); [exact H | left]. }
  assert (Hwo2 : compilerNodeOf w f2 = Some o).
  { apply Rfr; [exact Hwo|]. intros m Hm E.
    assert (Em : compilerNodeOf w f = Some m).
    { apply Hcons; [|exact E]. rewrite fsub_single, subnodes_eq. now right. }
    rewrite Hwo in Em. inversion Em; subst. apply Hoc. now apply elem_of_fnids. }
  destruct (replaceCompilerNode_ok _ _ _ _ Hwo2 Hk) as (b & Ewb & Erep).
  eexists. split; [exact Erep|].
  assert (Hcache : forall k, k ∉ nids o -> k <> nid n ->
            dropKeys (nids o) (<[nid n := w]> (nodeCache f2)) !! k
            = nodeCache f2 !! k).
  { intros k H1 H2. rewrite lookup_dropKeys_notin by exact H1.
    now rewrite lookup_insert_ne by congruence. }
  assert (Hkeep : forall m' wm, m' ∈ fsub (children n) ->
            nodeCache f2 !! nid m' = Some wm -> compilerNodeOf wm f2 = Some m' ->
            dropKeys (nids o) (<[nid n := w]> (nodeCache f2)) !! nid m' = Some wm
            /\ compilerNodeOf wm
                 (mkFactory (dropKeys (nids o) (<[nid n := w]> (nodeCache f2)))
                    (<[w := mkWrapper n b]> (wrappers f2)) (nextId f2)) = Some m').
  { intros m' wm Hm' Ec En.
    pose proof (elem_of_fnids _ _ Hm') as Hid.
    pose proof (Hcn_o _ Hid) as Hnot. split.
    - rewrite Hcache; [exact Ec | exact Hnot | ].
      intros E. apply Hnc. now rewrite <- E.
    - unfold compilerNodeOf. simpl. rewrite lookup_insert_ne; [exact En|].
      intros <-. rewrite Hwo2 in En. inversion En; subst.
      apply Hnot. rewrite nids_eq. left. }
  split.
  - eapply (preserves_replaceCompilerNode w n); [exact Rwf | exact Erep].
  - simpl. exact Rnext.
  - apply pinned_replace; assumption.
  - intros k HA HB. rewrite fnids_single in HA, HB. simpl.
    rewrite Hcache; [|exact HA|].
    + apply Rcf.
      * intros H. apply HA. rewrite nids_eq. now right.
      * intros H. apply HB. rewrite nids_eq. now right.
    + intros ->. apply HB. rewrite nids_eq. left.
  - intros m m' Hin. apply elem_of_cons in Hin as [E|Hin].
    + inversion E; subst. exists w. simpl. split; [|split].
      * rewrite lookup_dropKeys_notin by exact Hn_o. apply lookup_insert_eq.
      * unfold compilerNodeOf. simpl. now rewrite lookup_insert_eq.
      * intros w0 E0. congruence.
    + destruct (Rps _ _ Hin) as (wm & H1 & H2 & H3).
      destruct (Hkeep m' wm (Lp _ _ Hin) H1 H2). exists wm. simpl. auto.
  - intros c Hin. destruct (Rsk _ Hin) as (wc & H1 & H2 & H3).
    destruct (Hkeep c wc (Ls _ Hin) H1 H2). exists wc. simpl. auto.
  - intros x nd E Hno.
    assert (Hxw : x <> w).
    { intros ->. apply (Hno o); [rewrite fsub_single; apply subnodes_self | exact Hw]. }
    unfold compilerNodeOf. simpl. rewrite lookup_insert_ne by congruence.
    apply Rfr; [exact E|]. intros m Hm. apply Hno.
    rewrite fsub_single, subnodes_eq. now right.
Qed.

(** ** Keeping the walk ready *)

Lemma ready_alloc A B ps f c w f1 :
  ready sl slp t lb A B ps f ->
  c ∈ fsub A \/ c ∈ fsub B ->
  getNodeFromCompilerNode c f = (Ok w, f1) ->
  ready sl slp t lb A B ps f1
  /\ extends f f1
  /\ nodeCache f1 !! nid c = Some w
  /\ (c ∈ fsub A -> compilerNodeOf w f1 = Some c)
  /\ (nodeCache f !! nid c = None -> compilerNodeOf w f1 = Some c /\ (nextId f <= w)%nat)
  /\ (forall k x, nodeCache f1 !! k = Some x ->
                  nodeCache f !! k = Some x \/ (k = nid c /\ (nextId f <= x)%nat)).
Proof.
  intros [Hwf Hpin Hlb Hcons Hnd Hacc] Hc E.
  destruct (getNodeFromCompilerNode_spec c f Hwf)
    as (w' & f1' & E' & Hwf1 & Hx & Hreg & Hhit & Hmiss).
  rewrite E in E'. inversion E'; subst w' f1'. clear E'.
  destruct (nodeCache f !! nid c) as [w0|] eqn:Ec.
  - destruct (Hhit w0 eq_refl) as [-> ->].
    split; [split; assumption|]. split; [exact Hx|]. split; [exact Ec|].
    split; [|split].
    + intros HA. now apply Hcons.
    + discriminate.
    + intros k x Ek. now left.
  - destruct (Hmiss eq_refl) as [-> ->]. clear Hhit Hmiss.
    assert (Hnode : compilerNodeOf (nextId f)
                      (mkFactory (<[nid c := nextId f]> (nodeCache f))
                         (<[nextId f := mkWrapper c false]> (wrappers f))
                         (S (nextId f))) = Some c).
    { unfold compilerNodeOf. simpl. now rewrite lookup_insert_eq. }
    split; [split|].
    + exact Hwf1.
    + eapply pinned_extends; eauto.
    + simpl. lia.
    + intros m wm Hm Em. simpl in Em.
      destruct (decide (nid m = nid c)) as [Eid|Hne].
      * rewrite Eid, lookup_insert_eq in Em. inversion Em; subst wm.
        assert (m = c); [|subst; exact Hnode].
        destruct Hc as [HA|HB].
        -- apply NoDup_app in Hnd as (HndA & _ & _).
           apply (NoDup_nid_inj (fsub A)); auto.
        -- exfalso. apply NoDup_app in Hnd as (_ & Hdisj & _).
           apply (Hdisj (nid m)); [now apply elem_of_fnids|].
           rewrite Eid. now apply elem_of_fnids.
      * rewrite lookup_insert_ne in Em by congruence.
        eapply extends_compilerNodeOf; [exact Hx | now apply Hcons].
    + exact Hnd.
    + intros m m' wm Hin Em. simpl in Em.
      destruct (decide (nid m = nid c)) as [Eid|Hne].
      * rewrite Eid, lookup_insert_eq in Em. inversion Em; subst wm.
        apply (acceptable_fresh sl slp t f); [exact Hwf | exact Hpin | lia].
      * rewrite lookup_insert_ne in Em by congruence. eauto.
    + split; [exact Hx|]. split; [exact Hreg|]. split; [auto|]. split; [auto|].
      intros k x Ek. simpl in Ek. destruct (decide (k = nid c)) as [->|Hne].
      * rewrite lookup_insert_eq in Ek. inversion Ek; subst. right. auto.
      * rewrite lookup_insert_ne in Ek by congruence. now left.
Qed.

Lemma ready_head o os n ns ps1 ps2 f :
  ready sl slp t lb (o :: os) (n :: ns) (ps1 ++ ps2) f ->
  ready sl slp t lb [o] [n] ps1 f.
Proof.
  intros [Hwf Hpin Hlb Hcons Hnd Hacc]. split; auto.
  - intros m wm Hm. apply Hcons. rewrite fsub_single in Hm.
    rewrite fsub_cons, elem_of_app. auto.
  - rewrite !fnids_cons in Hnd. rewrite !fnids_single.
    now apply NoDup_four in Hnd as (H & _).
  - intros m m' wm Hin. apply Hacc. rewrite elem_of_app. auto.
Qed.

Lemma ready_tail o os n ns ps1 sk1 ps2 f f3 :
  ready sl slp t lb (o :: os) (n :: ns) (ps1 ++ ps2) f ->
  reconciled sl slp t lb [o] [n] ps1 sk1 f f3 ->
  (forall m m', (m, m') ∈ ps2 -> m ∈ fsub os) ->
  ready sl slp t lb os ns ps2 f3.
Proof.
  intros [Hwf Hpin Hlb Hcons Hnd Hacc] [Rwf Rnext Rpin Rcf Rps Rsk Rfr] L2.
  rewrite !fnids_cons in Hnd.
  destruct (NoDup_four _ _ _ _ Hnd) as (_ & Hnd2 & _ & _ & Hos & _).
  assert (Hback : forall m, m ∈ fsub os -> nodeCache f3 !! nid m = nodeCache f !! nid m).
  { intros m Hm. destruct (Hos _ (elem_of_fnids _ _ Hm)).
    apply Rcf; now rewrite fnids_single. }
  split; auto.
  - lia.
  - intros m wm Hm Em. rewrite (Hback _ Hm) in Em.
    assert (En : compilerNodeOf wm f = Some m).
    { apply Hcons; [|exact Em]. rewrite fsub_cons, elem_of_app. auto. }
    apply Rfr; [exact En|]. intros m1 Hm1 E1.
    assert (En1 : compilerNodeOf wm f = Some m1).
    { apply Hcons; [|exact E1]. rewrite fsub_single in Hm1.
      rewrite fsub_cons, elem_of_app. auto. }
    rewrite En in En1. inversion En1; subst m1.
    destruct (Hos _ (elem_of_fnids _ _ Hm)) as [H _]. apply H.
    rewrite <- fnids_single. now apply elem_of_fnids.
  - intros m m' wm Hin Em. rewrite (Hback _ (L2 _ _ Hin)) in Em.
    eapply Hacc; [|exact Em]. rewrite elem_of_app. auto.
Qed.

Lemma ready_skip os n ns ps f :
  ready sl slp t lb os (n :: ns) ps f -> ready sl slp t lb os ns ps f.
Proof.
  intros [Hwf Hpin Hlb Hcons Hnd Hacc]. split; auto.
  rewrite fnids_cons in Hnd.
  apply NoDup_app in Hnd as (HA & Hdisj & HB). apply NoDup_app.
  apply NoDup_app in HB as (_ & _ & HB). split; [exact HA|]. split; [|exact HB].
  intros k Hk Hk'. apply (Hdisj k Hk). rewrite elem_of_app. auto.
Qed.

(** The candidate children of a list are wrapped, each by a new wrapper. *)
Lemma wrap_candidates ns : forall f,
  factoryWf f -> NoDup (map nid ns) ->
  (forall c, c ∈ ns -> nodeCache f !! nid c = None) ->
  exists ws f1,
    getNodesFromCompilerNodes ns f = (Ok ws, f1)
    /\ factoryWf f1 /\ extends f f1
    /\ (forall c, c ∈ ns ->
          exists tw, nodeCache f1 !! nid c = Some tw
                     /\ compilerNodeOf tw f1 = Some c /\ (nextId f <= tw)%nat)
    /\ (forall k x, nodeCache f1 !! k = Some x ->
          nodeCache f !! k = Some x \/ (k ∈ map nid ns /\ (nextId f <= x)%nat)).
Proof.
  induction ns as [|c ns IH]; intros f Hwf Hnd Hfresh; simpl.
  - exists [], f. split; [reflexivity|]. split; [exact Hwf|].
    split; [apply extends_refl|]. split.
    + intros c Hc. inversion Hc.
    + intros k x E. now left.
  - apply NoDup_cons in Hnd as [Hc Hnd].
    destruct (getNodeFromCompilerNode_spec c f Hwf)
      as (w & f1 & E1 & Hwf1 & Hx1 & Hreg & _ & Hmiss).
    destruct (Hmiss (Hfresh c (list_elem_of_here _ _))) as [-> Ef1].
    assert (Hfresh1 : forall c', c' ∈ ns -> nodeCache f1 !! nid c' = None).
    { intros c' Hc'. rewrite Ef1. simpl. rewrite lookup_insert_ne.
      - apply Hfresh. now right.
      - intros E. apply Hc. rewrite E. apply list_elem_of_fmap. eauto. }
    destruct (IH f1 Hwf1 Hnd Hfresh1) as (ws & f2 & E2 & Hwf2 & Hx2 & Htemps & Hnew).
    exists (nextId f :: ws), f2. split.
    { rewrite (bind_ok _ _ _ _ _ E1), (bind_ok _ _ _ _ _ E2). reflexivity. }
    split; [exact Hwf2|]. split; [eapply extends_trans; eauto|].
    assert (Hn1 : nextId f1 = S (nextId f)) by (rewrite Ef1; reflexivity).
    split.
    + intros c' Hc'. apply elem_of_cons in Hc' as [->|Hc'].
      * exists (nextId f). split; [eapply extends_cache; eauto|]. split; [|lia].
        eapply extends_compilerNodeOf; [exact Hx2|].
        rewrite Ef1. unfold compilerNodeOf. simpl. now rewrite lookup_insert_eq.
      * destruct (Htemps _ Hc') as (tw & H1 & H2 & H3). exists tw.
        split; [exact H1|]. split; [exact H2|]. lia.
    + intros k x Ek. destruct (Hnew _ _ Ek) as [E|[Hk Hlt]].
      * rewrite Ef1 in E. simpl in E. destruct (decide (k = nid c)) as [->|Hne].
        -- rewrite lookup_insert_eq in E. inversion E; subst. right.
           split; [left | lia].
        -- rewrite lookup_insert_ne in E by congruence. now left.
      * right. split; [now right | lia].
Qed.

Lemma elem_of_fnids_child c l : c ∈ l -> nid c ∈ fnids l.
Proof.
  intros Hc. apply elem_of_fnids. eapply elem_of_fsub_child; eauto.
  apply subnodes_self.
Qed.

Lemma fnids_children_below c l k : c ∈ l -> k ∈ fnids (children c) -> k ∈ fnids l.
Proof.
  intros Hc Hk. unfold fnids in *. apply list_elem_of_fmap in Hk as (m & -> & Hm).
  apply list_elem_of_fmap. exists m. split; [reflexivity|].
  eapply elem_of_fsub_child; [exact Hc|]. rewrite subnodes_eq. now right.
Qed.

Lemma NoDup_fnids_heads l : NoDup (fnids l) -> NoDup (map nid l).
Proof.
  induction l as [|a l IH]; intros Hnd; simpl; [constructor|].
  rewrite fnids_cons, nids_eq in Hnd. simpl in Hnd.
  apply NoDup_cons in Hnd as [Ha Hnd]. apply NoDup_app in Hnd as (_ & _ & Hl).
  constructor; [|now apply IH].
  intros H. apply Ha. rewrite elem_of_app. right.
  apply list_elem_of_fmap in H as (c & E & Hc). rewrite E.
  now apply elem_of_fnids_child.
Qed.

Lemma head_not_below l : NoDup (fnids l) ->
  forall c c2, c ∈ l -> c2 ∈ l -> nid c2 ∉ fnids (children c).
Proof.
  induction l as [|a l IH]; intros Hnd c c2 Hc Hc2; [inversion Hc|].
  rewrite fnids_cons, nids_eq in Hnd. simpl in Hnd.
  apply NoDup_cons in Hnd as [Ha Hnd].
  apply NoDup_app in Hnd as (_ & Hdisj & Hl).
  apply elem_of_cons in Hc as [->|Hc]; apply elem_of_cons in Hc2 as [->|Hc2].
  - intros H. apply Ha. rewrite elem_of_app. auto.
  - intros H. apply (Hdisj _ H). now apply elem_of_fnids_child.
  - intros H. apply Ha. rewrite elem_of_app. right.
    eapply fnids_children_below; eauto.
  - now apply IH.
Qed.

Lemma ready_children o n ps f :
  ready sl slp t lb [o] [n] ((o, n) :: ps) f ->
  ready sl slp t lb (children o) (children n) ps f.
Proof.
  intros [Hwf Hpin Hlb Hcons Hnd Hacc]. split; auto.
  - intros m wm Hm. apply Hcons. rewrite fsub_single, subnodes_eq. now right.
  - rewrite !fnids_single, !nids_eq in Hnd.
    change (NoDup (([nid o] ++ fnids (children o)) ++ ([nid n] ++ fnids (children n))))
      in Hnd.
    now apply NoDup_four in Hnd as (_ & H & _).
  - intros m m' wm Hin. apply Hacc. now right.
Qed.

Lemma ready_extend A B ps f f1 :
  ready sl slp t lb A B ps f ->
  factoryWf f1 -> extends f f1 ->
  (forall k x, nodeCache f1 !! k = Some x ->
               nodeCache f !! k = Some x \/ (k ∈ fnids B /\ (nextId f <= x)%nat)) ->
  ready sl slp t lb A B ps f1.
Proof.
  intros [Hwf Hpin Hlb Hcons Hnd Hacc] Hwf1 Hx Hnew. split; auto.
  - eapply pinned_extends; eauto.
  - destruct Hx as (_ & _ & Hn). lia.
  - intros m wm Hm Em. destruct (Hnew _ _ Em) as [E|[Hk _]].
    + eapply extends_compilerNodeOf; [exact Hx | now apply Hcons].
    + exfalso. apply NoDup_app in Hnd as (_ & Hdisj & _).
      apply (Hdisj (nid m)); [now apply elem_of_fnids | exact Hk].
  - intros m m' wm Hin Em. destruct (Hnew _ _ Em) as [E|[_ Hlt]].
    + eauto.
    + apply (acceptable_fresh sl slp t f); assumption.
Qed.

(** ** The walk over aligned trees *)

Variables ci ic : Z.

(** One iteration of [handleNode] on a child, then the rest of the loop. *)
Lemma child_step (h : option nat -> tsNode -> M unit)
    p o os n ns ps1 sk1 ps2 sk2 f :
  (forall w f,
      ready sl slp t lb [o] [n] ps1 f ->
      nodeCache f !! nid o = Some w ->
      (forall k, k ∈ fnids (children n) -> nodeCache f !! k = None) ->
      exists f', h (Some w) n f = (Ok tt, f')
                 /\ reconciled sl slp t lb [o] [n] ps1 sk1 f f') ->
  (forall f,
      ready sl slp t lb os ns ps2 f ->
      (forall k, k ∈ fnids ns -> nodeCache f !! k = None) ->
      exists f', handleNodeLoop sl slp (handleNode sl slp ci ic)
                   (handleSyntaxList sl slp ci ic) p os ns f = (Ok [], f')
                 /\ reconciled sl slp t lb os ns ps2 sk2 f f') ->
  (forall m m', (m, m') ∈ ps1 -> m' ∈ subnodes n) ->
  (forall c, c ∈ sk1 -> c ∈ subnodes n) ->
  (forall m m', (m, m') ∈ ps2 -> m ∈ fsub os) ->
  (if isTarget t n p then handleSyntaxList sl slp ci ic else handleNode sl slp ci ic) = h ->
  ready sl slp t lb (o :: os) (n :: ns) (ps1 ++ ps2) f ->
  (forall k, k ∈ fnids (n :: ns) -> nodeCache f !! k = None) ->
  exists f', handleNodeLoop sl slp (handleNode sl slp ci ic)
               (handleSyntaxList sl slp ci ic) p (o :: os) (n :: ns) f = (Ok [], f')
             /\ reconciled sl slp t lb (o :: os) (n :: ns) (ps1 ++ ps2) (sk1 ++ sk2) f f'.
Proof.
  intros IHchild IHrest Lp1 Ls1 Lp2 Hsel Hrdy Hfresh.
  pose proof Hrdy as [Hwf Hpin Hlb Hcons Hnd Hacc].
  rewrite !fnids_cons in Hnd.
  destruct (NoDup_four _ _ _ _ Hnd) as (Hnd1 & Hnd2 & Do & Dn & Dos & Dns).
  destruct (getNodeFromCompilerNode_spec n f Hwf) as (tmp & f1 & E1 & _).
  destruct (ready_alloc _ _ _ _ n tmp f1 Hrdy) as (Hrdy1 & Hx1 & _ & _ & _ & Hnew1);
    [right; rewrite fsub_cons, elem_of_app; left; apply subnodes_self | exact E1 |].
  destruct (getNodeFromCompilerNode_spec o f1 (rdy_wf _ _ _ _ _ _ _ _ Hrdy1))
    as (w & f2 & E2 & _).
  destruct (ready_alloc _ _ _ _ o w f2 Hrdy1) as (Hrdy2 & Hx2 & Hreg2 & _ & _ & Hnew2);
    [left; rewrite fsub_cons, elem_of_app; left; apply subnodes_self | exact E2 |].
  assert (Hnew : forall k x, nodeCache f2 !! k = Some x ->
            nodeCache f !! k = Some x
            \/ ((k = nid o \/ k = nid n) /\ (nextId f <= x)%nat)).
  { intros k x Ek.
    destruct (Hnew2 _ _ Ek) as [Ek1|[-> Hlt]].
    - destruct (Hnew1 _ _ Ek1) as [Ek0|[-> Hlt]]; [now left | right; auto].
    - right. split; [now left|]. destruct Hx1 as (_ & _ & Hn). lia. }
  assert (Ho : nid o ∈ nids o) by (rewrite nids_eq; left).
  assert (Hn : nid n ∈ nids n) by (rewrite nids_eq; left).
  destruct (IHchild w f2 (ready_head _ _ _ _ _ _ _ Hrdy2) Hreg2) as (f3 & E3 & R3).
  { intros k Hk. destruct (nodeCache f2 !! k) as [x|] eqn:Ek; [|reflexivity].
    exfalso. destruct (Hnew _ _ Ek) as [Ek0|[[->| ->] _]].
    - rewrite Hfresh in Ek0; [discriminate|].
      rewrite fnids_cons, elem_of_app, nids_eq. left. now right.
    - apply NoDup_app in Hnd1 as (_ & Hd & _).
      apply (Hd _ Ho). rewrite nids_eq. now right.
    - apply NoDup_app in Hnd1 as (_ & _ & Hd). rewrite nids_eq in Hd.
      apply NoDup_cons in Hd as [Hd _]. exact (Hd Hk). }
  assert (R3' : reconciled sl slp t lb [o] [n] ps1 sk1 f f3).
  { eapply reconciled_rebase; [exact Hwf | eapply extends_trans; eauto | | exact R3].
    intros k x Ek. rewrite !fnids_single.
    destruct (Hnew _ _ Ek) as [Ek0|[[->| ->] Hlt]]; auto. }
  pose proof (ready_tail _ _ _ _ _ _ _ _ _ Hrdy R3' Lp2) as Hrdy3.
  destruct (IHrest f3 Hrdy3) as (f' & E' & R').
  { intros k Hk. destruct (Dns _ Hk) as [H1 H2].
    rewrite (rec_cache_frame _ _ _ _ _ _ _ _ _ _ R3'); rewrite ?fnids_single; auto.
    apply Hfresh. rewrite fnids_cons, elem_of_app. auto. }
  exists f'. split.
  - simpl. apply bind_ok_eq with (a := os) (f1 := f3); [|exact E'].
    rewrite (handleNodeStep_eq _ _ _ _ _ _ _ _ _ _ _ _ _ E1 E2).
    rewrite (isInsertTarget_pinned _ _ _ _ _ _ (rdy_pinned _ _ _ _ _ _ _ _ Hrdy1)).
    rewrite <- Hsel in E3. destruct (isTarget t n p); now rewrite (bind_ok _ _ _ _ _ E3).
  - change (o :: os) with ([o] ++ os). change (n :: ns) with ([n] ++ ns).
    eapply reconciled_compose; [exact R3' | exact R' | | | | | exact Lp2 | apply Hrdy3].
    + intros k Hk. rewrite fnids_single in Hk. apply (Dn _ Hk).
    + intros k Hk. rewrite !fnids_single. apply (Dos _ Hk).
    + intros m m' Hin. rewrite fsub_single. eauto.
    + intros c Hin. rewrite fsub_single. eauto.
Qed.

Lemma walk_reconciles :
  (forall o n ps sk, pairsNode t ci ic o n ps sk ->
     forall w f,
       ready sl slp t lb [o] [n] ps f ->
       nodeCache f !! nid o = Some w ->
       (forall k, k ∈ fnids (children n) -> nodeCache f !! k = None) ->
       exists f', handleNode sl slp ci ic (Some w) n f = (Ok tt, f')
                  /\ reconciled sl slp t lb [o] [n] ps sk f f')
  /\ (forall p os ns ps sk, pairsChildren t ci ic p os ns ps sk ->
     forall f,
       ready sl slp t lb os ns ps f ->
       (forall k, k ∈ fnids ns -> nodeCache f !! k = None) ->
       exists f', handleNodeLoop sl slp (handleNode sl slp ci ic)
                    (handleSyntaxList sl slp ci ic) p os ns f = (Ok [], f')
                  /\ reconciled sl slp t lb os ns ps sk f f')
  /\ (forall o n ps sk, pairsList t ci ic o n ps sk ->
     forall w f,
       ready sl slp t lb [o] [n] ps f ->
       nodeCache f !! nid o = Some w ->
       (forall k, k ∈ fnids (children n) -> nodeCache f !! k = None) ->
       exists f', handleSyntaxList sl slp ci ic (Some w) n f = (Ok tt, f')
                  /\ reconciled sl slp t lb [o] [n] ps sk f f')
  /\ (forall i os ns ps sk, pairsListChildren t ci ic i os ns ps sk ->
     forall f,
       ready sl slp t lb os ns ps f ->
       (forall c, c ∈ ns ->
          exists tw, nodeCache f !! nid c = Some tw
                     /\ compilerNodeOf tw f = Some c /\ (lb <= tw)%nat) ->
       (forall c k, c ∈ ns -> k ∈ fnids (children c) -> nodeCache f !! k = None) ->
       exists f', handleSyntaxListLoop ci ic (handleNode sl slp ci ic) i os ns f
                  = (Ok (i + Z.of_nat (length ns), []), f')
                  /\ reconciled sl slp t lb os ns ps sk f f').
Proof.
  destruct (pairs_located t ci ic) as (LocN & LocC & LocL & LocLC).
  apply pairs_mutind.
  - (* a node and its candidate *)
    intros o n ps sk Hk Hch IH w f Hrdy Hw Hfresh.
    destruct (LocC _ _ _ _ _ Hch) as [Lp Ls].
    pose proof Hrdy as [Hwf Hpin Hlb Hcons Hnd Hacc].
    assert (Hwo : compilerNodeOf w f = Some o).
    { apply Hcons; [rewrite fsub_single; apply subnodes_self | exact Hw]. }
    destruct (IH f (ready_children _ _ _ _ Hrdy) Hfresh) as (f2 & Eloop & R).
    assert (Hnd' : NoDup (nids o ++ nids n)) by now rewrite !fnids_single in Hnd.
    assert (Hacc' : acceptable sl slp t w n) by (eapply Hacc; [left | exact Hw]).
    destruct (reconciled_close o n w ps sk f f2 Hwf Hw Hcons Hnd' Hk Hacc'
                (fun m m' H => proj2 (Lp m m' H)) Ls R)
      as (f3 & Erep & R3).
    exists f3. split; [|exact R3].
    rewrite handleNode_eq.
    rewrite (bind_ok _ _ _ _ _ (getCompilerNode_some _ _ _ Hwo)).
    rewrite Hk, Z.eqb_refl. cbn [negb].
    rewrite (bind_ok _ _ _ _ _ (getChildrenIterator_some _ _ _ Hwo)).
    rewrite (bind_ok _ _ _ _ _ Eloop). exact Erep.
  - (* no children *)
    intros p f Hrdy _. exists f. split; [reflexivity|].
    apply reconciled_nil; apply Hrdy.
  - (* a child handled by handleNode *)
    intros p o os n ns ps1 sk1 ps2 sk2 Htgt Hnode IHnode Hrest IHrest f Hrdy Hfresh.
    destruct (LocN _ _ _ _ Hnode) as [Lp1 Ls1].
    destruct (LocC _ _ _ _ _ Hrest) as [Lp2 Ls2].
    eapply (child_step (handleNode sl slp ci ic)); eauto.
    + intros m m' H. apply (Lp1 _ _ H).
    + intros m m' H. apply (Lp2 _ _ H).
    + now rewrite Htgt.
  - (* a child handled by handleSyntaxList *)
    intros p o os n ns ps1 sk1 ps2 sk2 Htgt Hlist IHlist Hrest IHrest f Hrdy Hfresh.
    destruct (LocL _ _ _ _ Hlist) as [Lp1 Ls1].
    destruct (LocC _ _ _ _ _ Hrest) as [Lp2 Ls2].
    eapply (child_step (handleSyntaxList sl slp ci ic)); eauto.
    + intros m m' H. apply (Lp1 _ _ H).
    + intros m m' H. apply (Lp2 _ _ H).
    + now rewrite Htgt.
  - (* the list and its candidate *)
    intros o n ps sk Hk Hch IH w f Hrdy Hw Hfresh.
    destruct (LocLC _ _ _ _ _ Hch) as [Lp Ls].
    pose proof Hrdy as [Hwf Hpin Hlb Hcons Hnd Hacc].
    assert (Hwo : compilerNodeOf w f = Some o).
    { apply Hcons; [rewrite fsub_single; apply subnodes_self | exact Hw]. }
    pose proof (ready_children _ _ _ _ Hrdy) as Hrdyc.
    pose proof (rdy_distinct _ _ _ _ _ _ _ _ Hrdyc) as Hndc.
    apply NoDup_app in Hndc as (_ & _ & Hndcn).
    destruct (wrap_candidates (children n) f Hwf (NoDup_fnids_heads _ Hndcn))
      as (ws & f1 & E1 & Hwf1 & Hx1 & Htemps & Hnew1).
    { intros c Hc. apply Hfresh. now apply elem_of_fnids_child. }
    assert (Hnew1' : forall k x, nodeCache f1 !! k = Some x ->
              nodeCache f !! k = Some x
              \/ (k ∈ fnids (children n) /\ (nextId f <= x)%nat)).
    { intros k x Ek. destruct (Hnew1 _ _ Ek) as [|[Hk' Hlt]]; [now left|].
      right. split; [|exact Hlt].
      apply list_elem_of_fmap in Hk' as (c & -> & Hc). now apply elem_of_fnids_child. }
    pose proof (ready_extend _ _ _ _ _ Hrdyc Hwf1 Hx1 Hnew1') as Hrdy1.
    destruct (IH f1 Hrdy1) as (f2 & Eloop & R).
    { intros c Hc. destruct (Htemps c Hc) as (tw & H1 & H2 & H3).
      exists tw. split; [exact H1|]. split; [exact H2|]. lia. }
    { intros c k Hc Hk'. destruct (nodeCache f1 !! k) as [x|] eqn:Ek; [|reflexivity].
      exfalso. destruct (Hnew1 _ _ Ek) as [E0|[Hk2 _]].
      - rewrite Hfresh in E0; [discriminate|]. eapply fnids_children_below; eauto.
      - apply list_elem_of_fmap in Hk2 as (c2 & -> & Hc2).
        exact (head_not_below _ Hndcn c c2 Hc Hc2 Hk'). }
    assert (R' : reconciled sl slp t lb (children o) (children n) ps sk f f2).
    { eapply reconciled_rebase; [exact Hwf | exact Hx1 | | exact R].
      intros k x Ek. destruct (Hnew1' _ _ Ek) as [|[? ?]]; auto. }
    assert (Hnd' : NoDup (nids o ++ nids n)) by now rewrite !fnids_single in Hnd.
    assert (Hacc' : acceptable sl slp t w n) by (eapply Hacc; [left | exact Hw]).
    destruct (reconciled_close o n w ps sk f f2 Hwf Hw Hcons Hnd' Hk Hacc'
                (fun m m' H => proj2 (Lp m m' H)) Ls R')
      as (f3 & Erep & R3).
    exists f3. split; [|exact R3].
    unfold handleSyntaxList.
    rewrite (bind_ok _ _ _ _ _ (getChildrenIterator_some _ _ _ Hwo)).
    rewrite (bind_ok _ _ _ _ _ E1), (bind_ok _ _ _ _ _ Eloop). exact Erep.
  - (* no children in the list *)
    intros i f Hrdy _ _. exists f. split.
    + simpl. unfold ret. now rewrite Z.add_0_r.
    + apply reconciled_nil; apply Hrdy.
  - (* a candidate child of the inserted range *)
    intros i os n ns ps sk Hin Hrest IH f Hrdy Htemps Hfresh.
    pose proof Hrdy as [Hwf Hpin Hlb Hcons Hnd Hacc].
    destruct (IH f (ready_skip _ _ _ _ _ Hrdy)) as (f' & E' & R').
    { intros c Hc. apply Htemps. now right. }
    { intros c k Hc. apply Hfresh. now right. }
    exists f'. split.
    + simpl. apply bind_ok_eq with (a := (i + 1, os)) (f1 := f).
      * unfold handleSyntaxListStep. fold (inRange ci ic i). now rewrite Hin.
      * simpl. rewrite E'. do 3 f_equal. lia.
    + destruct R' as [Rwf Rnext Rpin Rcf Rps Rsk Rfr].
      assert (HB : forall k, k ∉ fnids (n :: ns) -> k ∉ fnids ns).
      { intros k H H'. apply H. rewrite fnids_cons, elem_of_app. auto. }
      split; auto.
      intros c Hc. apply elem_of_cons in Hc as [->|Hc]; [|auto].
      destruct (Htemps n (list_elem_of_here _ _)) as (tw & Ec & En & Hl).
      rewrite fnids_cons in Hnd.
      apply NoDup_app in Hnd as (_ & Hdisj & Hndn).
      apply NoDup_app in Hndn as (_ & Hdisjn & _).
      assert (Hn : nid n ∈ nids n) by (rewrite nids_eq; left).
      exists tw. split; [|split; [|exact Hl]].
      * rewrite Rcf; [exact Ec | | now apply Hdisjn].
        intros H. apply (Hdisj _ H). rewrite elem_of_app. auto.
      * apply Rfr; [exact En|]. intros m Hm E.
        pose proof (Hcons _ _ Hm E) as En'. rewrite En in En'. inversion En'; subst m.
        apply (Hdisj (nid n)); [now apply elem_of_fnids | rewrite elem_of_app; auto].
  - (* a candidate child outside the inserted range *)
    intros i o os n ns ps1 sk1 ps2 sk2 Hin Hnode IHnode Hrest IHrest f Hrdy Htemps Hfresh.
    destruct (LocN _ _ _ _ Hnode) as [Lp1 Ls1].
    destruct (LocLC _ _ _ _ _ Hrest) as [Lp2 Ls2].
    pose proof Hrdy as [Hwf Hpin Hlb Hcons Hnd Hacc].
    rewrite !fnids_cons in Hnd.
    destruct (NoDup_four _ _ _ _ Hnd) as (Hnd1 & Hnd2 & Do & Dn & Dos & Dns).
    destruct (getNodeFromCompilerNode_spec o f Hwf) as (w & f1 & E1 & _).
    destruct (ready_alloc _ _ _ _ o w f1 Hrdy) as (Hrdy1 & Hx1 & Hreg1 & _ & _ & Hnew1);
      [left; rewrite fsub_cons, elem_of_app; left; apply subnodes_self | exact E1 |].
    assert (Ho : nid o ∈ nids o) by (rewrite nids_eq; left).
    destruct (IHnode w f1 (ready_head _ _ _ _ _ _ _ Hrdy1) Hreg1) as (f2 & E2 & R2).
    { intros k Hk. destruct (nodeCache f1 !! k) as [x|] eqn:Ek; [|reflexivity].
      exfalso. destruct (Hnew1 _ _ Ek) as [E0|[-> _]].
      - rewrite (Hfresh n k) in E0; [discriminate | left | exact Hk].
      - apply NoDup_app in Hnd1 as (_ & Hd & _).
        apply (Hd _ Ho). rewrite nids_eq. now right. }
    assert (R2' : reconciled sl slp t lb [o] [n] ps1 sk1 f f2).
    { eapply reconciled_rebase; [exact Hwf | exact Hx1 | | exact R2].
      intros k x Ek. rewrite !fnids_single.
      destruct (Hnew1 _ _ Ek) as [E0|[-> Hlt]]; auto. }
    pose proof (ready_tail _ _ _ _ _ _ _ _ _ Hrdy R2'
                  (fun m m' H => proj1 (Lp2 m m' H))) as Hrdy2.
    destruct (IHrest f2 Hrdy2) as (f' & E' & R').
    { intros c Hc. destruct (Htemps c) as (tw & Ec & En & Hl); [now right|].
      pose proof (elem_of_fnids_child _ _ Hc) as Hid.
      destruct (Dns _ Hid) as [H1 H2].
      exists tw. split; [|split; [|exact Hl]].
      - rewrite (rec_cache_frame _ _ _ _ _ _ _ _ _ _ R2'); rewrite ?fnids_single; auto.
      - apply (rec_frame _ _ _ _ _ _ _ _ _ _ R2'); [exact En|].
        intros m Hm E. rewrite fsub_single in Hm.
        assert (En' : compilerNodeOf tw f = Some m).
        { apply Hcons; [|exact E]. rewrite fsub_cons, elem_of_app. auto. }
        rewrite En in En'. inversion En'; subst m.
        apply H1. now apply elem_of_nids. }
    { intros c k Hc Hk.
      pose proof (fnids_children_below _ _ _ Hc Hk) as Hid.
      destruct (Dns _ Hid) as [H1 H2].
      rewrite (rec_cache_frame _ _ _ _ _ _ _ _ _ _ R2'); rewrite ?fnids_single; auto.
      apply (Hfresh c k); [now right | exact Hk]. }
    exists f'. split.
    + simpl. apply bind_ok_eq with (a := (i + 1, os)) (f1 := f2).
      * unfold handleSyntaxListStep. fold (inRange ci ic i). rewrite Hin.
        unfold next. rewrite (bind_ok _ _ _ _ _ (bind_ok _ _ _ _ _ E1)).
        unfold ret at 1. simpl. now rewrite (bind_ok _ _ _ _ _ E2).
      * simpl. rewrite E'. do 3 f_equal. lia.
    + change (o :: os) with ([o] ++ os). change (n :: ns) with ([n] ++ ns).
      eapply reconciled_compose; [exact R2' | exact R' | | | | | | apply Hrdy2].
      * intros k Hk. rewrite fnids_single in Hk. apply (Dn _ Hk).
      * intros k Hk. rewrite !fnids_single. apply (Dos _ Hk).
      * intros m m' H. rewrite fsub_single. apply (Lp1 _ _ H).
      * intros c H. rewrite fsub_single. eauto.
      * intros m m' H. apply (Lp2 _ _ H).
Qed.

End ReconciledFacts.

(** ** Facts on aligned trees *)

Section AlignmentMore.
Variable t : target.
Variables ci ic : Z.

Lemma pairs_kind :
  (forall o n ps sk, pairsNode t ci ic o n ps sk ->
      forall m m', (m, m') ∈ ps -> kind m = kind m')
  /\ (forall p os ns ps sk, pairsChildren t ci ic p os ns ps sk ->
      forall m m', (m, m') ∈ ps -> kind m = kind m')
  /\ (forall o n ps sk, pairsList t ci ic o n ps sk ->
      forall m m', (m, m') ∈ ps -> kind m = kind m')
  /\ (forall i os ns ps sk, pairsListChildren t ci ic i os ns ps sk ->
      forall m m', (m, m') ∈ ps -> kind m = kind m').
Proof.
  apply pairs_mutind.
  - intros o n ps sk Hk _ IH m m' Hin.
    apply elem_of_cons in Hin as [E|Hin]; [inversion E; subst; exact Hk | eauto].
  - intros p m m' Hin. inversion Hin.
  - intros p o os n ns ps1 sk1 ps2 sk2 _ _ IH1 _ IH2 m m' Hin.
    apply elem_of_app in Hin as [Hin|Hin]; eauto.
  - intros p o os n ns ps1 sk1 ps2 sk2 _ _ IH1 _ IH2 m m' Hin.
    apply elem_of_app in Hin as [Hin|Hin]; eauto.
  - intros o n ps sk Hk _ IH m m' Hin.
    apply elem_of_cons in Hin as [E|Hin]; [inversion E; subst; exact Hk | eauto].
  - intros i m m' Hin. inversion Hin.
  - intros i os n ns ps sk _ _ IH m m' Hin. eauto.
  - intros i o os n ns ps1 sk1 ps2 sk2 _ _ IH1 _ IH2 m m' Hin.
    apply elem_of_app in Hin as [Hin|Hin]; eauto.
Qed.

(** Every current node has a partner. *)
Lemma pairs_cover :
  (forall o n ps sk, pairsNode t ci ic o n ps sk ->
      forall m, m ∈ subnodes o -> exists m', (m, m') ∈ ps)
  /\ (forall p os ns ps sk, pairsChildren t ci ic p os ns ps sk ->
      forall m, m ∈ fsub os -> exists m', (m, m') ∈ ps)
  /\ (forall o n ps sk, pairsList t ci ic o n ps sk ->
      forall m, m ∈ subnodes o -> exists m', (m, m') ∈ ps)
  /\ (forall i os ns ps sk, pairsListChildren t ci ic i os ns ps sk ->
      forall m, m ∈ fsub os -> exists m', (m, m') ∈ ps).
Proof.
  apply pairs_mutind.
  - intros o n ps sk Hk _ IH m Hm. rewrite subnodes_eq in Hm.
    apply elem_of_cons in Hm as [->|Hm].
    + exists n. left.
    + destruct (IH _ Hm) as (m' & H). exists m'. now right.
  - intros p m Hm. inversion Hm.
  - intros p o os n ns ps1 sk1 ps2 sk2 _ _ IH1 _ IH2 m Hm.
    rewrite fsub_cons in Hm. apply elem_of_app in Hm as [Hm|Hm].
    + destruct (IH1 _ Hm) as (m' & H). exists m'. rewrite elem_of_app. auto.
    + destruct (IH2 _ Hm) as (m' & H). exists m'. rewrite elem_of_app. auto.
  - intros p o os n ns ps1 sk1 ps2 sk2 _ _ IH1 _ IH2 m Hm.
    rewrite fsub_cons in Hm. apply elem_of_app in Hm as [Hm|Hm].
    + destruct (IH1 _ Hm) as (m' & H). exists m'. rewrite elem_of_app. auto.
    + destruct (IH2 _ Hm) as (m' & H). exists m'. rewrite elem_of_app. auto.
  - intros o n ps sk Hk _ IH m Hm. rewrite subnodes_eq in Hm.
    apply elem_of_cons in Hm as [->|Hm].
    + exists n. left.
    + destruct (IH _ Hm) as (m' & H). exists m'. now right.
  - intros i m Hm. inversion Hm.
  - intros i os n ns ps sk _ _ IH m Hm. eauto.
  - intros i o os n ns ps1 sk1 ps2 sk2 _ _ IH1 _ IH2 m Hm.
    rewrite fsub_cons in Hm. apply elem_of_app in Hm as [Hm|Hm].
    + destruct (IH1 _ Hm) as (m' & H). exists m'. rewrite elem_of_app. auto.
    + destruct (IH2 _ Hm) as (m' & H). exists m'. rewrite elem_of_app. auto.
Qed.
End AlignmentMore.

(** ** The parent found in the tree *)

Lemma findParent_eq target root :
  findParent target root
  = if existsb (fun c => Nat.eqb (nid c) target) (children root) then Some root
    else
      (fix scan (cs : list tsNode) : option tsNode :=
         match cs with
         | [] => None
         | c :: cs' =>
             match findParent target c with
             | Some p => Some p
             | None => scan cs'
             end
         end) (children root).
Proof. destruct root; reflexivity. Qed.

Lemma findParent_in target : forall root p,
  findParent target root = Some p -> p ∈ subnodes root.
Proof.
  induction root as [root IH] using tsNode_nested_ind. intros p.
  rewrite findParent_eq.
  destruct (existsb _ (children root)).
  - intros E. inversion E; subst. apply subnodes_self.
  - rewrite subnodes_eq. intros E. right. revert E.
    induction (children root) as [|c cs IHcs]; [discriminate|].
    inversion IH as [|? ? Hc Hcs]; subst.
    rewrite fsub_cons, elem_of_app.
    destruct (findParent target c) as [q|] eqn:Eq.
    + intros E. inversion E; subst. left. now apply Hc.
    + intros E. right. now apply IHcs.
Qed.

(** ** Before the walk: the wrappers made by the pipeline *)

Lemma ready_allocs sl slp t lb A B ps cs : forall f,
  ready sl slp t lb A B ps f ->
  (forall c, c ∈ cs -> c ∈ fsub A) ->
  exists ws f1,
    getNodesFromCompilerNodes cs f = (Ok ws, f1)
    /\ ready sl slp t lb A B ps f1 /\ extends f f1
    /\ length ws = length cs
    /\ (forall k x, nodeCache f1 !! k = Some x ->
          nodeCache f !! k = Some x \/ (k ∈ fnids A /\ (nextId f <= x)%nat)).
Proof.
  induction cs as [|c cs IH]; intros f Hrdy Hcs; simpl.
  - exists [], f. split; [reflexivity|]. split; [exact Hrdy|].
    split; [apply extends_refl|]. split; [reflexivity|]. intros k x E. now left.
  - destruct (getNodeFromCompilerNode_spec c f (rdy_wf _ _ _ _ _ _ _ _ Hrdy))
      as (w & f1 & E1 & _).
    assert (Hc : c ∈ fsub A) by (apply Hcs; left).
    destruct (ready_alloc _ _ _ _ _ _ _ _ c w f1 Hrdy (or_introl Hc) E1)
      as (Hrdy1 & Hx1 & _ & _ & _ & Hnew1).
    destruct (IH f1 Hrdy1) as (ws & f2 & E2 & Hrdy2 & Hx2 & Hlen & Hnew2).
    { intros c' Hc'. apply Hcs. now right. }
    exists (w :: ws), f2. split.
    { rewrite (bind_ok _ _ _ _ _ E1), (bind_ok _ _ _ _ _ E2). reflexivity. }
    split; [exact Hrdy2|]. split; [eapply extends_trans; eauto|].
    split; [simpl; congruence|].
    intros k x Ek. destruct (Hnew2 _ _ Ek) as [Ek1|[Hk Hlt]].
    + destruct (Hnew1 _ _ Ek1) as [Ek0|[-> Hlt]]; [now left|].
      right. split; [now apply elem_of_fnids | exact Hlt].
    + right. split; [exact Hk|]. destruct Hx1 as (_ & _ & Hn). lia.
Qed.

Lemma insert_prelude (sourceFile syntaxList : nat) (f : Factory)
    (root root' list : tsNode) :
  factoryWf f ->
  nodeCache f !! nid root = Some sourceFile ->
  consistent [root] f ->
  compilerNodeOf syntaxList f = Some list ->
  list ∈ subnodes root ->
  NoDup (nids root ++ nids root') ->
  exists ws f1 slp f2,
    getChildren (Some syntaxList) f = (Ok ws, f1)
    /\ getParent sourceFile syntaxList f1 = (Ok slp, f2)
    /\ length ws = length (children list)
    /\ ready syntaxList None (targetFor list None) (nextId f) [root] [root'] [] f2
    /\ extends f f2
    /\ (forall k x, nodeCache f2 !! k = Some x ->
          nodeCache f !! k = Some x \/ (k ∈ nids root /\ (nextId f <= x)%nat))
    /\ match findParent (nid list) root with
       | Some parent => exists pw, slp = Some pw /\ compilerNodeOf pw f2 = Some parent
       | None => slp = None
       end.
Proof.
  intros Hwf Hsf Hcons Hsl Hlist Hnd.
  assert (Hroot : compilerNodeOf sourceFile f = Some root).
  { apply Hcons; [rewrite fsub_single; apply subnodes_self | exact Hsf]. }
  assert (Hrdy : ready syntaxList None (targetFor list None) (nextId f)
                   [root] [root'] [] f).
  { split; auto.
    - split; [|reflexivity]. exists list. auto.
    - now rewrite !fnids_single.
    - intros m m' wm Hin. inversion Hin. }
  destruct (ready_allocs _ _ _ _ _ _ _ (children list) f Hrdy)
    as (ws & f1 & E1 & Hrdy1 & Hx1 & Hlen & Hnew1).
  { intros c Hc. rewrite fsub_single.
    assert (Hsub : forall m, m ∈ subnodes list -> m ∈ subnodes root).
    { clear -Hlist. revert Hlist. generalize list.
      induction root as [r IH] using tsNode_nested_ind. intros l Hl m Hm.
      rewrite subnodes_eq in Hl. apply elem_of_cons in Hl as [->|Hl]; [exact Hm|].
      rewrite subnodes_eq. right.
      unfold fsub in Hl. apply list_elem_of_In, in_flat_map in Hl as (c & Hc & Hl).
      apply list_elem_of_In in Hc, Hl.
      eapply elem_of_fsub_child; [exact Hc|].
      rewrite Forall_forall in IH. eapply IH; eauto. }
    apply Hsub. rewrite subnodes_eq. right.
    eapply elem_of_fsub_child; [exact Hc | apply subnodes_self]. }
  assert (Hroot1 : compilerNodeOf sourceFile f1 = Some root)
    by eauto using extends_compilerNodeOf.
  assert (Hsl1 : compilerNodeOf syntaxList f1 = Some list)
    by eauto using extends_compilerNodeOf.
  assert (Eg : getChildren (Some syntaxList) f = (Ok ws, f1)).
  { unfold getChildren.
    now rewrite (bind_ok _ _ _ _ _ (getCompilerNode_some _ _ _ Hsl)). }
  assert (Hnew1' : forall k x, nodeCache f1 !! k = Some x ->
            nodeCache f !! k = Some x \/ (k ∈ nids root /\ (nextId f <= x)%nat)).
  { intros k x Ek. rewrite <- fnids_single. auto. }
  exists ws, f1. unfold getParent.
  rewrite (bind_ok _ _ _ _ _ (getCompilerNode_some _ _ _ Hroot1)).
  rewrite (bind_ok _ _ _ _ _ (getCompilerNode_some _ _ _ Hsl1)).
  destruct (findParent (nid list) root) as [parent|] eqn:Ep.
  - pose proof (findParent_in _ _ _ Ep) as Hparent.
    destruct (getNodeFromCompilerNode_spec parent f1 (rdy_wf _ _ _ _ _ _ _ _ Hrdy1))
      as (pw & f2 & E2 & _).
    destruct (ready_alloc _ _ _ _ _ _ _ _ parent pw f2 Hrdy1) as
      (Hrdy2 & Hx2 & _ & Hnode & _ & Hnew2);
      [left; now rewrite fsub_single | exact E2 |].
    exists (Some pw), f2. rewrite (bind_ok _ _ _ _ _ E2).
    split; [exact Eg|]. split; [reflexivity|]. split; [exact Hlen|].
    split; [exact Hrdy2|]. split; [eapply extends_trans; eauto|]. split.
    + intros k x Ek. destruct (Hnew2 _ _ Ek) as [Ek1|[-> Hlt]]; [auto|].
      right. split; [now apply elem_of_nids|].
      destruct Hx1 as (_ & _ & Hn). lia.
    + exists pw. split; [reflexivity|]. apply Hnode. now rewrite fsub_single.
  - exists None, f1.
    split; [exact Eg|]. split; [reflexivity|]. split; [exact Hlen|].
    split; [exact Hrdy1|]. split; [exact Hx1|]. split; [exact Hnew1'|reflexivity].
Qed.

(** ** The whole edit on aligned trees *)

Lemma getFullText_some (C : Compiler) sf root f :
  compilerNodeOf sf f = Some root -> getFullText sf f = (Ok (sourceText root), f).
Proof.
  intros E. unfold getFullText.
  now rewrite (bind_ok _ _ _ _ _ (getCompilerNode_some _ _ _ E)).
Qed.

Lemma createTempSourceFileFromText_ok (C : Compiler) fileText f tw f1 :
  getNodeFromCompilerNode (createSourceFile fileText) f = (Ok tw, f1) ->
  createTempSourceFileFromText fileText f = (Ok (createSourceFile fileText), f1).
Proof.
  intros E. unfold createTempSourceFileFromText.
  now rewrite (bind_ok _ _ _ _ _ E).
Qed.

Lemma insert_reconciles (C : Compiler) (sourceFile syntaxList : nat) (insertPos : Z)
    (newText : text) (ci ic : Z) (f : Factory) (root lst : tsNode)
    (ps : list (tsNode * tsNode)) (sk : list tsNode) :
  let root' := createSourceFile (newFileText (sourceText root) insertPos newText) in
  let t := targetFor lst (findParent (nid lst) root) in
  factoryWf f ->
  nodeCache f !! nid root = Some sourceFile ->
  consistent [root] f ->
  compilerNodeOf syntaxList f = Some lst ->
  lst ∈ subnodes root ->
  NoDup (nids root ++ nids root') ->
  (forall k, k ∈ nids root' -> nodeCache f !! k = None) ->
  0 <= ci <= Z.of_nat (length (children lst)) ->
  pairsNode t ci ic root root' ps sk ->
  (forall m m', (m, m') ∈ ps ->
      m = lst \/ findParent (nid lst) root = Some m -> pos m' = pos m) ->
  exists f',
    insertIntoSyntaxList sourceFile insertPos newText syntaxList ci ic f = (Ok tt, f')
    /\ factoryWf f' /\ keepsWrappers f f'
    /\ (forall m m', (m, m') ∈ ps ->
          exists wm, nodeCache f' !! nid m' = Some wm
                     /\ compilerNodeOf wm f' = Some m'
                     /\ (forall w, nodeCache f !! nid m = Some w -> wm = w))
    /\ (forall c, c ∈ sk ->
          exists wc, nodeCache f' !! nid c = Some wc
                     /\ compilerNodeOf wc f' = Some c /\ wrappers f !! wc = None)
    /\ (forall x nd, compilerNodeOf x f = Some nd ->
          (forall m, m ∈ subnodes root -> nodeCache f !! nid m <> Some x) ->
          compilerNodeOf x f' = Some nd).
Proof.
  intros root' t Hwf Hsf Hcons Hsl Hlist Hnd Hfresh Hci Hpairs Hpos.
  destruct (insert_prelude sourceFile syntaxList f root root' lst
              Hwf Hsf Hcons Hsl Hlist Hnd)
    as (ws & f1 & slp & f2 & Eg & Ep & Hlen & Hrdy2 & Hx2 & Hnew2 & Hslp).
  assert (Hroot2 : compilerNodeOf sourceFile f2 = Some root).
  { eapply extends_compilerNodeOf; [exact Hx2|].
    apply Hcons; [rewrite fsub_single; apply subnodes_self | exact Hsf]. }
  (* the temporary source file *)
  destruct (getNodeFromCompilerNode_spec root' f2 (rdy_wf _ _ _ _ _ _ _ _ Hrdy2))
    as (tw & f3 & E3 & _).
  destruct (ready_alloc _ _ _ _ _ _ _ _ root' tw f3 Hrdy2) as
    (Hrdy3 & Hx3 & _ & _ & _ & Hnew3);
    [right; rewrite fsub_single; apply subnodes_self | exact E3 |].
  pose proof Hrdy3 as [Hwf3 _ Hlb3 Hcons3 Hnd3 _].
  pose proof (extends_trans _ _ _ Hx2 Hx3) as Hx.
  assert (Hnew : forall k x, nodeCache f3 !! k = Some x ->
            nodeCache f !! k = Some x
            \/ ((k ∈ nids root \/ k = nid root') /\ (nextId f <= x)%nat)).
  { intros k x Ek. destruct (Hnew3 _ _ Ek) as [Ek2|[-> Hlt]].
    - destruct (Hnew2 _ _ Ek2) as [Ek0|[Hk Hlt]]; auto.
    - right. split; [now right|]. destruct Hx2 as (_ & _ & Hn). lia. }
  assert (Hsl3 : compilerNodeOf syntaxList f3 = Some lst)
    by eauto using extends_compilerNodeOf.
  assert (Hpin : pinned syntaxList slp t f3).
  { split; [exists lst; auto|]. subst t.
    destruct (findParent (nid lst) root) as [parent|].
    - destruct Hslp as (pw & -> & Hpw). exists parent.
      split; [eapply extends_compilerNodeOf; [exact Hx3 | exact Hpw] | reflexivity].
    - now subst slp. }
  destruct (pairs_located t ci ic) as (LocN & _).
  destruct (LocN _ _ _ _ Hpairs) as [Lp Ls].
  destruct (pairs_kind t ci ic) as (KindN & _).
  assert (Hrdy : ready syntaxList slp t (nextId f) [root] [root'] ps f3).
  { split; auto.
    intros m m' wm Hin Em.
    assert (En : compilerNodeOf wm f3 = Some m).
    { apply Hcons3; [|exact Em]. rewrite fsub_single. apply (Lp _ _ Hin). }
    pose proof (KindN _ _ _ _ Hpairs _ _ Hin) as Hkind.
    split.
    - intros ->. rewrite Hsl3 in En. inversion En; subst m.
      simpl. split; [apply Hpos with (m := lst); auto | congruence].
    - intros ->. subst t. destruct (findParent (nid lst) root) as [parent|] eqn:Epar.
      + destruct Hslp as (pw & Epw & Hpw). inversion Epw; subst pw.
        assert (En' : compilerNodeOf wm f3 = Some parent)
          by (eapply extends_compilerNodeOf; [exact Hx3 | exact Hpw]).
        rewrite En in En'. inversion En'; subst m. simpl.
        rewrite (Hpos parent m' Hin (or_intror eq_refl)). now rewrite Hkind.
      + discriminate. }
  assert (Hsf3 : nodeCache f3 !! nid root = Some sourceFile)
    by (eapply extends_cache; eauto).
  assert (Hdisj : forall k, k ∈ nids root -> k ∉ nids root').
  { apply NoDup_app in Hnd as (_ & Hd & _). exact Hd. }
  assert (Hfresh3 : forall k, k ∈ fnids (children root') -> nodeCache f3 !! k = None).
  { intros k Hk. destruct (nodeCache f3 !! k) as [x|] eqn:Ek; [|reflexivity].
    exfalso. assert (Hk' : k ∈ nids root') by (rewrite nids_eq; now right).
    destruct (Hnew _ _ Ek) as [Ek0|[[Hko| ->] _]].
    - rewrite (Hfresh _ Hk') in Ek0. discriminate.
    - exact (Hdisj _ Hko Hk').
    - apply NoDup_app in Hnd as (_ & _ & Hd). rewrite nids_eq in Hd.
      apply NoDup_cons in Hd as [Hd _]. exact (Hd Hk). }
  destruct (walk_reconciles syntaxList slp t (nextId f) ci ic) as (Walk & _).
  destruct (Walk _ _ _ _ Hpairs sourceFile f3 Hrdy Hsf3 Hfresh3) as (f' & Ewalk & R).
  destruct R as [Rwf Rnext Rpin Rcf Rps Rsk Rfr].
  assert (Erun : insertIntoSyntaxList sourceFile insertPos newText syntaxList ci ic f
                 = (Ok tt, f')).
  { unfold insertIntoSyntaxList.
    rewrite (bind_ok _ _ _ _ _ Eg), (bind_ok _ _ _ _ _ Ep), Hlen.
    replace ((ci <? 0) || (Z.of_nat (length (children lst)) <? ci)) with false.
    2:{ symmetry. apply orb_false_iff. split; apply Z.ltb_ge; lia. }
    rewrite (bind_ok _ _ _ _ _ (getFullText_some C _ _ _ Hroot2)).
    rewrite (bind_ok _ _ _ _ _ (createTempSourceFileFromText_ok C _ _ _ _ E3)).
    exact Ewalk. }
  exists f'. split; [exact Erun|]. split; [exact Rwf|]. split.
  { eapply (preserves_insertIntoSyntaxList C); eauto. }
  split; [|split].
  - intros m m' Hin. destruct (Rps _ _ Hin) as (wm & H1 & H2 & H3).
    exists wm. split; [exact H1|]. split; [exact H2|].
    intros w Ew. apply H3. eapply extends_cache; eauto.
  - intros c Hc. destruct (Rsk _ Hc) as (wc & H1 & H2 & H3).
    exists wc. split; [exact H1|]. split; [exact H2|].
    destruct (wrappers f !! wc) as [o|] eqn:Eo; [|reflexivity].
    destruct Hwf as [Hw _]. specialize (Hw wc (ltac:(eauto))). lia.
  - intros x nd Ex Hno. apply Rfr; [eapply extends_compilerNodeOf; eauto|].
    intros m Hm Em. rewrite fsub_single in Hm.
    destruct (Hnew _ _ Em) as [E0|[_ Hlt]].
    + exact (Hno m Hm E0).
    + pose proof (compilerNodeOf_lt _ _ _ Hwf Ex). lia.
Qed.

(** ** Reparsing the same text *)

Lemma newFileText_empty (t : text) (p : Z) : newFileText t p [] = t.
Proof.
  unfold newFileText, substring, clamp. simpl.
  set (len := Z.of_nat (length t)).
  assert (Hlen : 0 <= len) by (subst len; lia).
  set (q := Z.max 0 (Z.min p len)).
  assert (Hq : 0 <= q <= len) by (subst q; lia).
  rewrite (Z.max_l 0 (Z.min 0 len)) by lia.
  rewrite (Z.min_l 0 q), (Z.max_r 0 q) by lia.
  rewrite (Z.min_l q len), (Z.max_r q len) by lia.
  rewrite Z.sub_0_r. simpl.
  rewrite (take_ge (drop (Z.to_nat q) t)).
  - apply take_drop.
  - rewrite length_drop. subst len. lia.
Qed.

Lemma sameTree_refl : forall n, sameTree n n.
Proof.
  induction n as [n IH] using tsNode_nested_ind.
  constructor; auto.
  induction (children n) as [|c cs IHcs]; constructor.
  - now inversion IH.
  - apply IHcs. now inversion IH.
Qed.

Section SameTree.
Variable t : target.
Variable ci : Z.

Lemma inRange_empty i : inRange ci 0 i = false.
Proof.
  unfold inRange. apply andb_false_iff.
  destruct (Z.leb_spec ci i); [right; apply Z.ltb_ge; lia | now left].
Qed.

Lemma same_pairs : forall o n,
  sameTree o n ->
  exists ps,
    pairsNode t ci 0 o n ps []
    /\ pairsList t ci 0 o n ps []
    /\ (forall m m', (m, m') ∈ ps -> sameTree m m').
Proof.
  induction o as [o IH] using tsNode_nested_ind. intros n Hsame.
  inversion Hsame as [? ? Hk Hp He Hch]; subst.
  assert (Hkids : exists ps,
             (forall p, pairsChildren t ci 0 p (children o) (children n) ps [])
             /\ (forall i, pairsListChildren t ci 0 i (children o) (children n) ps [])
             /\ (forall m m', (m, m') ∈ ps -> sameTree m m')).
  { clear Hsame Hk Hp He. revert IH.
    induction Hch as [|c c' cs cs' Hc Hcs IHcs]; intros IH.
    - exists []. split; [intros; constructor|]. split; [intros; constructor|].
      intros m m' Hin. inversion Hin.
    - inversion IH as [|? ? Pc Pcs]; subst.
      destruct (Pc _ Hc) as (ps1 & HN & HL & HS1).
      destruct (IHcs Pcs) as (ps2 & HC & HLC & HS2).
      exists (ps1 ++ ps2). split; [|split].
      + intros p. change (@nil tsNode) with (@nil tsNode ++ []).
        destruct (isTarget t c' p) eqn:Et.
        * apply pairs_splice; auto.
        * apply pairs_straight; auto.
      + intros i. change (@nil tsNode) with (@nil tsNode ++ []).
        apply pairs_list_take; auto using inRange_empty.
      + intros m m' Hin. apply elem_of_app in Hin as [Hin|Hin]; eauto. }
  destruct Hkids as (ps & HC & HLC & HS).
  exists ((o, n) :: ps). split; [|split].
  - constructor; auto.
  - constructor; auto.
  - intros m m' Hin. apply elem_of_cons in Hin as [E|Hin]; [|eauto].
    inversion E; subst. exact Hsame.
Qed.
End SameTree.

Lemma sameTree_pos o n : sameTree o n -> pos n = pos o.
Proof. intros H. inversion H; subst. congruence. Qed.

(** C9: inserting the empty text with no item leaves every wrapper in place:
    the edit succeeds, every wrapper is still the same object with the same
    forgotten mark, and its node has the same kind, the same text span and
    the same children as before. *)
Theorem empty_insertion_changes_nothing (C : Compiler)
    (sourceFile syntaxList : nat) (insertPos childIndex : Z)
    (f : Factory) (root lst : tsNode) :
  factoryWf f ->
  nodeCache f !! nid root = Some sourceFile ->
  consistent [root] f ->
  compilerNodeOf syntaxList f = Some lst ->
  lst ∈ subnodes root ->
  sameTree root (createSourceFile (sourceText root)) ->
  NoDup (nids root ++ nids (createSourceFile (sourceText root))) ->
  (forall k, k ∈ nids (createSourceFile (sourceText root)) -> nodeCache f !! k = None) ->
  0 <= childIndex <= Z.of_nat (length (children lst)) ->
  exists f',
    insertIntoSyntaxList sourceFile insertPos [] syntaxList childIndex 0 f = (Ok tt, f')
    /\ forall w o, wrappers f !! w = Some o ->
         exists o', wrappers f' !! w = Some o'
                    /\ forgotten o' = forgotten o
                    /\ sameTree (node o) (node o').
Proof.
  intros Hwf Hsf Hcons Hsl Hlst Hsame Hnd Hfresh Hci.
  set (t := targetFor lst (findParent (nid lst) root)).
  destruct (same_pairs t childIndex _ _ Hsame) as (ps & Hpairs & _ & HS).
  destruct (insert_reconciles C sourceFile syntaxList insertPos [] childIndex 0 f
              root lst ps []) as (f' & Erun & Hwf' & Hkeep & Hps & _ & Hfr);
    try rewrite newFileText_empty; auto.
  { intros m m' Hin _. apply sameTree_pos. auto. }
  exists f'. split; [exact Erun|].
  intros w o Hw. destruct (Hkeep _ _ Hw) as (o' & Hw' & Hforg).
  exists o'. split; [exact Hw'|]. split; [exact Hforg|].
  assert (Hnode : compilerNodeOf w f = Some (node o)).
  { unfold compilerNodeOf. now rewrite Hw. }
  assert (Hnode' : forall nd, compilerNodeOf w f' = Some nd -> node o' = nd).
  { unfold compilerNodeOf. rewrite Hw'. simpl. congruence. }
  destruct (decide (Exists (fun m => nodeCache f !! nid m = Some w) (subnodes root)))
    as [Hex|Hno].
  - apply Exists_exists in Hex as (m & Hm & Em).
    assert (Hwm : compilerNodeOf w f = Some m).
    { apply Hcons; [now rewrite fsub_single | exact Em]. }
    rewrite Hnode in Hwm. inversion Hwm as [Eo].
    destruct (pairs_cover t childIndex 0) as (Cover & _).
    destruct (Cover _ _ _ _ Hpairs m Hm) as (m' & Hin).
    destruct (Hps _ _ Hin) as (wm & _ & Hn' & Hwm').
    rewrite (Hwm' _ Em) in Hn'.
    rewrite (Hnode' _ Hn'), Eo. now apply HS.
  - rewrite (Hnode' (node o)); [apply sameTree_refl|].
    apply Hfr; [exact Hnode|]. intros m Hm Em. apply Hno.
    apply Exists_exists. eauto.
Qed.

(** ** An insertion aligns the trees *)

Section InsertionFacts.
Variable t : target.
Variable lst : tsNode.
Variables offset count : nat.








End InsertionFacts.

(** ** The children of the list after the insertion *)

Section InsertionList.
Variable t : target.
Variable lst : tsNode.
Variables offset count : nat.




End InsertionList.




(** ** Witnesses on the edit of [enum E { A }] *)

Lemma consistentb_ok olds f : consistentb olds f = true -> consistent olds f.
Proof.
  unfold consistentb, consistent. intros H m wm Hm Hc.
  rewrite forallb_forall in H. specialize (H m).
  rewrite Hc in H. eapply bool_decide_eq_true_1. apply H.
  apply list_elem_of_In, Hm.
Qed.


Lemma empty_insertion_changes_nothing_witness :
  exists f',
    @insertIntoSyntaxList ExampleEdit.sameParser 0 10 [] 2 1 0 Example.factory
    = (Ok tt, f')
    /\ forall w o, wrappers Example.factory !! w = Some o ->
         exists o', wrappers f' !! w = Some o'
                    /\ forgotten o' = forgotten o
                    /\ sameTree (node o) (node o').
Proof.
  apply (empty_insertion_changes_nothing ExampleEdit.sameParser 0 2 10 1
           Example.factory Example.oldFile Example.members).
  - exact example_factory_wf.
  - reflexivity.
  - apply consistentb_ok. vm_compute. reflexivity.
  - reflexivity.
  - refine (bool_decide_unpack _ _); vm_compute; exact I.
  - repeat constructor.
  - refine (bool_decide_unpack _ _); vm_compute; exact I.
  - apply Forall_forall. refine (bool_decide_unpack _ _); vm_compute; exact I.
  - vm_compute. split; discriminate.
Defined.


(** * Further properties *)


(** * FileUtils *)

Module FileUtilsFacts.
Import FileUtils.

(** ** Slashes *)

Lemma standardizeSlashes_lookup s i :
  standardizeSlashes s !! i
  = (fun c => if (c =? backslash)%N then slash else c) <$> s !! i.
Proof. unfold standardizeSlashes. apply (list_lookup_fmap _ s i). Qed.

Lemma standardizeSlashes_clean s : backslash ∉ standardizeSlashes s.
Proof.
  unfold standardizeSlashes. induction s as [|c s IH]; simpl.
  - apply not_elem_of_nil.
  - apply not_elem_of_cons. split; [|exact IH].
    destruct (N.eqb_spec c backslash) as [->|Hne]; [discriminate | congruence].
Qed.

Lemma standardizeSlashes_id s : backslash ∉ s -> standardizeSlashes s = s.
Proof.
  unfold standardizeSlashes. induction s as [|c s IH]; intros Hs; [reflexivity|].
  apply not_elem_of_cons in Hs as [Hc Hs]. simpl. rewrite IH by exact Hs.
  destruct (N.eqb_spec c backslash); congruence.
Qed.

(** X1: [standardizeSlashes] keeps the length, turns each backslash into a slash
    at the same index, keeps every other code unit, leaves no backslash, and
    so changes nothing when applied again. *)
Theorem standardizeSlashes_replaces_backslashes (s : jsString) :
  length (standardizeSlashes s) = length s
  /\ (backslash ∉ standardizeSlashes s)
  /\ (forall i, s !! i = Some backslash -> standardizeSlashes s !! i = Some slash)
  /\ (forall i c, s !! i = Some c -> c <> backslash -> standardizeSlashes s !! i = Some c)
  /\ standardizeSlashes (standardizeSlashes s) = standardizeSlashes s.
Proof.
  split; [apply length_map|].
  split; [apply standardizeSlashes_clean|].
  split; [|split].
  - intros i Hi. rewrite standardizeSlashes_lookup, Hi. reflexivity.
  - intros i c Hi Hc. rewrite standardizeSlashes_lookup, Hi. simpl.
    destruct (N.eqb_spec c backslash); congruence.
  - apply standardizeSlashes_id, standardizeSlashes_clean.
Qed.

(** ** Path items *)

Lemma split_nonempty sep s : split sep s <> [].
Proof.
  destruct s as [|c r]; simpl; [discriminate|].
  destruct (c =? sep)%N; [discriminate|].
  destruct (split sep r); discriminate.
Qed.

Lemma split_items sep s item :
  item ∈ split sep s -> (sep ∉ item) /\ (forall c, c ∈ item -> c ∈ s).
Proof.
  revert item. induction s as [|c r IH]; intros item Hin; simpl in Hin.
  - apply list_elem_of_singleton in Hin as ->. split; [apply not_elem_of_nil|].
    intros c Hc. exact Hc.
  - destruct (N.eqb_spec c sep) as [->|Hne].
    + apply elem_of_cons in Hin as [->|Hin].
      * split; [apply not_elem_of_nil|]. intros c Hc. inversion Hc.
      * destruct (IH _ Hin) as [H1 H2]. split; [exact H1|].
        intros c Hc. right. auto.
    + destruct (split sep r) as [|first others] eqn:E.
      * apply list_elem_of_singleton in Hin as ->. split.
        -- intros Hc. apply list_elem_of_singleton in Hc. congruence.
        -- intros x Hx. apply list_elem_of_singleton in Hx as ->. left.
      * apply elem_of_cons in Hin as [->|Hin].
        -- destruct (IH first) as [H1 H2]; [left|]. split.
           ++ apply not_elem_of_cons. split; [congruence | exact H1].
           ++ intros x Hx. apply elem_of_cons in Hx as [->|Hx]; [left | right; auto].
        -- destruct (IH item) as [H1 H2]; [right; exact Hin|]. split; [exact H1|].
           intros x Hx. right. auto.
Qed.

Lemma trimSlashStart_sub s c : c ∈ trimSlashStart s -> c ∈ s.
Proof.
  destruct s as [|x r]; simpl; [auto|].
  destruct (x =? slash)%N; [right; assumption | auto].
Qed.

(** X2: [splitPathBySlashes] always returns at least one item (the empty string
    for an empty or undefined path), and no item contains a slash or a
    backslash. *)
Theorem splitPathBySlashes_items (fileOrDirPath : option jsString) :
  splitPathBySlashes fileOrDirPath <> []
  /\ forall item, item ∈ splitPathBySlashes fileOrDirPath ->
       (slash ∉ item) /\ (backslash ∉ item).
Proof.
  unfold splitPathBySlashes. split; [apply split_nonempty|].
  intros item Hin. destruct (split_items _ _ _ Hin) as [H1 H2].
  split; [exact H1|]. intros Hb.
  apply H2, trimSlashStart_sub in Hb. revert Hb. apply standardizeSlashes_clean.
Qed.

Lemma trimSlashEnd_snoc s : trimSlashEnd (s ++ [slash]) = s.
Proof.
  induction s as [|c s IH]; [reflexivity|].
  simpl. rewrite IH. destruct (s ++ [slash]) eqn:E; [|reflexivity].
  destruct s; discriminate.
Qed.

Lemma trimSlashEnd_keeps s : last s <> Some slash -> trimSlashEnd s = s.
Proof.
  induction s as [|c s IH]; [reflexivity|]. intros Hl.
  destruct s as [|d s].
  - simpl in *. destruct (N.eqb_spec c slash) as [->|]; [congruence | reflexivity].
  - change (trimSlashEnd (c :: d :: s)) with (c :: trimSlashEnd (d :: s)).
    rewrite IH; [reflexivity|]. exact Hl.
Qed.

(** X3: One slash in front of a path and one slash at its end do not change the
    items: a path that does not start with a slash has the items of the same
    path with a slash in front, a path that does not end with a slash those
    of the same path with a slash at the end, and an undefined path those of
    the empty path. *)
Theorem splitPathBySlashes_ignores_outer_slashes (s : jsString) :
  (head s <> Some slash ->
   splitPathBySlashes (Some (slash :: s)) = splitPathBySlashes (Some s))
  /\ (last s <> Some slash ->
      splitPathBySlashes (Some (s ++ [slash])) = splitPathBySlashes (Some s))
  /\ splitPathBySlashes None = splitPathBySlashes (Some []).
Proof.
  split; [|split; [|reflexivity]].
  - intros Hh. unfold splitPathBySlashes. simpl default.
    assert (Ht : trimSlashStart s = s).
    { destruct s as [|c r]; [reflexivity|]. simpl in *.
      destruct (N.eqb_spec c slash) as [->|]; [congruence | reflexivity]. }
    rewrite Ht. reflexivity.
  - intros Hl. unfold splitPathBySlashes. simpl default.
    destruct s as [|c r]; [reflexivity|].
    change ((c :: r) ++ [slash]) with (c :: (r ++ [slash])).
    unfold trimSlashStart. destruct (N.eqb_spec c slash) as [->|Hc].
    + rewrite trimSlashEnd_snoc. rewrite trimSlashEnd_keeps; [reflexivity|].
      destruct r as [|d r]; [discriminate | exact Hl].
    + change (c :: (r ++ [slash])) with ((c :: r) ++ [slash]).
      rewrite trimSlashEnd_snoc. now rewrite trimSlashEnd_keeps.
Qed.

(** ** Suffixes and prefixes of path items *)

Lemma itemAt_nat items (i : nat) : itemAt items (Z.of_nat i) = items !! i.
Proof.
  unfold itemAt. destruct (Z.ltb_spec (Z.of_nat i) 0); [lia|].
  now rewrite Nat2Z.id.
Qed.

Lemma endsWithFrom_spec e p : forall n i,
  (i + n = length e)%nat -> (length e <= length p)%nat ->
  endsWithFrom e p (Z.of_nat i) n = true
  <-> forall j, (i <= j < length e)%nat ->
        e !! (length e - j - 1)%nat = p !! (length p - j - 1)%nat.
Proof.
  induction n as [|n IH]; intros i Hi Hle; simpl.
  - split; [|reflexivity]. intros _ j Hj. lia.
  - replace (Z.of_nat (length e) - Z.of_nat i - 1)
      with (Z.of_nat (length e - i - 1)) by lia.
    replace (Z.of_nat (length p) - Z.of_nat i - 1)
      with (Z.of_nat (length p - i - 1)) by lia.
    rewrite !itemAt_nat.
    replace (Z.of_nat i + 1) with (Z.of_nat (S i)) by lia.
    case_bool_decide as Heq.
    + rewrite IH by lia. split.
      * intros H j Hj. destruct (decide (j = i)) as [->|Hne]; [exact Heq|].
        apply H. lia.
      * intros H j Hj. apply H. lia.
    + split; [discriminate|]. intros H. exfalso. apply Heq, H. lia.
Qed.

Lemma suffix_lookups (e p : list jsString) :
  (length e <= length p)%nat ->
  (forall j, (0 <= j < length e)%nat ->
     e !! (length e - j - 1)%nat = p !! (length p - j - 1)%nat)
  <-> e `suffix_of` p.
Proof.
  intros Hle. split.
  - intros H. exists (take (length p - length e) p).
    rewrite <- (take_drop (length p - length e) p) at 1. f_equal.
    apply list_eq. intros k. rewrite lookup_drop.
    destruct (decide (k < length e)%nat) as [Hk|Hk].
    + specialize (H (length e - k - 1)%nat).
      replace (length e - (length e - k - 1) - 1)%nat with k in H by lia.
      replace (length p - (length e - k - 1) - 1)%nat
        with (length p - length e + k)%nat in H by lia.
      symmetry. apply H. lia.
    + rewrite !lookup_ge_None_2; [reflexivity | lia | lia].
  - intros [k ->] j Hj. rewrite length_app.
    rewrite lookup_app_r by lia. f_equal. lia.
Qed.

Lemma startsWithFrom_spec e p : forall n i,
  (i + n = length e)%nat ->
  startsWithFrom e p (Z.of_nat i) n = true
  <-> forall j, (i <= j < length e)%nat -> e !! j = p !! j.
Proof.
  induction n as [|n IH]; intros i Hi; simpl.
  - split; [|reflexivity]. intros _ j Hj. lia.
  - rewrite !itemAt_nat.
    replace (Z.of_nat i + 1) with (Z.of_nat (S i)) by lia.
    case_bool_decide as Heq.
    + rewrite IH by lia. split.
      * intros H j Hj. destruct (decide (j = i)) as [->|Hne]; [exact Heq|].
        apply H. lia.
      * intros H j Hj. apply H. lia.
    + split; [discriminate|]. intros H. exfalso. apply Heq, H. lia.
Qed.

Lemma prefix_lookups (e p : list jsString) :
  (length e <= length p)%nat ->
  (forall j, (0 <= j < length e)%nat -> e !! j = p !! j) <-> e `prefix_of` p.
Proof.
  intros Hle. split.
  - intros H. exists (drop (length e) p).
    rewrite <- (take_drop (length e) p) at 1. f_equal.
    apply list_eq. intros k.
    destruct (decide (k < length e)%nat) as [Hk|Hk].
    + rewrite lookup_take_lt by exact Hk. symmetry. apply H. lia.
    + rewrite lookup_take_ge by lia. symmetry. apply lookup_ge_None_2. lia.
  - intros [k ->] j Hj. now rewrite lookup_app_l by lia.
Qed.

(** X4: [pathEndsWith] holds exactly when the items of the search path are the
    last items of the path; the closing test on the number of items never
    decides, an empty or undefined search path having the empty string for
    its one item. *)
Theorem pathEndsWith_is_suffix_of_items (fileOrDirPath endsWithPath : option jsString) :
  pathEndsWith fileOrDirPath endsWithPath = true
  <-> exists before,
        splitPathBySlashes fileOrDirPath = before ++ splitPathBySlashes endsWithPath.
Proof.
  change (pathEndsWith fileOrDirPath endsWithPath = true
          <-> splitPathBySlashes endsWithPath `suffix_of` splitPathBySlashes fileOrDirPath).
  unfold pathEndsWith.
  set (pi := splitPathBySlashes fileOrDirPath). set (ei := splitPathBySlashes endsWithPath).
  assert (Hne : ei <> []) by apply split_nonempty.
  destruct (Nat.ltb_spec (length pi) (length ei)) as [Hlt|Hle].
  - split; [discriminate|]. intros Hs. apply suffix_length in Hs. lia.
  - rewrite <- suffix_lookups by exact Hle.
    pose proof (endsWithFrom_spec ei pi (length ei) 0%nat eq_refl Hle) as Hspec.
    change (Z.of_nat 0) with 0 in Hspec. rewrite <- Hspec.
    destruct (endsWithFrom ei pi 0 (length ei)); [|tauto].
    destruct ei; [congruence|]. simpl. tauto.
Qed.


(** X5: [pathStartsWith] holds exactly when the items of the search path are the
    first items of the path. *)
Theorem pathStartsWith_is_prefix_of_items (fileOrDirPath startsWithPath : option jsString) :
  pathStartsWith fileOrDirPath startsWithPath = true
  <-> exists after,
        splitPathBySlashes fileOrDirPath = splitPathBySlashes startsWithPath ++ after.
Proof.
  change (pathStartsWith fileOrDirPath startsWithPath = true
          <-> splitPathBySlashes startsWithPath `prefix_of` splitPathBySlashes fileOrDirPath).
  unfold pathStartsWith.
  set (pi := splitPathBySlashes fileOrDirPath). set (ei := splitPathBySlashes startsWithPath).
  assert (Hne : ei <> []) by apply split_nonempty.
  destruct (Nat.ltb_spec (length pi) (length ei)) as [Hlt|Hle].
  - split; [discriminate|]. intros Hs. apply prefix_length in Hs. lia.
  - rewrite <- prefix_lookups by exact Hle.
    pose proof (startsWithFrom_spec ei pi (length ei) 0%nat eq_refl) as Hspec.
    change (Z.of_nat 0) with 0 in Hspec. rewrite <- Hspec.
    destruct (startsWithFrom ei pi 0 (length ei)); [|tauto].
    destruct ei; [congruence|]. simpl. tauto.
Qed.


(** ** The byte order mark *)

(** X6: [getTextWithByteOrderMark] returns a text that starts with the mark,
    ends with the given text, is at most one code unit longer, and is left
    as it is by a second call. *)
Theorem getTextWithByteOrderMark_once (text : jsString) :
  head (getTextWithByteOrderMark text) = Some bom
  /\ (exists mark, getTextWithByteOrderMark text = mark ++ text
                   /\ (length mark <= 1)%nat)
  /\ getTextWithByteOrderMark (getTextWithByteOrderMark text)
     = getTextWithByteOrderMark text.
Proof.
  unfold getTextWithByteOrderMark. case_bool_decide as Hhead.
  - split; [exact Hhead|]. split.
    + exists []. split; [reflexivity | simpl; lia].
    + now rewrite bool_decide_eq_true_2 by exact Hhead.
  - split; [reflexivity|]. split.
    + exists [bom]. split; [reflexivity | simpl; lia].
    + reflexivity.
Qed.

(** ** Extensions *)

Lemma lastIndexOf_range s c :
  lastIndexOf s c = -1 \/ 0 <= lastIndexOf s c < Z.of_nat (length s).
Proof.
  induction s as [|x r IH]; simpl; [left; reflexivity|].
  destruct (Z.leb_spec 0 (lastIndexOf r c)).
  - right. lia.
  - destruct (x =? c)%N; [right; lia | left; reflexivity].
Qed.

Lemma lastIndexOf_none s c : lastIndexOf s c = -1 <-> c ∉ s.
Proof.
  induction s as [|x r IH]; simpl.
  - split; [intros _; apply not_elem_of_nil | reflexivity].
  - rewrite not_elem_of_cons. pose proof (lastIndexOf_range r c) as Hr.
    destruct (Z.leb_spec 0 (lastIndexOf r c)).
    + split; [lia|]. intros [_ Hc]. apply IH in Hc. lia.
    + destruct (N.eqb_spec x c) as [->|Hne].
      * split; [discriminate|]. intros [Hc _]. congruence.
      * split; [|reflexivity]. intros _. split; [congruence|]. apply IH. lia.
Qed.

Lemma lastIndexOf_found s c (i : nat) :
  lastIndexOf s c = Z.of_nat i ->
  exists pre rest, s = pre ++ c :: rest /\ length pre = i /\ c ∉ rest.
Proof.
  revert i. induction s as [|x r IH]; intros i; simpl; [lia|].
  destruct (Z.leb_spec 0 (lastIndexOf r c)) as [Hge|Hlt].
  - intros E. destruct i as [|i]; [lia|].
    destruct (IH i) as (pre & rest & -> & Hlen & Hc); [lia|].
    exists (x :: pre), rest. simpl. auto.
  - destruct (N.eqb_spec x c) as [->|Hne]; [|lia].
    intros E. destruct i; [|lia]. exists [], r. repeat split.
    apply lastIndexOf_none. pose proof (lastIndexOf_range r c). lia.
Qed.

Lemma lastIndexOf_app pre c rest :
  c ∉ rest -> lastIndexOf (pre ++ c :: rest) c = Z.of_nat (length pre).
Proof.
  intros Hc. apply lastIndexOf_none in Hc.
  induction pre as [|x pre IH]; simpl.
  - rewrite Hc. simpl. now rewrite N.eqb_refl.
  - rewrite IH. destruct (Z.leb_spec 0 (Z.of_nat (length pre))); lia.
Qed.

Lemma lastIndexOf_low s c : lastIndexOf s c <= 0 <-> c ∉ drop 1 s.
Proof.
  destruct s as [|x r]; simpl.
  - split; [intros _; apply not_elem_of_nil | lia].
  - rewrite drop_0, <- lastIndexOf_none. pose proof (lastIndexOf_range r c).
    destruct (Z.leb_spec 0 (lastIndexOf r c)); [lia|].
    destruct (x =? c)%N; lia.
Qed.

Lemma substring_from s (i : nat) :
  substring s (Z.of_nat i) None = drop i s.
Proof.
  unfold substring, clamp.
  destruct (decide (i <= length s)%nat) as [Hi|Hi].
  - rewrite (Z.min_l (Z.of_nat i)) by lia. rewrite (Z.max_r 0) by lia.
    rewrite Z.min_l by lia. rewrite Z.max_r by lia. rewrite Nat2Z.id.
    apply take_ge. rewrite length_drop. lia.
  - rewrite (Z.min_r (Z.of_nat i)) by lia. rewrite (Z.max_r 0) by lia.
    rewrite Z.min_l by lia. rewrite Z.max_l by lia. rewrite Z.sub_diag. simpl.
    rewrite (drop_ge s i) by lia. reflexivity.
Qed.

Lemma substring_from_Z s (i : Z) :
  substring s i None = drop (Z.to_nat i) s.
Proof.
  destruct (Z.le_gt_cases 0 i) as [Hi|Hi].
  - rewrite <- (Z2Nat.id i) at 1 by exact Hi. apply substring_from.
  - replace (Z.to_nat i) with 0%nat by lia.
    unfold substring, clamp. rewrite (Z.max_l 0) by lia.
    rewrite Z.min_l by lia. rewrite Z.max_r by lia.
    rewrite Z.sub_0_r, Nat2Z.id. simpl. rewrite drop_0. apply firstn_all.
Qed.

Lemma substring_between s (a b : nat) :
  (a <= b <= length s)%nat ->
  substring s (Z.of_nat a) (Some (Z.of_nat b)) = take (b - a) (drop a s).
Proof.
  intros Hab. unfold substring, clamp.
  rewrite (Z.min_l (Z.of_nat a)) by lia. rewrite (Z.max_r 0 (Z.of_nat a)) by lia.
  rewrite (Z.min_l (Z.of_nat b)) by lia. rewrite (Z.max_r 0 (Z.of_nat b)) by lia.
  rewrite Z.min_l by lia. rewrite Z.max_r by lia.
  rewrite Nat2Z.id. f_equal. lia.
Qed.

Section Extension.
Context `{NodePath}.

(** X7: [getExtension] is empty exactly when the base name has no dot after its
    first code unit: names without a dot and names such as [.gitignore]. *)
Theorem getExtension_empty_iff (fileOrDirPath : jsString) :
  getExtension fileOrDirPath = [] <-> dot ∉ drop 1 (basename fileOrDirPath).
Proof.
  rewrite <- lastIndexOf_low. unfold getExtension, getBaseName.
  set (b := basename fileOrDirPath).
  destruct (Z.leb_spec (lastIndexOf b dot) 0) as [Hle|Hgt]; [tauto|].
  split; [|lia]. intros E. exfalso.
  pose proof (lastIndexOf_range b dot) as [Hr|Hr]; [lia|].
  assert (Hne : forall i, i <= lastIndexOf b dot -> substring b i None <> []).
  { intros i Hi Hs. rewrite substring_from_Z in Hs.
    apply (f_equal length) in Hs. rewrite length_drop in Hs. simpl in Hs. lia. }
  revert E.
  repeat match goal with |- context [if ?c then _ else _] => destruct c end;
    apply Hne; lia.
Qed.

(** X8: The extension is an end of the base name; when it is not empty it ends
    with the part of the base name that starts at its last dot, preceded by
    at most three code units. *)
Theorem getExtension_is_end_of_base_name (fileOrDirPath : jsString) :
  (exists stem, basename fileOrDirPath = stem ++ getExtension fileOrDirPath)
  /\ (getExtension fileOrDirPath <> [] ->
      exists more rest,
        getExtension fileOrDirPath = more ++ dot :: rest
        /\ (dot ∉ rest) /\ (length more <= 3)%nat).
Proof.
  unfold getExtension, getBaseName. set (b := basename fileOrDirPath).
  destruct (Z.leb_spec (lastIndexOf b dot) 0) as [Hle|Hgt].
  { split; [exists b; now rewrite app_nil_r | congruence]. }
  destruct (lastIndexOf_found b dot (Z.to_nat (lastIndexOf b dot)))
    as (pre & rest & Hb & Hlen & Hrest); [lia|].
  assert (Hi : lastIndexOf b dot = Z.of_nat (length pre)) by lia.
  rewrite Hi.
  assert (Hsub : forall k : nat, (k <= length pre)%nat ->
            substring b (Z.of_nat k) None = drop k pre ++ dot :: rest).
  { intros k Hk. rewrite substring_from, Hb, drop_app_le by lia. reflexivity. }
  assert (Hcase : forall i, i <= Z.of_nat (length pre) ->
            Z.of_nat (length pre) - 3 <= i ->
            (exists stem, b = stem ++ substring b i None)
            /\ (substring b i None <> [] ->
                exists more rest0, substring b i None = more ++ dot :: rest0
                  /\ (dot ∉ rest0) /\ (length more <= 3)%nat)).
  { intros i Hi1 Hi2. rewrite substring_from_Z.
    rewrite <- (Nat2Z.id (Z.to_nat i)).
    rewrite Nat2Z.id. split.
    - exists (take (Z.to_nat i) b). now rewrite take_drop.
    - intros _. exists (drop (Z.to_nat i) pre), rest.
      rewrite Hb, drop_app_le by lia. split; [reflexivity|].
      split; [exact Hrest|]. rewrite length_drop. lia. }
  repeat match goal with |- context [if ?c then _ else _] => destruct c end;
    apply Hcase; lia.
Qed.

(** X9: Declaration files and source maps: when the last extension lowers to
    [.ts] and the two code units before it lower to [.d], the extension
    includes them; likewise for [.map] after [.js]. *)
Theorem getExtension_double (fileOrDirPath stem inner last : jsString) :
  basename fileOrDirPath = stem ++ inner ++ dot :: last ->
  dot ∉ last ->
  (toLowerCase (dot :: last) = lit ".ts" /\ toLowerCase inner = lit ".d"
   /\ length inner = 2%nat)
  \/ (toLowerCase (dot :: last) = lit ".map" /\ toLowerCase inner = lit ".js"
      /\ length inner = 3%nat) ->
  getExtension fileOrDirPath = inner ++ dot :: last.
Proof.
  intros Hb Hlast Hcase. unfold getExtension, getBaseName. rewrite Hb.
  assert (Hidx : lastIndexOf (stem ++ inner ++ dot :: last) dot
                 = Z.of_nat (length (stem ++ inner))).
  { rewrite app_assoc. now apply lastIndexOf_app. }
  rewrite Hidx, length_app.
  assert (Hlen : (0 < length inner)%nat) by (destruct Hcase as [H1|H1]; lia).
  destruct (Z.leb_spec (Z.of_nat (length stem + length inner)) 0); [lia|].
  assert (Hext : substring (stem ++ inner ++ dot :: last)
                   (Z.of_nat (length stem + length inner)) None = dot :: last).
  { rewrite substring_from, app_assoc, drop_app_length'; [reflexivity|].
    now rewrite length_app. }
  assert (Hin : substring (stem ++ inner ++ dot :: last)
                  (Z.of_nat (length stem + length inner) - Z.of_nat (length inner))
                  (Some (Z.of_nat (length stem + length inner))) = inner).
  { replace (Z.of_nat (length stem + length inner) - Z.of_nat (length inner))
      with (Z.of_nat (length stem)) by lia.
    rewrite substring_between by (rewrite !length_app; simpl; lia).
    rewrite drop_app_length.
    replace (length stem + length inner - length stem)%nat with (length inner) by lia.
    now rewrite take_app_length. }
  assert (Hall : substring (stem ++ inner ++ dot :: last)
                  (Z.of_nat (length stem + length inner) - Z.of_nat (length inner))
                  None = inner ++ dot :: last).
  { replace (Z.of_nat (length stem + length inner) - Z.of_nat (length inner))
      with (Z.of_nat (length stem)) by lia.
    rewrite substring_from. apply drop_app_length. }
  rewrite Hext.
  destruct Hcase as [(Ht & Hd & Hl)|(Ht & Hd & Hl)]; rewrite Hl in Hin, Hall |- *.
  - change (Z.of_nat 2) with 2 in Hin, Hall. rewrite Hin, Hall, Ht, Hd. reflexivity.
  - change (Z.of_nat 3) with 3 in Hin, Hall. rewrite Hin, Hall, Ht, Hd.
    assert (Hts : bool_decide (lit ".map" = lit ".ts") = false) by reflexivity.
    rewrite Hts. reflexivity.
Qed.
End Extension.

(** ** Standardized results *)

Section Standardized.
Context `{NodePath}.

(** X10: The paths built by [pathJoin], [getStandardizedAbsolutePath] and
    [getRelativePathTo] never contain a backslash; an absolute path is
    standardized without its base and without the current directory. *)
Theorem built_paths_have_no_backslash :
  (forall paths, backslash ∉ pathJoin paths)
  /\ (forall cwd p base, backslash ∉ getStandardizedAbsolutePath cwd p base)
  /\ (forall from to, backslash ∉ getRelativePathTo from to)
  /\ (forall cwd p base, isAbsolute p = true ->
        getStandardizedAbsolutePath cwd p base = standardizeSlashes (normalize p)).
Proof.
  split; [|split; [|split]].
  - intros paths. apply standardizeSlashes_clean.
  - intros cwd p base. apply standardizeSlashes_clean.
  - intros from to. apply standardizeSlashes_clean.
  - intros cwd p base Habs. unfold getStandardizedAbsolutePath.
    rewrite Habs. destruct base; reflexivity.
Qed.
End Standardized.

(** ** Ensuring a directory *)
Section Ensure.
Context `{NodePath}.

Section Generic.
Variable FS : Type.
Variable directoryExistsSync : jsString -> FS -> bool.
Variable mkdirSync : jsString -> FS -> option FS.

(** X11: With a [dirname] that shortens and a [mkdirSync] that creates its
    directory and removes none, [ensureDirectoryExistsSync] comes to an end
    within [length dirPath + 1] nested calls; when it returns the directory
    exists, and, returning or throwing, every directory that existed still
    does.  When the directory exists already the file system is left as it
    is. *)
Theorem ensureDirectoryExistsSync_ensures (fuel : nat) (dirPath : jsString) (fs : FS) :
  shortens ->
  (forall p s s', mkdirSync p s = Some s' ->
     directoryExistsSync p s' = true
     /\ forall q, directoryExistsSync q s = true -> directoryExistsSync q s' = true) ->
  (length dirPath < fuel)%nat ->
  match ensureDirectoryExistsSync FS directoryExistsSync mkdirSync fuel dirPath fs with
  | Returned fs' =>
      directoryExistsSync dirPath fs' = true
      /\ (forall q, directoryExistsSync q fs = true -> directoryExistsSync q fs' = true)
      /\ (directoryExistsSync dirPath fs = true -> fs' = fs)
  | Thrown fs' =>
      forall q, directoryExistsSync q fs = true -> directoryExistsSync q fs' = true
  | Unfinished => False
  end.
Proof.
  intros Hshort Hmk. revert dirPath fs.
  induction fuel as [|fuel IH]; intros dirPath fs Hfuel; [lia|].
  simpl. destruct (directoryExistsSync dirPath fs) eqn:Hex; [auto|].
  assert (Hlast : forall fs1,
            (forall q, directoryExistsSync q fs = true -> directoryExistsSync q fs1 = true) ->
            match match mkdirSync dirPath fs1 with
                  | Some fs2 => Returned fs2
                  | None => Thrown fs1
                  end with
            | Returned fs' =>
                directoryExistsSync dirPath fs' = true
                /\ (forall q, directoryExistsSync q fs = true ->
                              directoryExistsSync q fs' = true)
                /\ (false = true -> fs' = fs)
            | Thrown fs' =>
                forall q, directoryExistsSync q fs = true -> directoryExistsSync q fs' = true
            | Unfinished => False
            end).
  { intros fs1 Hkeep. destruct (mkdirSync dirPath fs1) as [fs2|] eqn:Emk; [|exact Hkeep].
    destruct (Hmk _ _ _ Emk) as [H1 H2]. split; [exact H1|].
    split; [auto | discriminate]. }
  case_bool_decide as Hp; simpl; [now apply Hlast|].
  case_bool_decide as Hpp; simpl; [now apply Hlast|].
  specialize (IH (dirname dirPath) fs).
  destruct (ensureDirectoryExistsSync _ _ _ fuel (dirname dirPath) fs) as [fs1|fs1|].
  - apply Hlast. apply IH. specialize (Hshort dirPath Hp Hpp). lia.
  - apply IH. specialize (Hshort dirPath Hp Hpp). lia.
  - apply IH. specialize (Hshort dirPath Hp Hpp). lia.
Qed.
End Generic.

Lemma recording_chain (present : jsString -> bool) :
  shortens ->
  forall fuel dirPath log0, (length dirPath < fuel)%nat ->
  exists made,
    ensureDirectoryExistsSync (list jsString) (recordingExists present) recordingMkdir
      fuel dirPath log0 = Returned (log0 ++ made)
    /\ (present dirPath = true -> made = [])
    /\ (present dirPath = false -> last made = Some dirPath)
    /\ (forall q, q ∈ made -> present q = false)
    /\ (forall i a b, made !! i = Some a -> made !! S i = Some b -> a = dirname b)
    /\ (forall h, head made = Some h ->
          present (dirname h) = true \/ dirname h = h
          \/ dirname (dirname h) = dirname h).
Proof.
  intros Hshort. induction fuel as [|fuel IH]; intros dirPath log0 Hfuel; [lia|].
  simpl. unfold recordingExists at 1. destruct (present dirPath) eqn:Hex.
  { exists []. rewrite app_nil_r. split; [reflexivity|]. split; [reflexivity|].
    split; [discriminate|]. split; [intros q Hq; inversion Hq|].
    split; [intros i a b Hi; destruct i; discriminate | discriminate]. }
  assert (Hsingle : dirname dirPath = dirPath
                    \/ dirname (dirname dirPath) = dirname dirPath
                    \/ present (dirname dirPath) = true ->
                    exists made,
                      Returned (log0 ++ [dirPath]) = Returned (log0 ++ made)
                      /\ (false = true -> made = [])
                      /\ (false = false -> last made = Some dirPath)
                      /\ (forall q, q ∈ made -> present q = false)
                      /\ (forall i a b, made !! i = Some a -> made !! S i = Some b ->
                                        a = dirname b)
                      /\ (forall h, head made = Some h ->
                            present (dirname h) = true \/ dirname h = h
                            \/ dirname (dirname h) = dirname h)).
  { intros Hwhy. exists [dirPath]. split; [reflexivity|]. split; [discriminate|].
    split; [reflexivity|]. split.
    { intros q Hq. apply list_elem_of_singleton in Hq as ->. exact Hex. }
    split; [intros i a b Hi Hb; destruct i; discriminate|].
    intros h Hh. inversion Hh; subst. tauto. }
  case_bool_decide as Hp; simpl; [apply Hsingle; auto|].
  case_bool_decide as Hpp; simpl; [apply Hsingle; auto|].
  destruct (IH (dirname dirPath) log0) as (made & -> & Hpres & Hlast & Hall & Hadj & Hhead).
  { specialize (Hshort dirPath Hp Hpp). lia. }
  unfold recordingMkdir. rewrite <- app_assoc.
  destruct (present (dirname dirPath)) eqn:Hpar.
  { rewrite (Hpres eq_refl). simpl. apply Hsingle. auto. }
  specialize (Hlast eq_refl).
  exists (made ++ [dirPath]). split; [reflexivity|]. split; [discriminate|].
  split; [intros _; apply last_snoc|]. split; [|split].
  - intros q Hq. apply elem_of_app in Hq as [Hq|Hq]; [auto|].
    apply list_elem_of_singleton in Hq as ->. exact Hex.
  - intros i a b Ha Hb.
    destruct (decide (S i < length made)%nat) as [Hi|Hi].
    + rewrite lookup_app_l in Ha, Hb by lia. eauto.
    + destruct (decide (S i = length made)) as [Hi'|Hi'].
      * rewrite lookup_app_l in Ha by lia.
        rewrite lookup_app_r in Hb by lia.
        rewrite Hi', Nat.sub_diag in Hb. inversion Hb; subst.
        rewrite last_lookup in Hlast.
        replace (pred (length made)) with i in Hlast by lia. congruence.
      * apply lookup_lt_Some in Hb. rewrite length_app in Hb. simpl in Hb. lia.
  - intros h Hh. apply Hhead. destruct made as [|m made]; [discriminate|]. exact Hh.
Qed.

(** X12: The directories created, in the order of the calls of [mkdirSync]: none
    when the directory exists; else a chain that ends with the directory,
    each one the parent of the next and none of them existing before, which
    starts below an existing directory, below a root, or at a directory that
    is its own parent. *)
Theorem ensureDirectoryExistsSync_creates_missing_chain
    (present : jsString -> bool) (fuel : nat) (dirPath : jsString) :
  shortens -> (length dirPath < fuel)%nat ->
  exists made,
    ensureDirectoryExistsSync (list jsString) (recordingExists present) recordingMkdir
      fuel dirPath [] = Returned made
    /\ (present dirPath = true -> made = [])
    /\ (present dirPath = false -> last made = Some dirPath)
    /\ (forall q, q ∈ made -> present q = false)
    /\ (forall i a b, made !! i = Some a -> made !! S i = Some b -> a = dirname b)
    /\ (forall h, head made = Some h ->
          present (dirname h) = true \/ dirname h = h
          \/ dirname (dirname h) = dirname h).
Proof.
  intros Hshort Hfuel.
  destruct (recording_chain present Hshort fuel dirPath [] Hfuel) as (made & E & Hrest).
  exists made. split; [exact E | exact Hrest].
Qed.
End Ensure.

Lemma posix_shortens : @shortens Posix.path.
Proof.
  intros p Hp Hpp. simpl in *. unfold Posix.beforeLastSlash in *.
  pose proof (lastIndexOf_range p slash) as Hr.
  destruct (Z.ltb_spec (lastIndexOf p slash) 0) as [Hneg|Hpos].
  { exfalso. apply Hpp. reflexivity. }
  destruct (Z.eqb_spec (lastIndexOf p slash) 0) as [Hz|Hnz].
  { exfalso. apply Hpp. reflexivity. }
  replace (lastIndexOf p slash) with (Z.of_nat (Z.to_nat (lastIndexOf p slash))) by lia.
  change 0 with (Z.of_nat 0).
  rewrite substring_between by lia. rewrite drop_0, length_take. lia.
Qed.
End FileUtilsFacts.



(** * More on the reconciliation walk *)

(** ** Kinds and errors *)

Lemma keepsKinds_refl f : keepsKinds f f.
Proof. intros w o E. eauto. Qed.

Lemma keepsKinds_trans f1 f2 f3 :
  keepsKinds f1 f2 -> keepsKinds f2 f3 -> keepsKinds f1 f3.
Proof.
  intros H1 H2 w o E. destruct (H1 _ _ E) as (o' & E' & Hk).
  destruct (H2 _ _ E') as (o'' & E'' & Hk'). exists o''. split; congruence.
Qed.

Lemma extends_keepsKinds f f' : extends f f' -> keepsKinds f f'.
Proof.
  intros (Hw & _) w o E. exists o. split; [|reflexivity].
  eapply lookup_weaken; eauto.
Qed.

Section Steady.
Variable allowed : error -> Prop.

Lemma steady_ret {A} (a : A) : steady allowed (ret a).
Proof.
  intros f r f' Hwf E. inversion E; subst.
  split; [exact Hwf|]. split; [apply keepsKinds_refl | discriminate].
Qed.

Lemma steady_throw {A} e : allowed e -> steady allowed (@throw A e).
Proof.
  intros He f r f' Hwf E. inversion E; subst.
  split; [exact Hwf|]. split; [apply keepsKinds_refl|].
  intros e' Ee. now inversion Ee; subst.
Qed.

Lemma steady_bind {A B} (c : M A) (k : A -> M B) :
  steady allowed c -> (forall a, steady allowed (k a)) -> steady allowed (bind c k).
Proof.
  intros Hc Hk f r f' Hwf E.
  destruct (bind_inv _ _ _ _ _ E) as [(a & f1 & E1 & E2)|(e & E1 & ->)].
  - destruct (Hc _ _ _ Hwf E1) as (Hwf1 & Hk1 & _).
    destruct (Hk a _ _ _ Hwf1 E2) as (Hwf2 & Hk2 & He2).
    split; [exact Hwf2|]. split; [eapply keepsKinds_trans; eauto | exact He2].
  - destruct (Hc _ _ _ Hwf E1) as (Hwf1 & Hk1 & He1).
    split; [exact Hwf1|]. split; [exact Hk1|].
    intros e' Ee. inversion Ee; subst. now apply He1.
Qed.

Lemma steady_getNodeFromCompilerNode n : steady allowed (getNodeFromCompilerNode n).
Proof.
  intros f r f' Hwf E.
  destruct (getNodeFromCompilerNode_spec n f Hwf) as (w & f1 & E1 & Hwf1 & Hx & _).
  rewrite E1 in E. inversion E; subst.
  split; [exact Hwf1|]. split; [now apply extends_keepsKinds | discriminate].
Qed.

Lemma steady_getNodesFromCompilerNodes ns :
  steady allowed (getNodesFromCompilerNodes ns).
Proof.
  induction ns as [|n ns IH]; simpl.
  - apply steady_ret.
  - apply steady_bind; [apply steady_getNodeFromCompilerNode|].
    intros w. apply steady_bind; [exact IH|]. intros ws. apply steady_ret.
Qed.

Hypothesis allowed_walk : forall e, walkError e -> allowed e.

Lemma steady_getCompilerNode w : steady allowed (getCompilerNode w).
Proof.
  intros f r f' Hwf E. unfold getCompilerNode in E.
  assert (Ht : allowed TypeError) by (apply allowed_walk; now left).
  destruct w as [w|]; [destruct (compilerNodeOf w f)|]; inversion E; subst;
    (split; [exact Hwf|]; split; [apply keepsKinds_refl|]);
    intros e Ee; inversion Ee; subst; exact Ht.
Qed.

Lemma steady_getChildrenIterator w : steady allowed (getChildrenIterator w).
Proof.
  apply steady_bind; [apply steady_getCompilerNode|].
  intros n. apply steady_ret.
Qed.

Lemma steady_getChildren w : steady allowed (getChildren w).
Proof.
  apply steady_bind; [apply steady_getCompilerNode|].
  intros n. apply steady_getNodesFromCompilerNodes.
Qed.

Lemma steady_next cursor : steady allowed (next cursor).
Proof.
  destruct cursor as [|c cursor]; simpl.
  - apply steady_ret.
  - apply steady_bind; [apply steady_getNodeFromCompilerNode|].
    intros w. apply steady_ret.
Qed.

Lemma steady_replaceCompilerNode w n : steady allowed (replaceCompilerNode w n).
Proof.
  intros f r f' Hwf E. unfold replaceCompilerNode in E.
  destruct (wrappers f !! w) as [o|] eqn:Eo.
  2:{ inversion E; subst. split; [exact Hwf|]. split; [apply keepsKinds_refl|].
      intros e Ee. inversion Ee; subst. apply allowed_walk. now left. }
  destruct (Z.eqb_spec (kind (node o)) (kind n)) as [Hk|Hk].
  2:{ inversion E; subst. split; [exact Hwf|]. split; [apply keepsKinds_refl|].
      intros e Ee. inversion Ee; subst. apply allowed_walk. right. eauto. }
  inversion E; subst. clear E. destruct Hwf as [Hw Hc]. split; [|split].
  - split; simpl.
    + intros w0 Hw0. destruct (decide (w0 = w)) as [->|Hne].
      * apply Hw. eauto.
      * rewrite lookup_insert_ne in Hw0 by congruence. auto.
    + intros k x Hx. apply lookup_dropKeys_Some in Hx.
      destruct (decide (k = nid n)) as [->|Hne].
      * rewrite lookup_insert_eq in Hx. inversion Hx; subst. apply Hw. eauto.
      * rewrite lookup_insert_ne in Hx by congruence. eauto.
  - intros w0 o0 Hw0. simpl. destruct (decide (w0 = w)) as [->|Hne].
    + rewrite lookup_insert_eq. eexists. split; [reflexivity|]. simpl. congruence.
    + rewrite lookup_insert_ne by congruence. eauto.
  - discriminate.
Qed.

Lemma steady_replaceCurrent cur n : steady allowed (replaceCurrent cur n).
Proof.
  destruct cur as [w|]; simpl; [apply steady_replaceCompilerNode|].
  apply steady_throw, allowed_walk. now left.
Qed.

Section Loops.
Variables (sl : nat) (slp : option nat) (ci ic : Z).
Variable hN hSL : option nat -> tsNode -> M unit.

Lemma steady_handleNodeStep new cursor c :
  (forall cur, steady allowed (hN cur c)) -> (forall cur, steady allowed (hSL cur c)) ->
  steady allowed (handleNodeStep sl slp hN hSL new cursor c).
Proof.
  intros HN HSL. unfold handleNodeStep.
  apply steady_bind; [apply steady_getNodeFromCompilerNode|].
  intros _ f r f' Hwf E.
  revert E. apply steady_bind; [apply steady_next | | exact Hwf].
  intros y. apply steady_bind; [|intros; apply steady_ret].
  destruct (isInsertTarget sl slp c new f); auto.
Qed.

Lemma steady_handleNodeLoop new cs : forall cursor,
  Forall (fun c => (forall cur, steady allowed (hN cur c))
                   /\ (forall cur, steady allowed (hSL cur c))) cs ->
  steady allowed (handleNodeLoop sl slp hN hSL new cursor cs).
Proof.
  induction cs as [|c cs IH]; intros cursor Hall; simpl.
  - apply steady_ret.
  - inversion Hall as [|? ? [HN HSL] Hrest]; subst.
    apply steady_bind; [now apply steady_handleNodeStep|].
    intros cursor'. now apply IH.
Qed.

Lemma steady_handleSyntaxListStep i cursor c :
  (forall cur, steady allowed (hN cur c)) ->
  steady allowed (handleSyntaxListStep ci ic hN i cursor c).
Proof.
  intros HN. unfold handleSyntaxListStep.
  destruct ((ci <=? i) && (i <? ci + ic)); [apply steady_ret|].
  apply steady_bind; [apply steady_next|].
  intros y. apply steady_bind; [apply HN | intros; apply steady_ret].
Qed.

Lemma steady_handleSyntaxListLoop cs : forall i cursor,
  Forall (fun c => forall cur, steady allowed (hN cur c)) cs ->
  steady allowed (handleSyntaxListLoop ci ic hN i cursor cs).
Proof.
  induction cs as [|c cs IH]; intros i cursor Hall; simpl.
  - apply steady_ret.
  - inversion Hall as [|? ? HN Hrest]; subst.
    apply steady_bind; [now apply steady_handleSyntaxListStep|].
    intros st. now apply IH.
Qed.
End Loops.

Lemma steady_walk sl slp ci ic new :
  (forall cur, steady allowed (handleNode sl slp ci ic cur new))
  /\ (forall cur, steady allowed (handleSyntaxList sl slp ci ic cur new)).
Proof.
  induction new as [new IH] using tsNode_nested_ind.
  assert (HSL : forall cur, steady allowed (handleSyntaxList sl slp ci ic cur new)).
  { intros cur. unfold handleSyntaxList.
    apply steady_bind; [apply steady_getChildrenIterator|]. intros cursor.
    apply steady_bind; [apply steady_getNodesFromCompilerNodes|]. intros _.
    apply steady_bind; [|intros; apply steady_replaceCurrent].
    apply steady_handleSyntaxListLoop.
    eapply Forall_impl; [exact IH|]. intros c [Hc _]. exact Hc. }
  split; [|exact HSL].
  intros cur. rewrite handleNode_eq.
  apply steady_bind; [apply steady_getCompilerNode|]. intros current.
  destruct (negb (kind current =? kind new)).
  { apply steady_throw, allowed_walk. right. eauto. }
  apply steady_bind; [apply steady_getChildrenIterator|]. intros cursor.
  apply steady_bind; [|intros; apply steady_replaceCurrent].
  apply steady_handleNodeLoop. exact IH.
Qed.

Lemma steady_getParent sf w : steady allowed (getParent sf w).
Proof.
  unfold getParent.
  apply steady_bind; [apply steady_getCompilerNode|]. intros root.
  apply steady_bind; [apply steady_getCompilerNode|]. intros n.
  destruct (findParent (nid n) root); [|apply steady_ret].
  apply steady_bind; [apply steady_getNodeFromCompilerNode|].
  intros; apply steady_ret.
Qed.
End Steady.

Lemma steady_insert_tail (C : Compiler) allowed sf p s sl slp ci ic :
  (forall e, walkError e -> allowed e) ->
  steady allowed
    (let* currentText := getFullText sf in
     let* tempSourceFile :=
       createTempSourceFileFromText (newFileText currentText p s) in
     handleNode sl slp ci ic (Some sf) tempSourceFile).
Proof.
  intros Hallowed. apply steady_bind.
  { unfold getFullText. apply steady_bind; [now apply steady_getCompilerNode|].
    intros; apply steady_ret. }
  intros t. apply steady_bind.
  { unfold createTempSourceFileFromText.
    apply steady_bind; [apply steady_getNodeFromCompilerNode|].
    intros; apply steady_ret. }
  intros tmp. now apply steady_walk.
Qed.

Lemma steady_insertIntoSyntaxList (C : Compiler) sf p s sl ci ic :
  steady (insertError ci) (insertIntoSyntaxList sf p s sl ci ic).
Proof.
  assert (Hallowed : forall e, walkError e -> insertError ci e) by (intros e He; now left).
  unfold insertIntoSyntaxList.
  apply steady_bind; [now apply steady_getChildren|].
  intros ws. apply steady_bind; [now apply steady_getParent|]. intros slp.
  destruct ((ci <? 0) || (Z.of_nat (length ws) <? ci)) eqn:Er.
  { apply steady_throw. right. eexists. split; [reflexivity|].
    apply orb_true_iff in Er as [Er|Er]; [left|right]; lia. }
  now apply steady_insert_tail.
Qed.

(** X13: Whatever the outcome of an edit, every wrapper stays in the factory, on a
    node of the kind it had and with the forgotten mark it had. *)
Theorem edit_keeps_kinds (C : Compiler) (sourceFile : nat) (insertPos : Z)
    (newText : text) (syntaxList : nat) (childIndex insertItemsCount : Z)
    (f f' : Factory) (r : result unit) :
  factoryWf f ->
  insertIntoSyntaxList sourceFile insertPos newText syntaxList childIndex
    insertItemsCount f = (r, f') ->
  factoryWf f'
  /\ forall w o, wrappers f !! w = Some o ->
       exists o', wrappers f' !! w = Some o'
                  /\ kind (node o') = kind (node o)
                  /\ forgotten o' = forgotten o.
Proof.
  intros Hwf E.
  destruct (steady_insertIntoSyntaxList C _ _ _ _ _ _ _ _ _ Hwf E) as (Hwf' & Hk & _).
  destruct (preserves_insertIntoSyntaxList C _ _ _ _ _ _ _ _ _ Hwf E) as (_ & Hkeep & _).
  split; [exact Hwf'|]. intros w o Ho.
  destruct (Hk _ _ Ho) as (o1 & E1 & Hkind).
  destruct (Hkeep _ _ Ho) as (o2 & E2 & Hforgot).
  exists o1. rewrite E1 in E2. inversion E2; subst. auto.
Qed.

(** X14: The errors of an edit: the range error on [childIndex], raised only for
    an index out of range, a TypeError or an InvalidOperationError; with the
    list wrapper in place and [childIndex] within the number of its children
    the range error is excluded. *)
Theorem edit_errors (C : Compiler) (sourceFile : nat) (insertPos : Z)
    (newText : text) (syntaxList : nat) (childIndex insertItemsCount : Z)
    (f f' : Factory) (e : error) :
  factoryWf f ->
  insertIntoSyntaxList sourceFile insertPos newText syntaxList childIndex
    insertItemsCount f = (Throw e, f') ->
  (e = TypeError
   \/ (exists msg, e = InvalidOperationError msg)
   \/ (exists n, e = ArgumentError "childIndex" n childIndex
                 /\ (childIndex < 0 \/ n < childIndex)))
  /\ forall lst, compilerNodeOf syntaxList f = Some lst ->
       0 <= childIndex <= Z.of_nat (length (children lst)) ->
       e = TypeError \/ exists msg, e = InvalidOperationError msg.
Proof.
  intros Hwf E.
  assert (Hwalk : forall e0, walkError e0 -> walkError e0) by auto.
  split.
  { destruct (steady_insertIntoSyntaxList C _ _ _ _ _ _ _ _ _ Hwf E) as (_ & _ & He).
    destruct (He e eq_refl) as [[Ht|Hi]|Ha]; auto. }
  intros lst Hlst Hrange. unfold insertIntoSyntaxList in E.
  destruct (getNodesFromCompilerNodes_spec (children lst) f Hwf)
    as (ws & f1 & E1 & Hwf1 & _ & Hlen).
  assert (Ech : getChildren (Some syntaxList) f = (Ok ws, f1)).
  { unfold getChildren. now rewrite (bind_ok _ _ _ _ _ (getCompilerNode_some _ _ _ Hlst)). }
  rewrite (bind_ok _ _ _ _ _ Ech) in E.
  apply bind_inv in E as [(slp & f2 & E2 & E)|(e2 & E2 & He)].
  2:{ inversion He; subst.
      exact (proj2 (proj2 (steady_getParent walkError Hwalk _ _ _ _ _ Hwf1 E2)) _ eq_refl). }
  destruct (steady_getParent walkError Hwalk _ _ _ _ _ Hwf1 E2) as (Hwf2 & _ & _).
  replace ((childIndex <? 0) || (Z.of_nat (length ws) <? childIndex)) with false in E.
  2:{ symmetry. apply orb_false_iff. split; [apply Z.ltb_ge | apply Z.ltb_ge]; lia. }
  exact (proj2 (proj2 (steady_insert_tail C walkError _ _ _ _ _ _ _ Hwalk _ _ _ Hwf2 E))
           _ eq_refl).
Qed.

(** ** What a successful walk implies *)

Lemma bind_ok_inv {A B} (c : M A) (k : A -> M B) f b f2 :
  bind c k f = (Ok b, f2) ->
  exists a f1, c f = (Ok a, f1) /\ k a f1 = (Ok b, f2).
Proof.
  intros E. destruct (bind_inv _ _ _ _ _ E) as [H|(e & _ & He)]; [exact H | discriminate].
Qed.

Lemma replaceCompilerNode_installs w n f f' :
  replaceCompilerNode w n f = (Ok tt, f') -> compilerNodeOf w f' = Some n.
Proof.
  unfold replaceCompilerNode, compilerNodeOf.
  destruct (wrappers f !! w) as [o|]; [|discriminate].
  destruct (kind (node o) =? kind n); [|discriminate].
  intros E. inversion E; subst. simpl. now rewrite lookup_insert_eq.
Qed.

Lemma replaceCurrent_installs cur n f f' :
  replaceCurrent cur n f = (Ok tt, f') ->
  exists w, cur = Some w /\ compilerNodeOf w f' = Some n.
Proof.
  destruct cur as [w|]; simpl; [|discriminate].
  intros E. exists w. split; [reflexivity|]. eapply replaceCompilerNode_installs; eauto.
Qed.

Lemma handleNode_undefined sl slp ci ic new f :
  handleNode sl slp ci ic None new f = (Throw TypeError, f).
Proof. rewrite handleNode_eq. reflexivity. Qed.

Lemma handleSyntaxList_undefined sl slp ci ic new f :
  handleSyntaxList sl slp ci ic None new f = (Throw TypeError, f).
Proof. reflexivity. Qed.

Lemma next_ok cursor y f f' :
  next cursor f = (Ok y, f') ->
  (cursor = [] /\ y = (None, []))
  \/ exists o rest w, cursor = o :: rest /\ y = (Some w, rest).
Proof.
  destruct cursor as [|o rest]; simpl; intros E.
  - left. inversion E. auto.
  - right. apply bind_ok_inv in E as (w & f1 & _ & E). inversion E; subst. eauto.
Qed.

Lemma handleNodeLoop_consumes sl slp ci ic new news : forall cursor f cursor' f',
  handleNodeLoop sl slp (handleNode sl slp ci ic) (handleSyntaxList sl slp ci ic)
    new cursor news f = (Ok cursor', f') ->
  (length news <= length cursor)%nat /\ cursor' = drop (length news) cursor.
Proof.
  induction news as [|c news IH]; intros cursor f cursor' f' E; simpl in E.
  - inversion E; subst. split; [simpl; lia | reflexivity].
  - apply bind_ok_inv in E as (cursor1 & f1 & Estep & E).
    unfold handleNodeStep in Estep.
    apply bind_ok_inv in Estep as (wc & f0 & _ & Estep).
    apply bind_ok_inv in Estep as (y & f2 & Enext & Estep).
    apply bind_ok_inv in Estep as ([] & f3 & Ecall & Eret).
    inversion Eret; subst. clear Eret.
    destruct (next_ok _ _ _ _ Enext) as [[-> ->]|(o & rest & w & -> & ->)].
    + simpl in Ecall. destruct (isInsertTarget sl slp c new f0).
      * rewrite handleSyntaxList_undefined in Ecall. discriminate.
      * rewrite handleNode_undefined in Ecall. discriminate.
    + simpl in E. destruct (IH _ _ _ _ E) as [Hlen ->]. simpl. split; [lia | reflexivity].
Qed.

(** X15: When [handleNode] succeeds on a wrapper and a candidate, the two had the
    same kind, the candidate had no more children than the wrapper's node,
    and the wrapper is now on the candidate. *)
Theorem handleNode_success (sl : nat) (slp : option nat) (ci ic : Z)
    (cur : nat) (current new : tsNode) (f f' : Factory) :
  compilerNodeOf cur f = Some current ->
  handleNode sl slp ci ic (Some cur) new f = (Ok tt, f') ->
  kind current = kind new
  /\ (length (children new) <= length (children current))%nat
  /\ compilerNodeOf cur f' = Some new.
Proof.
  intros Hcur E. rewrite handleNode_eq in E.
  rewrite (bind_ok _ _ _ _ _ (getCompilerNode_some _ _ _ Hcur)) in E.
  destruct (Z.eqb_spec (kind current) (kind new)) as [Hk|Hk]; [|discriminate].
  simpl in E.
  rewrite (bind_ok _ _ _ _ _ (getChildrenIterator_some _ _ _ Hcur)) in E.
  apply bind_ok_inv in E as (left & f1 & Eloop & E).
  destruct (handleNodeLoop_consumes _ _ _ _ _ _ _ _ _ _ Eloop) as [Hlen _].
  destruct (replaceCurrent_installs (Some cur) _ _ _ E) as (w & Hw & Hnew).
  inversion Hw; subst. auto.
Qed.

Lemma pairedCount_from ci ic (k n : nat) :
  length (filter (fun i : nat => negb ((ci <=? Z.of_nat i) && (Z.of_nat i <? ci + ic)))
            (seq k (S n)))
  = ((if ((ci <=? Z.of_nat k) && (Z.of_nat k <? ci + ic))%Z then 0 else 1)
     + length (filter (fun i : nat => negb ((ci <=? Z.of_nat i)
                                            && (Z.of_nat i <? ci + ic))%Z)
                 (seq (S k) n)))%nat.
Proof.
  simpl seq. rewrite filter_cons.
  destruct (decide _) as [Hd|Hd];
    destruct ((ci <=? Z.of_nat k) && (Z.of_nat k <? ci + ic));
    simpl in *; try reflexivity; exfalso; auto.
Qed.

Lemma handleSyntaxListLoop_consumes sl slp ci ic news : forall (k : nat) cursor f st f',
  handleSyntaxListLoop ci ic (handleNode sl slp ci ic) (Z.of_nat k) cursor news f
  = (Ok st, f') ->
  let paired := length (filter (fun i : nat => negb ((ci <=? Z.of_nat i)
                                               && (Z.of_nat i <? ci + ic)))
                          (seq k (length news))) in
  (paired <= length cursor)%nat /\ st.2 = drop paired cursor.
Proof.
  induction news as [|c news IH]; intros k cursor f st f' E; simpl in E.
  - inversion E; subst. simpl. split; [lia | reflexivity].
  - apply bind_ok_inv in E as (st1 & f1 & Estep & E).
    cbv zeta. change (length (c :: news)) with (S (length news)).
    rewrite pairedCount_from.
    unfold handleSyntaxListStep in Estep.
    destruct ((ci <=? Z.of_nat k) && (Z.of_nat k <? ci + ic)).
    + inversion Estep; subst. simpl in E.
      replace (Z.of_nat k + 1) with (Z.of_nat (S k)) in E by lia.
      exact (IH _ _ _ _ _ E).
    + apply bind_ok_inv in Estep as (y & f2 & Enext & Estep).
      apply bind_ok_inv in Estep as ([] & f3 & Ecall & Eret).
      inversion Eret; subst. clear Eret. simpl in E.
      replace (Z.of_nat k + 1) with (Z.of_nat (S k)) in E by lia.
      destruct (next_ok _ _ _ _ Enext) as [[-> ->]|(o & rest & w & -> & ->)].
      * simpl in Ecall. rewrite handleNode_undefined in Ecall. discriminate.
      * simpl in E. destruct (IH _ _ _ _ _ E) as [Hlen Hst]. simpl.
        split; [lia | exact Hst].
Qed.

(** X16: When the splice walk succeeds, the candidate children outside the
    inserted range were no more than the children of the pre-edit list, and
    the list wrapper is now on the candidate list. *)
Theorem handleSyntaxList_success (sl : nat) (slp : option nat) (ci ic : Z)
    (cur : nat) (current new : tsNode) (f f' : Factory) :
  compilerNodeOf cur f = Some current ->
  handleSyntaxList sl slp ci ic (Some cur) new f = (Ok tt, f') ->
  (pairedCount ci ic (length (children new)) <= length (children current))%nat
  /\ compilerNodeOf cur f' = Some new.
Proof.
  intros Hcur E. unfold handleSyntaxList in E.
  rewrite (bind_ok _ _ _ _ _ (getChildrenIterator_some _ _ _ Hcur)) in E.
  apply bind_ok_inv in E as (ws & f1 & _ & E).
  apply bind_ok_inv in E as (st & f2 & Eloop & E).
  destruct (handleSyntaxListLoop_consumes _ _ _ _ _ 0%nat _ _ _ _ Eloop) as [Hlen _].
  destruct (replaceCurrent_installs (Some cur) _ _ _ E) as (w & Hw & Hnew).
  inversion Hw; subst. auto.
Qed.

(** ** The text after a successful edit *)

Lemma getNodesFromCompilerNodes_extends ns f ws f1 :
  factoryWf f -> getNodesFromCompilerNodes ns f = (Ok ws, f1) ->
  factoryWf f1 /\ extends f f1.
Proof.
  intros Hwf E.
  destruct (getNodesFromCompilerNodes_spec ns f Hwf) as (ws' & f' & E' & Hwf' & Hx & _).
  rewrite E' in E. inversion E; subst. auto.
Qed.

Lemma getNodeFromCompilerNode_extends n f w f1 :
  factoryWf f -> getNodeFromCompilerNode n f = (Ok w, f1) ->
  factoryWf f1 /\ extends f f1.
Proof.
  intros Hwf E.
  destruct (getNodeFromCompilerNode_spec n f Hwf) as (w' & f' & E' & Hwf' & Hx & _).
  rewrite E' in E. inversion E; subst. auto.
Qed.

Lemma getCompilerNode_ok w n f f1 :
  getCompilerNode w f = (Ok n, f1) -> f1 = f.
Proof.
  unfold getCompilerNode. destruct w as [w|]; [|discriminate].
  destruct (compilerNodeOf w f); [|discriminate]. intros E. now inversion E.
Qed.

Lemma getChildren_extends w f ws f1 :
  factoryWf f -> getChildren w f = (Ok ws, f1) -> factoryWf f1 /\ extends f f1.
Proof.
  intros Hwf E. unfold getChildren in E.
  apply bind_ok_inv in E as (n & f0 & E0 & E).
  apply getCompilerNode_ok in E0 as ->.
  eapply getNodesFromCompilerNodes_extends; eauto.
Qed.

Lemma getParent_extends sf w f slp f1 :
  factoryWf f -> getParent sf w f = (Ok slp, f1) -> factoryWf f1 /\ extends f f1.
Proof.
  intros Hwf E. unfold getParent in E.
  apply bind_ok_inv in E as (root & f0 & E0 & E). apply getCompilerNode_ok in E0 as ->.
  apply bind_ok_inv in E as (n & f0 & E0 & E). apply getCompilerNode_ok in E0 as ->.
  destruct (findParent (nid n) root) as [p|].
  - apply bind_ok_inv in E as (pw & f0 & E0 & E). inversion E; subst.
    eapply getNodeFromCompilerNode_extends; eauto.
  - inversion E; subst. split; [exact Hwf | apply extends_refl].
Qed.

(** X17: After a successful edit the wrapper of the source file is on the parse
    of the patched text, and [getFullText] returns the text of that parse:
    the patched text itself when the parser keeps the text it was given. *)
Theorem successful_edit_installs_patched_text (C : Compiler) (sourceFile : nat)
    (insertPos : Z) (newText : text) (syntaxList : nat)
    (childIndex insertItemsCount : Z) (f f' : Factory) (root : tsNode) :
  factoryWf f ->
  compilerNodeOf sourceFile f = Some root ->
  insertIntoSyntaxList sourceFile insertPos newText syntaxList childIndex
    insertItemsCount f = (Ok tt, f') ->
  let patched := newFileText (sourceText root) insertPos newText in
  compilerNodeOf sourceFile f' = Some (createSourceFile patched)
  /\ getFullText sourceFile f' = (Ok (sourceText (createSourceFile patched)), f')
  /\ (sourceText (createSourceFile patched) = patched ->
      getFullText sourceFile f' = (Ok patched, f')).
Proof.
  intros Hwf Hroot E patched. unfold insertIntoSyntaxList in E.
  apply bind_ok_inv in E as (ws & f1 & E1 & E).
  destruct (getChildren_extends _ _ _ _ Hwf E1) as [Hwf1 Hx1].
  apply bind_ok_inv in E as (slp & f2 & E2 & E).
  destruct (getParent_extends _ _ _ _ _ Hwf1 E2) as [Hwf2 Hx2].
  destruct ((childIndex <? 0) || (Z.of_nat (length ws) <? childIndex)); [discriminate|].
  assert (Hroot2 : compilerNodeOf sourceFile f2 = Some root).
  { eapply extends_compilerNodeOf; [|exact Hroot]. eapply extends_trans; eauto. }
  rewrite (bind_ok _ _ _ _ _ (getFullText_some C _ _ _ Hroot2)) in E.
  fold patched in E.
  apply bind_ok_inv in E as (tmp & f3 & E3 & E).
  unfold createTempSourceFileFromText in E3.
  apply bind_ok_inv in E3 as (tw & f0 & _ & E3). inversion E3; subst. clear E3.
  rewrite handleNode_eq in E.
  apply bind_ok_inv in E as (current & f4 & _ & E).
  destruct (negb (kind current =? kind (createSourceFile patched))); [discriminate|].
  apply bind_ok_inv in E as (cursor & f5 & _ & E).
  apply bind_ok_inv in E as (left & f6 & _ & E).
  apply replaceCompilerNode_installs in E.
  split; [exact E|].
  pose proof (getFullText_some C _ _ _ E) as Htext.
  split; [exact Htext|]. intros Hkeep. now rewrite Htext, Hkeep.
Qed.

(** ** Nodes taken for equal *)

(** X18: [areNodesEqual] is an equivalence on optional nodes: [undefined] is
    equal to itself only, and two nodes are equal when they start at the same
    position and have the same kind, whatever their ends and children. *)
Theorem areNodesEqual_is_equivalence :
  (forall a, areNodesEqual a a = true)
  /\ (forall a b, areNodesEqual a b = areNodesEqual b a)
  /\ (forall a b c, areNodesEqual a b = true -> areNodesEqual b c = true ->
                    areNodesEqual a c = true)
  /\ (forall a i e cs,
        areNodesEqual (Some a) (Some (TsNode i (kind a) (pos a) e cs)) = true)
  /\ (forall a, areNodesEqual (Some a) None = false).
Proof.
  split; [|split; [|split; [|split; [|reflexivity]]]].
  - intros [a|]; simpl; [|reflexivity]. now rewrite !Z.eqb_refl.
  - intros [a|] [b|]; simpl; try reflexivity.
    now rewrite (Z.eqb_sym (pos a)), (Z.eqb_sym (kind a)).
  - intros [a|] [b|] [c|]; simpl; try discriminate; try reflexivity.
    intros H1 H2. apply andb_true_iff in H1 as [P1 K1], H2 as [P2 K2].
    apply Z.eqb_eq in P1, K1, P2, K2. apply andb_true_iff.
    split; apply Z.eqb_eq; congruence.
  - intros a i e cs. simpl. now rewrite !Z.eqb_refl.
Qed.

(** ** The straight handler *)

Module StraightMore.
Import StraightReplacementNodeHandler.

Lemma nextCandidate_ok cursor y f f' :
  nextCandidate cursor f = (Ok y, f') ->
  (cursor = [] /\ y = (None, []))
  \/ exists c rest, cursor = c :: rest /\ y = (Some c, rest).
Proof.
  destruct cursor as [|c rest]; simpl; intros E.
  - left. inversion E. auto.
  - right. apply bind_ok_inv in E as (w & f1 & _ & E). inversion E; subst. eauto.
Qed.

Lemma handleChildren_consumes hFV cs : forall ns f left f',
  handleChildren hFV cs ns f = (Ok left, f') -> left = drop (length cs) ns.
Proof.
  induction cs as [|c cs IH]; intros ns f left f' E; simpl in E.
  - inversion E; subst. reflexivity.
  - apply bind_ok_inv in E as (y & f1 & Enext & E).
    apply bind_ok_inv in E as ([] & f2 & _ & E).
    rewrite (IH _ _ _ _ E).
    destruct (nextCandidate_ok _ _ _ _ Enext) as [[-> ->]|(n & rest & -> & ->)];
      simpl; [now rewrite drop_nil | reflexivity].
Qed.

(** X19: When the straight handler succeeds on a wrapper and a candidate, the two
    had the same kind, the candidate had no child left over after the
    children of the wrapper's node were paired, and the wrapper is now on the
    candidate. *)
Theorem straight_handleNode_success (cur : nat) (current new : tsNode)
    (f f' : Factory) :
  compilerNodeOf cur f = Some current ->
  handleNode cur (Some new) f = (Ok tt, f') ->
  kind current = kind new
  /\ (length (children new) <= length (children current))%nat
  /\ compilerNodeOf cur f' = Some new.
Proof.
  intros Hcur E. unfold handleNode in E.
  rewrite (bind_ok _ _ _ _ _ (getCompilerNode_some _ _ _ Hcur)) in E.
  rewrite StraightLemmas.handleNodeAt_eq in E.
  destruct (Z.eqb_spec (kind current) (kind new)) as [Hk|Hk]; [|discriminate].
  simpl in E.
  apply bind_ok_inv in E as (left & f1 & Eloop & E).
  apply handleChildren_consumes in Eloop.
  apply bind_ok_inv in E as (y & f2 & Enext & E).
  destruct (nextCandidate_ok _ _ _ _ Enext) as [[Hleft ->]|(n & rest & _ & ->)];
    [|discriminate].
  simpl in E. apply replaceCompilerNode_installs in E.
  split; [exact Hk|]. split; [|exact E].
  subst left. apply (f_equal length) in Hleft. rewrite length_drop in Hleft.
  simpl in Hleft. lia.
Qed.
End StraightMore.


(** * StatementedNode *)

Lemma slice_length {A} (l : list A) (start : Z) (n : nat) :
  (length (slice l start (start + Z.of_nat n)) <= n)%nat.
Proof.
  unfold slice. rewrite length_take.
  destruct (Z.ltb_spec start 0), (Z.ltb_spec (start + Z.of_nat n) 0); lia.
Qed.

Lemma getKind_ok w k f f' :
  getKind (Some w) f = (Ok k, f') ->
  f' = f /\ exists n, compilerNodeOf w f = Some n /\ kind n = k.
Proof.
  unfold getKind, getCompilerNode, bind.
  destruct (compilerNodeOf w f) as [n|]; [|discriminate].
  intros E. inversion E; subst. eauto.
Qed.

Lemma checkKinds_ok children expected : forall f f',
  StatementedNode.checkKinds children expected f = (Ok tt, f') ->
  f' = f
  /\ Forall (fun child => exists n, compilerNodeOf child f = Some n /\ kind n = expected)
       children.
Proof.
  induction children as [|child rest IH]; intros f f' E; simpl in E.
  - inversion E; subst. auto.
  - apply bind_ok_inv in E as (k & f1 & Ek & E).
    apply getKind_ok in Ek as (-> & n & Hn & Hk).
    destruct (Z.eqb_spec k expected) as [->|Hne]; [|discriminate].
    simpl in E. destruct (IH _ _ E) as [-> Hrest]. split; [reflexivity|].
    constructor; [eauto | exact Hrest].
Qed.

Section Mixin.
Variable getRequiredChildSyntaxList : nat -> M nat.
Variable verifyAndGetIndex : Z -> Z -> M Z.
Variable insertIntoBracesOrSourceFile :
  nat -> nat -> list nat -> Z -> list text -> M unit.
Variable appendNewLineSeparatorIfNecessary : nat -> nat -> M unit.

(** X20: The children returned by [_insertMainChildren] are at most as many as
    the child codes, and the current node of each one has the expected
    syntax kind. *)
Theorem insertMainChildren_returns_expected_kind (this sourceFile : nat) (index : Z)
    (childCodes : list text) (expectedSyntaxKind : Z) (f f' : Factory)
    (inserted : list nat) :
  StatementedNode._insertMainChildren getRequiredChildSyntaxList verifyAndGetIndex
    insertIntoBracesOrSourceFile appendNewLineSeparatorIfNecessary
    this sourceFile index childCodes expectedSyntaxKind f = (Ok inserted, f') ->
  (length inserted <= length childCodes)%nat
  /\ forall child, child ∈ inserted ->
       exists n, compilerNodeOf child f' = Some n /\ kind n = expectedSyntaxKind.
Proof.
  intros E. unfold StatementedNode._insertMainChildren in E.
  apply bind_ok_inv in E as (syntaxList & f1 & _ & E).
  apply bind_ok_inv in E as (mainChildren & f2 & _ & E).
  apply bind_ok_inv in E as (index' & f3 & _ & E).
  apply bind_ok_inv in E as ([] & f4 & _ & E).
  apply bind_ok_inv in E as ([] & f5 & _ & E).
  apply bind_ok_inv in E as (newMainChildren & f6 & _ & E).
  apply bind_ok_inv in E as ([] & f7 & Echeck & E).
  inversion E; subst. clear E.
  apply checkKinds_ok in Echeck as [-> Hall].
  split; [apply slice_length|].
  intros child Hin. rewrite Forall_forall in Hall. auto.
Qed.
End Mixin.


(** ** Insert positions outside the text *)

(** X21: Whatever the insert position, the patched text is the current text with
    the new text put in at the position clamped to the text: at the start
    for a negative position, at the end for a position beyond the end.  No
    code unit of the current text is lost or repeated. *)
Theorem patched_text_clamps_position (t s : text) (p : Z) :
  newFileText t p s
  = take (Z.to_nat (clamp (Z.of_nat (length t)) p)) t ++ s
    ++ drop (Z.to_nat (clamp (Z.of_nat (length t)) p)) t
  /\ length (newFileText t p s) = (length t + length s)%nat
  /\ (p <= 0 -> newFileText t p s = s ++ t)
  /\ (Z.of_nat (length t) <= p -> newFileText t p s = t ++ s).
Proof.
  assert (Hgen : newFileText t p s
                 = take (Z.to_nat (clamp (Z.of_nat (length t)) p)) t ++ s
                   ++ drop (Z.to_nat (clamp (Z.of_nat (length t)) p)) t).
  { unfold newFileText, substring.
    set (len := Z.of_nat (length t)). set (c := clamp len p).
    assert (Hc : 0 <= c <= len) by (unfold c, clamp, len; lia).
    replace (clamp len 0) with 0 by (unfold clamp, len; lia).
    rewrite (Z.min_l 0 c), (Z.max_r 0 c) by lia.
    rewrite (Z.min_l c len), (Z.max_r c len) by lia.
    rewrite Z.sub_0_r. simpl (Z.to_nat 0). rewrite drop_0.
    f_equal. f_equal. apply take_ge. rewrite length_drop. unfold len. lia. }
  split; [exact Hgen|]. split; [|split].
  - rewrite Hgen, !length_app, length_take, length_drop.
    assert (0 <= clamp (Z.of_nat (length t)) p <= Z.of_nat (length t))
      by (unfold clamp; lia).
    lia.
  - intros Hp. rewrite Hgen.
    replace (clamp (Z.of_nat (length t)) p) with 0 by (unfold clamp; lia).
    reflexivity.
  - intros Hp. rewrite Hgen.
    replace (clamp (Z.of_nat (length t)) p) with (Z.of_nat (length t))
      by (unfold clamp; lia).
    rewrite Nat2Z.id, firstn_all, drop_all, app_nil_r. reflexivity.
Qed.

(** ** Kinds and errors of the straight handler *)

Module StraightSteady.
Import StraightReplacementNodeHandler.

Section Allowed.
Variable allowed : error -> Prop.
Hypothesis allowed_walk : forall e, walkError e -> allowed e.
Hypothesis allowed_left_over :
  allowed (PlainError "Error replacing tree: Should not have new children left over.").

Lemma steady_nextCandidate cursor : steady allowed (nextCandidate cursor).
Proof.
  destruct cursor as [|c cursor]; simpl.
  - apply steady_ret.
  - apply steady_bind; [apply steady_getNodeFromCompilerNode|].
    intros w. apply steady_ret.
Qed.

Lemma steady_handleChildren hFV cs : forall ns,
  Forall (fun c => forall n, steady allowed (hFV c n)) cs ->
  steady allowed (handleChildren hFV cs ns).
Proof.
  induction cs as [|c cs IH]; intros ns Hall; simpl.
  - apply steady_ret.
  - inversion Hall as [|? ? Hc Hrest]; subst.
    apply steady_bind; [apply steady_nextCandidate|]. intros y.
    apply steady_bind; [apply Hc|]. intros _. now apply IH.
Qed.

Lemma steady_handleNodeAt current : forall w newNode,
  steady allowed (handleNodeAt current w newNode).
Proof.
  induction current as [current IH] using tsNode_nested_ind. intros w newNode.
  rewrite StraightLemmas.handleNodeAt_eq. destruct newNode as [new|].
  2:{ apply steady_throw, allowed_walk. now left. }
  destruct (negb (kind current =? kind new)).
  { apply steady_throw, allowed_walk. right. eauto. }
  apply steady_bind.
  { apply steady_handleChildren. eapply Forall_impl; [exact IH|].
    intros c Hc n. unfold handleForValues.
    apply steady_bind; [apply steady_getNodeFromCompilerNode|]. intros cw. apply Hc. }
  intros left. apply steady_bind; [apply steady_nextCandidate|]. intros y.
  destruct y.1; [now apply steady_throw | now apply steady_replaceCompilerNode].
Qed.
End Allowed.

(** X22: Whatever the outcome of the straight handler, every wrapper stays in the
    factory on a node of the kind it had; its errors are a TypeError, an
    InvalidOperationError or the error on new children left over. *)
Theorem straight_handleNode_keeps_kinds (currentNode : nat) (newNode : option tsNode)
    (f f' : Factory) (r : result unit) :
  factoryWf f ->
  handleNode currentNode newNode f = (r, f') ->
  factoryWf f'
  /\ keepsKinds f f'
  /\ forall e, r = Throw e ->
       e = TypeError
       \/ (exists msg, e = InvalidOperationError msg)
       \/ e = PlainError "Error replacing tree: Should not have new children left over.".
Proof.
  intros Hwf E.
  set (allowed := fun e =>
         e = TypeError \/ (exists msg, e = InvalidOperationError msg)
         \/ e = PlainError "Error replacing tree: Should not have new children left over.").
  assert (Hw : forall e, walkError e -> allowed e).
  { intros e [He|He]; [left; exact He | right; left; exact He]. }
  assert (Hl : allowed (PlainError
                 "Error replacing tree: Should not have new children left over.")).
  { right. right. reflexivity. }
  revert E. unfold handleNode.
  apply (steady_bind allowed); [now apply steady_getCompilerNode | | exact Hwf].
  intros current. now apply steady_handleNodeAt.
Qed.
End StraightSteady.

(** * Worked instances *)

Module MoreWitnesses.
Import FileUtils FileUtilsFacts.

Lemma standardizeSlashes_replaces_backslashes_witness :
  standardizeSlashes (lit "dir\file.ts") !! 3%nat = Some slash.
Proof.
  apply (proj1 (proj2 (proj2 (standardizeSlashes_replaces_backslashes
                                (lit "dir\file.ts"))))).
  reflexivity.
Defined.

Lemma splitPathBySlashes_items_witness :
  (slash ∉ lit "sub") /\ (backslash ∉ lit "sub").
Proof.
  apply (proj2 (splitPathBySlashes_items (Some (lit "/dir\sub/file.ts/")))).
  refine (bool_decide_unpack _ _). vm_compute. exact I.
Defined.

Lemma splitPathBySlashes_ignores_outer_slashes_witness :
  splitPathBySlashes (Some (lit "dir/sub" ++ [slash])) = splitPathBySlashes (Some (lit "dir/sub")).
Proof.
  apply (proj1 (proj2 (splitPathBySlashes_ignores_outer_slashes (lit "dir/sub")))).
  vm_compute. discriminate.
Defined.

Lemma pathEndsWith_is_suffix_of_items_witness :
  pathEndsWith (Some (lit "/dir/sub/file.ts")) (Some (lit "sub\file.ts")) = true.
Proof.
  apply (proj2 (pathEndsWith_is_suffix_of_items (Some (lit "/dir/sub/file.ts"))
                  (Some (lit "sub\file.ts")))).
  exists [lit "dir"]. reflexivity.
Defined.

Lemma pathStartsWith_is_prefix_of_items_witness :
  pathStartsWith (Some (lit "/dir/sub/file.ts")) (Some (lit "dir/sub/")) = true.
Proof.
  apply (proj2 (pathStartsWith_is_prefix_of_items (Some (lit "/dir/sub/file.ts"))
                  (Some (lit "dir/sub/")))).
  exists [lit "file.ts"]. reflexivity.
Defined.

Lemma getExtension_empty_iff_witness :
  @getExtension Posix.path (lit "/dir/.gitignore") = [].
Proof.
  apply (proj2 (@getExtension_empty_iff Posix.path (lit "/dir/.gitignore"))).
  refine (bool_decide_unpack _ _). vm_compute. exact I.
Defined.

Lemma getExtension_is_end_of_base_name_witness :
  exists more rest,
    @getExtension Posix.path (lit "/dir/file.d.ts") = more ++ dot :: rest
    /\ (dot ∉ rest) /\ (length more <= 3)%nat.
Proof.
  apply (proj2 (@getExtension_is_end_of_base_name Posix.path (lit "/dir/file.d.ts"))).
  vm_compute. discriminate.
Defined.

Lemma getExtension_double_witness :
  @getExtension Posix.path (lit "/dir/file.D.TS") = lit ".D" ++ dot :: lit "TS".
Proof.
  apply (@getExtension_double Posix.path (lit "/dir/file.D.TS") (lit "file")
           (lit ".D") (lit "TS")).
  - reflexivity.
  - refine (bool_decide_unpack _ _). vm_compute. exact I.
  - left. repeat split; reflexivity.
Defined.

Lemma built_paths_have_no_backslash_witness :
  @getStandardizedAbsolutePath Posix.path (lit "/cwd") (lit "/dir\file.ts")
    (Some (lit "/base"))
  = standardizeSlashes (lit "/dir\file.ts").
Proof.
  apply (proj2 (proj2 (proj2 (@built_paths_have_no_backslash Posix.path)))
           (lit "/cwd") (lit "/dir\file.ts") (Some (lit "/base"))).
  reflexivity.
Defined.

Lemma listedMkdir_creates (p : jsString) (s s' : list jsString) :
  listedMkdir p s = Some s' ->
  listedExists p s' = true
  /\ forall q, listedExists q s = true -> listedExists q s' = true.
Proof.
  unfold listedMkdir, listedExists. intros E. inversion E; subst. split.
  - apply bool_decide_eq_true_2. left.
  - intros q Hq. apply bool_decide_eq_true_1 in Hq.
    apply bool_decide_eq_true_2. now right.
Qed.

Lemma ensureDirectoryExistsSync_ensures_witness :
  match @ensureDirectoryExistsSync Posix.path (list jsString) listedExists listedMkdir
          8 (lit "/a/b/c") [lit "/a"] with
  | Returned fs' =>
      listedExists (lit "/a/b/c") fs' = true
      /\ (forall q, listedExists q [lit "/a"] = true -> listedExists q fs' = true)
      /\ (listedExists (lit "/a/b/c") [lit "/a"] = true -> fs' = [lit "/a"])
  | Thrown fs' =>
      forall q, listedExists q [lit "/a"] = true -> listedExists q fs' = true
  | Unfinished => False
  end.
Proof.
  apply (@ensureDirectoryExistsSync_ensures Posix.path (list jsString)
           listedExists listedMkdir 8 (lit "/a/b/c") [lit "/a"]).
  - exact posix_shortens.
  - exact listedMkdir_creates.
  - vm_compute. lia.
Defined.

Lemma ensureDirectoryExistsSync_creates_missing_chain_witness :
  exists made,
    @ensureDirectoryExistsSync Posix.path (list jsString)
      (recordingExists (fun p => bool_decide (p = lit "/a"))) recordingMkdir
      8 (lit "/a/b/c") [] = Returned made
    /\ ((fun p => bool_decide (p = lit "/a")) (lit "/a/b/c") = true -> made = [])
    /\ ((fun p => bool_decide (p = lit "/a")) (lit "/a/b/c") = false ->
        last made = Some (lit "/a/b/c"))
    /\ (forall q, q ∈ made -> (fun p => bool_decide (p = lit "/a")) q = false)
    /\ (forall i a b, made !! i = Some a -> made !! S i = Some b ->
          a = @dirname Posix.path b)
    /\ (forall h, head made = Some h ->
          (fun p => bool_decide (p = lit "/a")) (@dirname Posix.path h) = true
          \/ @dirname Posix.path h = h
          \/ @dirname Posix.path (@dirname Posix.path h) = @dirname Posix.path h).
Proof.
  apply (@ensureDirectoryExistsSync_creates_missing_chain Posix.path
           (fun p => bool_decide (p = lit "/a")) 8 (lit "/a/b/c")).
  - exact posix_shortens.
  - vm_compute. lia.
Defined.

Lemma edit_keeps_kinds_witness :
  factoryWf (@insertIntoSyntaxList Example.parser 0 10 (list_ascii_of_string ", B")
               2 1 2 Example.factory).2
  /\ forall w o, wrappers Example.factory !! w = Some o ->
       exists o',
         wrappers (@insertIntoSyntaxList Example.parser 0 10
                     (list_ascii_of_string ", B") 2 1 2 Example.factory).2 !! w
         = Some o'
         /\ kind (node o') = kind (node o)
         /\ forgotten o' = forgotten o.
Proof.
  apply (edit_keeps_kinds Example.parser 0 10 (list_ascii_of_string ", B") 2 1 2
           Example.factory _ _ example_factory_wf (surjective_pairing _)).
Defined.

Lemma edit_errors_witness :
  (InvalidOperationError
     (InsertErrorMessageText "Error inserting into syntax list!"
        (TsNode 9 SyntaxKind.CloseBraceToken 10 12 [])
        (TsNode 29 SyntaxKind.CommaToken 13 15 [])) = TypeError
   \/ (exists msg,
         InvalidOperationError
           (InsertErrorMessageText "Error inserting into syntax list!"
              (TsNode 9 SyntaxKind.CloseBraceToken 10 12 [])
              (TsNode 29 SyntaxKind.CommaToken 13 15 []))
         = InvalidOperationError msg)
   \/ (exists n,
         InvalidOperationError
           (InsertErrorMessageText "Error inserting into syntax list!"
              (TsNode 9 SyntaxKind.CloseBraceToken 10 12 [])
              (TsNode 29 SyntaxKind.CommaToken 13 15 []))
         = ArgumentError "childIndex" n 1
         /\ (1 < 0 \/ n < 1))).
Proof.
  apply (proj1 (edit_errors Example.brokenParser 0 10 (list_ascii_of_string ", B")
                  2 1 2 Example.factory
                  (@insertIntoSyntaxList Example.brokenParser 0 10
                     (list_ascii_of_string ", B") 2 1 2 Example.factory).2
                  _ example_factory_wf ltac:(vm_compute; reflexivity))).
Defined.

Lemma handleNode_success_witness :
  kind Example.oldFile = kind Example.newFile
  /\ (length (children Example.newFile) <= length (children Example.oldFile))%nat
  /\ compilerNodeOf 0
       (handleNode 2 (Some 1%nat) 1 2 (Some 0%nat) Example.newFile Example.factory).2
     = Some Example.newFile.
Proof.
  apply (handleNode_success 2 (Some 1%nat) 1 2 0 Example.oldFile Example.newFile
           Example.factory).
  - reflexivity.
  - vm_compute. reflexivity.
Defined.

Lemma handleSyntaxList_success_witness :
  (pairedCount 1 2 (length (children Example.members'))
   <= length (children Example.members))%nat
  /\ compilerNodeOf 2
       (handleSyntaxList 2 (Some 1%nat) 1 2 (Some 2%nat) Example.members'
          Example.factory).2
     = Some Example.members'.
Proof.
  apply (handleSyntaxList_success 2 (Some 1%nat) 1 2 2 Example.members
           Example.members' Example.factory).
  - reflexivity.
  - vm_compute. reflexivity.
Defined.

Lemma successful_edit_installs_patched_text_witness :
  let f' := (@insertIntoSyntaxList Example.parser 0 10 (list_ascii_of_string ", B")
               2 1 2 Example.factory).2 in
  let patched := newFileText (@sourceText Example.parser Example.oldFile) 10
                   (list_ascii_of_string ", B") in
  compilerNodeOf 0 f' = Some (@createSourceFile Example.parser patched)
  /\ @getFullText Example.parser 0 f'
     = (Ok (@sourceText Example.parser (@createSourceFile Example.parser patched)), f')
  /\ (@sourceText Example.parser (@createSourceFile Example.parser patched) = patched ->
      @getFullText Example.parser 0 f' = (Ok patched, f')).
Proof.
  apply (successful_edit_installs_patched_text Example.parser 0 10
           (list_ascii_of_string ", B") 2 1 2 Example.factory _ Example.oldFile
           example_factory_wf).
  - reflexivity.
  - vm_compute. reflexivity.
Defined.

Lemma areNodesEqual_is_equivalence_witness :
  areNodesEqual (Some Example.members)
    (Some (TsNode 90 SyntaxKind.SyntaxList 8 20 [])) = true.
Proof.
  apply (proj1 (proj2 (proj2 areNodesEqual_is_equivalence))
           (Some Example.members) (Some Example.members')
           (Some (TsNode 90 SyntaxKind.SyntaxList 8 20 [])));
    reflexivity.
Defined.

Lemma straight_handleNode_success_witness :
  kind Small.twoChildren = kind Small.twoChildren'
  /\ (length (children Small.twoChildren') <= length (children Small.twoChildren))%nat
  /\ compilerNodeOf 0
       (StraightReplacementNodeHandler.handleNode 0 (Some Small.twoChildren')
          Small.factory).2
     = Some Small.twoChildren'.
Proof.
  apply (StraightMore.straight_handleNode_success 0 Small.twoChildren
           Small.twoChildren' Small.factory).
  - reflexivity.
  - vm_compute. reflexivity.
Defined.

Lemma insertMainChildren_returns_expected_kind_witness :
  let run :=
    StatementedNode._insertMainChildren
      (fun _ => ret 2%nat) (fun index _ => ret index)
      (fun sourceFile _ _ _ _ =>
         @insertIntoSyntaxList Example.parser sourceFile 10
           (list_ascii_of_string ", B") 2 1 2)
      (fun _ _ => ret tt)
      1%nat 0%nat 2 [list_ascii_of_string "B"] SyntaxKind.EnumMember Example.factory in
  (length (match run.1 with Ok inserted => inserted | Throw _ => [] end)
   <= length [list_ascii_of_string "B"])%nat
  /\ forall child,
       child ∈ match run.1 with Ok inserted => inserted | Throw _ => [] end ->
       exists n, compilerNodeOf child run.2 = Some n /\ kind n = SyntaxKind.EnumMember.
Proof.
  apply (insertMainChildren_returns_expected_kind
           (fun _ => ret 2%nat) (fun index _ => ret index)
           (fun sourceFile _ _ _ _ =>
              @insertIntoSyntaxList Example.parser sourceFile 10
                (list_ascii_of_string ", B") 2 1 2)
           (fun _ _ => ret tt)
           1%nat 0%nat 2 [list_ascii_of_string "B"] SyntaxKind.EnumMember
           Example.factory).
  vm_compute. reflexivity.
Defined.
Lemma patched_text_clamps_position_witness :
  newFileText (list_ascii_of_string "enum E { A }") (-3) (list_ascii_of_string "// ")
  = list_ascii_of_string "// " ++ list_ascii_of_string "enum E { A }".
Proof.
  apply (proj1 (proj2 (proj2 (patched_text_clamps_position
                                (list_ascii_of_string "enum E { A }")
                                (list_ascii_of_string "// ") (-3))))).
  lia.
Defined.

Lemma straight_handleNode_keeps_kinds_witness :
  factoryWf (StraightReplacementNodeHandler.handleNode 1 (Some Small.twoChildren')
               Small.factory).2
  /\ keepsKinds Small.factory
       (StraightReplacementNodeHandler.handleNode 1 (Some Small.twoChildren')
          Small.factory).2
  /\ forall e,
       (StraightReplacementNodeHandler.handleNode 1 (Some Small.twoChildren')
          Small.factory).1 = Throw e ->
       e = TypeError
       \/ (exists msg, e = InvalidOperationError msg)
       \/ e = PlainError "Error replacing tree: Should not have new children left over.".
Proof.
  apply (StraightSteady.straight_handleNode_keeps_kinds 1 (Some Small.twoChildren')
           Small.factory _ _ small_factory_wf (surjective_pairing _)).
Defined.
End MoreWitnesses.

(** * The walk, child by child, and the spans after an edit *)

(** ** Offsets after an insertion *)






Lemma subnodes_trans : forall a m x, m ∈ subnodes a -> x ∈ subnodes m -> x ∈ subnodes a.
Proof.
  induction a as [a IH] using tsNode_nested_ind. intros m x Hm Hx.
  rewrite subnodes_eq in Hm. apply elem_of_cons in Hm as [->|Hm]; [exact Hx|].
  rewrite subnodes_eq. right.
  unfold fsub in Hm. apply list_elem_of_In, in_flat_map in Hm as (c & Hc & Hm).
  apply list_elem_of_In in Hc, Hm.
  eapply elem_of_fsub_child; [exact Hc|].
  rewrite Forall_forall in IH. eapply IH; eauto.
Qed.


Lemma child_in_subnodes m c : c ∈ children m -> c ∈ subnodes m.
Proof.
  intros Hc. rewrite subnodes_eq. right.
  eapply elem_of_fsub_child; [exact Hc | apply subnodes_self].
Qed.



Section EditFacts.
Variable t : target.
Variable lst : tsNode.
Variables offset count : nat.
Variable len : Z.







End EditFacts.








(** ** The splice walk, child by child *)

Lemma handleSyntaxListLoop_index ci ic hN news : forall (k : nat) cursor f st f',
  handleSyntaxListLoop ci ic hN (Z.of_nat k) cursor news f = (Ok st, f') ->
  st.1 = Z.of_nat (k + length news).
Proof.
  induction news as [|c news IH]; intros k cursor f st f' E; simpl in E.
  - inversion E; subst. simpl. f_equal. lia.
  - apply bind_ok_inv in E as (st1 & f1 & Estep & E).
    assert (E1 : st1.1 = Z.of_nat (S k)).
    { unfold handleSyntaxListStep in Estep.
      destruct ((ci <=? Z.of_nat k) && (Z.of_nat k <? ci + ic)).
      - inversion Estep; subst. simpl. lia.
      - apply bind_ok_inv in Estep as (y & f2 & _ & Estep).
        apply bind_ok_inv in Estep as ([] & f3 & _ & Eret).
        inversion Eret; subst. simpl. lia. }
    rewrite E1 in E. rewrite (IH _ _ _ _ _ E). simpl. f_equal. lia.
Qed.

Lemma handleSyntaxListLoop_state sl slp ci ic news cursor f st f' :
  handleSyntaxListLoop ci ic (handleNode sl slp ci ic) 0 cursor news f = (Ok st, f') ->
  (pairedCount ci ic (length news) <= length cursor)%nat
  /\ st = (Z.of_nat (length news), drop (pairedCount ci ic (length news)) cursor).
Proof.
  intros E. change 0 with (Z.of_nat 0) in E.
  pose proof (handleSyntaxListLoop_index _ _ _ _ _ _ _ _ _ E) as Hi.
  destruct (handleSyntaxListLoop_consumes _ _ _ _ _ _ _ _ _ _ E) as [Hlen Hc].
  split; [exact Hlen|]. destruct st as [i cursor']. simpl in *. now subst.
Qed.

Lemma handleSyntaxListStep_end ci ic hN i c f :
  ~ (ci <= i < ci + ic) ->
  handleSyntaxListStep ci ic hN i [] c f = (hN None c ;; ret (i + 1, [])) f.
Proof.
  intros Hi. unfold handleSyntaxListStep.
  replace ((ci <=? i) && (i <? ci + ic)) with false; [reflexivity|].
  symmetry. apply andb_false_iff.
  destruct (Z.leb_spec ci i); [right|left; reflexivity]. apply Z.ltb_ge. lia.
Qed.

(** C3, as amended: [handleSyntaxList] wraps all the candidate's children,
    walks them from [i = 0] over a cursor on the children of the wrapper's
    node, and replaces the wrapper's node by the candidate.  The walk visits
    the candidate's children in order: when it reaches a child, after the
    children [pre] before it, [i] is the index of that child and the cursor has
    lost as many pre-edit children as there are indices below [i] outside the
    inserted range; the iteration for the child runs there and the walk goes
    on with what is left; an error in an iteration ends the walk.  In the
    inserted range an iteration only advances [i] (cursor and factory stay);
    elsewhere it takes the next pre-edit child from the cursor, wraps it, hands
    it with the candidate child to [handleNode], and advances [i]; with the
    cursor exhausted, [handleNode] is called on [undefined] and throws. *)
Theorem splice_walk (sl : nat) (slp : option nat) (ci ic : Z) :
  (forall i cursor c f, ci <= i < ci + ic ->
      handleSyntaxListStep ci ic (handleNode sl slp ci ic) i cursor c f
      = (Ok (i + 1, cursor), f))
  /\ (forall i o cursor c f, ~ (ci <= i < ci + ic) ->
      handleSyntaxListStep ci ic (handleNode sl slp ci ic) i (o :: cursor) c f
      = (let* w := getNodeFromCompilerNode o in
         handleNode sl slp ci ic (Some w) c ;; ret (i + 1, cursor)) f)
  /\ (forall i c f, ~ (ci <= i < ci + ic) ->
      handleSyntaxListStep ci ic (handleNode sl slp ci ic) i [] c f
      = (Throw TypeError, f))
  /\ (forall cur new f current, compilerNodeOf cur f = Some current ->
      handleSyntaxList sl slp ci ic (Some cur) new f
      = (getNodesFromCompilerNodes (children new) ;;
         handleSyntaxListLoop ci ic (handleNode sl slp ci ic) 0
           (children current) (children new) ;;
         replaceCompilerNode cur new) f)
  /\ (forall ns f, factoryWf f ->
      exists ws f', getNodesFromCompilerNodes ns f = (Ok ws, f')
        /\ Forall (fun n => is_Some (nodeCache f' !! nid n)) ns)
  /\ (forall i cursor f,
      handleSyntaxListLoop ci ic (handleNode sl slp ci ic) i cursor [] f
      = (Ok (i, cursor), f))
  /\ (forall cursor pre c post f st f1,
      handleSyntaxListLoop ci ic (handleNode sl slp ci ic) 0 cursor pre f = (Ok st, f1) ->
      st = (Z.of_nat (length pre), drop (pairedCount ci ic (length pre)) cursor)
      /\ (pairedCount ci ic (length pre) <= length cursor)%nat
      /\ handleSyntaxListLoop ci ic (handleNode sl slp ci ic) 0 cursor
           (pre ++ c :: post) f
         = (let* st' := handleSyntaxListStep ci ic (handleNode sl slp ci ic)
                          (Z.of_nat (length pre))
                          (drop (pairedCount ci ic (length pre)) cursor) c in
            handleSyntaxListLoop ci ic (handleNode sl slp ci ic) st'.1 st'.2 post) f1)
  /\ (forall cursor pre post f e f1,
      handleSyntaxListLoop ci ic (handleNode sl slp ci ic) 0 cursor pre f = (Throw e, f1) ->
      handleSyntaxListLoop ci ic (handleNode sl slp ci ic) 0 cursor (pre ++ post) f
      = (Throw e, f1))
  /\ (forall cursor news f st f1,
      handleSyntaxListLoop ci ic (handleNode sl slp ci ic) 0 cursor news f = (Ok st, f1) ->
      st = (Z.of_nat (length news), drop (pairedCount ci ic (length news)) cursor)).
Proof.
  split; [|split; [|split; [|split; [|split; [|split; [|split; [|split]]]]]]].
  - intros i cursor c f Hi. unfold handleSyntaxListStep.
    replace ((ci <=? i) && (i <? ci + ic)) with true; [reflexivity|].
    symmetry. apply andb_true_iff. split; [apply Z.leb_le | apply Z.ltb_lt]; lia.
  - intros i o cursor c f Hi. unfold handleSyntaxListStep.
    replace ((ci <=? i) && (i <? ci + ic)) with false.
    + unfold next, bind. destruct (getNodeFromCompilerNode o f) as [[w|e] f1]; reflexivity.
    + symmetry. apply andb_false_iff.
      destruct (Z.leb_spec ci i); [right|left; reflexivity].
      apply Z.ltb_ge. lia.
  - intros i c f Hi. rewrite handleSyntaxListStep_end by exact Hi.
    apply bind_throw, handleNode_undefined.
  - intros cur new f current Hcur. unfold handleSyntaxList.
    now rewrite (bind_ok _ _ _ _ _ (getChildrenIterator_some _ _ _ Hcur)).
  - intros ns f Hwf.
    destruct (getNodesFromCompilerNodes_registers ns f Hwf) as (ws & f' & E & _ & _ & H).
    eauto.
  - reflexivity.
  - intros cursor pre c post f st f1 E.
    destruct (handleSyntaxListLoop_state _ _ _ _ _ _ _ _ _ E) as [Hlen ->].
    split; [reflexivity|]. split; [exact Hlen|].
    rewrite handleSyntaxListLoop_app. rewrite (bind_ok _ _ _ _ _ E). reflexivity.
  - intros cursor pre post f e f1 E.
    rewrite handleSyntaxListLoop_app. now apply bind_throw.
  - intros cursor news f st f1 E.
    now destruct (handleSyntaxListLoop_state _ _ _ _ _ _ _ _ _ E) as [_ ->].
Qed.

Lemma splice_walk_witness :
  handleSyntaxListStep 1 2 (handleNode 2 (Some 1%nat) 1 2) 1 [] Example.comma'
    Example.factory = (Ok (1 + 1, []), Example.factory)
  /\ handleSyntaxListStep 1 2 (handleNode 2 (Some 1%nat) 1 2) 0 [Example.memberA]
       Example.memberA' Example.factory
     = (let* w := getNodeFromCompilerNode Example.memberA in
        handleNode 2 (Some 1%nat) 1 2 (Some w) Example.memberA' ;; ret (0 + 1, []))
         Example.factory
  /\ handleSyntaxListStep 1 2 (handleNode 2 (Some 1%nat) 1 2) 3 [] Example.memberB'
       Example.factory = (Throw TypeError, Example.factory)
  /\ handleSyntaxList 2 (Some 1%nat) 1 2 (Some 2%nat) Example.members' Example.factory
     = (getNodesFromCompilerNodes (children Example.members') ;;
        handleSyntaxListLoop 1 2 (handleNode 2 (Some 1%nat) 1 2) 0
          (children Example.members) (children Example.members') ;;
        replaceCompilerNode 2 Example.members') Example.factory
  /\ (exists ws f',
       getNodesFromCompilerNodes (children Example.members') Example.factory = (Ok ws, f')
       /\ Forall (fun n => is_Some (nodeCache f' !! nid n)) (children Example.members'))
  /\ (let f1 := (handleSyntaxListLoop 1 2 (handleNode 2 (Some 1%nat) 1 2) 0
                   [Example.memberA] [Example.memberA'] Example.factory).2 in
      (Z.of_nat 1, @nil tsNode)
      = (Z.of_nat (length [Example.memberA']),
         drop (pairedCount 1 2 (length [Example.memberA'])) [Example.memberA])
      /\ (pairedCount 1 2 (length [Example.memberA']) <= length [Example.memberA])%nat
      /\ handleSyntaxListLoop 1 2 (handleNode 2 (Some 1%nat) 1 2) 0 [Example.memberA]
           ([Example.memberA'] ++ Example.comma' :: [Example.memberB']) Example.factory
         = (let* st' := handleSyntaxListStep 1 2 (handleNode 2 (Some 1%nat) 1 2)
                          (Z.of_nat (length [Example.memberA']))
                          (drop (pairedCount 1 2 (length [Example.memberA']))
                             [Example.memberA]) Example.comma' in
            handleSyntaxListLoop 1 2 (handleNode 2 (Some 1%nat) 1 2) st'.1 st'.2
              [Example.memberB']) f1).
Proof.
  destruct (splice_walk 2 (Some 1%nat) 1 2)
    as (Hskip & Htake & Hend & Hlist & Hwrap & Hnil & Hvisit & Hthrow & Hall).
  split; [|split; [|split; [|split; [|split]]]].
  - apply Hskip. lia.
  - apply (Htake 0). lia.
  - apply Hend. lia.
  - apply Hlist. reflexivity.
  - apply Hwrap. exact example_factory_wf.
  - cbv zeta. apply Hvisit. vm_compute. reflexivity.
Defined.


(** ** The dispatch in [handleNode], child by child *)

Lemma handleNodeStep_end sl slp hN hSL new c f tmp f1 :
  getNodeFromCompilerNode c f = (Ok tmp, f1) ->
  handleNodeStep sl slp hN hSL new [] c f
  = if isInsertTarget sl slp c new f1
    then (hSL None c ;; ret []) f1
    else (hN None c ;; ret []) f1.
Proof.
  intros E1. unfold handleNodeStep. rewrite (bind_ok _ _ _ _ _ E1).
  unfold next. unfold ret at 1. unfold bind at 1. simpl.
  destruct (isInsertTarget sl slp c new f1); reflexivity.
Qed.

Lemma bind_loop_app {B} sl slp hN hSL new cursor before after (k : list tsNode -> M B) f :
  (let* cursor' := handleNodeLoop sl slp hN hSL new cursor (before ++ after) in k cursor') f
  = (let* cursor1 := handleNodeLoop sl slp hN hSL new cursor before in
     let* cursor' := handleNodeLoop sl slp hN hSL new cursor1 after in k cursor') f.
Proof.
  unfold bind at 1. rewrite handleNodeLoop_app. unfold bind.
  destruct (handleNodeLoop sl slp hN hSL new cursor before f) as [[cursor1|e] f1];
    reflexivity.
Qed.

(** C8: the list and its parent are the caller's: [insertIntoSyntaxList]
    runs [handleNode] on the source file and the reparse with the wrapper it
    was given and the parent read off the tree of the source file before the
    reparse.  [handleNode], on a wrapper and a candidate of the same kind,
    walks the candidate's children in order over a cursor on the children of
    the wrapper's node and then replaces the wrapper's node: when the walk
    reaches a candidate child, after the children [pre] before it, the cursor
    has lost one pre-edit child for each of them; the candidate child and the
    next pre-edit child are wrapped and the pair goes to [handleSyntaxList]
    exactly when the guard holds, otherwise to [handleNode]; the guard holds
    exactly when the candidate child and the candidate being iterated have
    the start position and kind of the caller's list and of its parent.  An
    error in an iteration ends the walk. *)
Theorem delegation_to_splice (sl : nat) :
  (forall slp c new f,
      isInsertTarget sl slp c new f = true <-> delegationCondition sl slp c new f)
  /\ (forall slp ci ic cur new f current,
      compilerNodeOf cur f = Some current ->
      kind current = kind new ->
      handleNode sl slp ci ic (Some cur) new f
      = (handleNodeLoop sl slp (handleNode sl slp ci ic) (handleSyntaxList sl slp ci ic)
           new (children current) (children new) ;;
         replaceCompilerNode cur new) f)
  /\ (forall slp ci ic new cursor f,
      handleNodeLoop sl slp (handleNode sl slp ci ic) (handleSyntaxList sl slp ci ic)
        new cursor [] f = (Ok cursor, f))
  /\ (forall slp ci ic new cursor pre c post f cursor1 f1,
      handleNodeLoop sl slp (handleNode sl slp ci ic) (handleSyntaxList sl slp ci ic)
        new cursor pre f = (Ok cursor1, f1) ->
      cursor1 = drop (length pre) cursor
      /\ (length pre <= length cursor)%nat
      /\ handleNodeLoop sl slp (handleNode sl slp ci ic) (handleSyntaxList sl slp ci ic)
           new cursor (pre ++ c :: post) f
         = (let* cursor' :=
              handleNodeStep sl slp (handleNode sl slp ci ic) (handleSyntaxList sl slp ci ic)
                new (drop (length pre) cursor) c in
            handleNodeLoop sl slp (handleNode sl slp ci ic) (handleSyntaxList sl slp ci ic)
              new cursor' post) f1)
  /\ (forall slp ci ic new cursor pre post f e f1,
      handleNodeLoop sl slp (handleNode sl slp ci ic) (handleSyntaxList sl slp ci ic)
        new cursor pre f = (Throw e, f1) ->
      handleNodeLoop sl slp (handleNode sl slp ci ic) (handleSyntaxList sl slp ci ic)
        new cursor (pre ++ post) f = (Throw e, f1))
  /\ (forall slp ci ic new o cursor c f tmp f1 w f2,
      getNodeFromCompilerNode c f = (Ok tmp, f1) ->
      getNodeFromCompilerNode o f1 = (Ok w, f2) ->
      handleNodeStep sl slp (handleNode sl slp ci ic) (handleSyntaxList sl slp ci ic)
        new (o :: cursor) c f
      = if isInsertTarget sl slp c new f1
        then (handleSyntaxList sl slp ci ic (Some w) c ;; ret cursor) f2
        else (handleNode sl slp ci ic (Some w) c ;; ret cursor) f2)
  /\ (forall slp ci ic new c f tmp f1,
      getNodeFromCompilerNode c f = (Ok tmp, f1) ->
      handleNodeStep sl slp (handleNode sl slp ci ic) (handleSyntaxList sl slp ci ic)
        new [] c f = (Throw TypeError, f1))
  /\ (forall slp ci ic cur new f current pre c post cursor1 f1 tmp f2 o w f3,
      compilerNodeOf cur f = Some current ->
      kind current = kind new ->
      children new = pre ++ c :: post ->
      handleNodeLoop sl slp (handleNode sl slp ci ic) (handleSyntaxList sl slp ci ic)
        new (children current) pre f = (Ok cursor1, f1) ->
      children current !! length pre = Some o ->
      getNodeFromCompilerNode c f1 = (Ok tmp, f2) ->
      getNodeFromCompilerNode o f2 = (Ok w, f3) ->
      handleNode sl slp ci ic (Some cur) new f
      = ((if isInsertTarget sl slp c new f2
          then handleSyntaxList sl slp ci ic (Some w) c
          else handleNode sl slp ci ic (Some w) c) ;;
         handleNodeLoop sl slp (handleNode sl slp ci ic) (handleSyntaxList sl slp ci ic)
           new (drop (S (length pre)) (children current)) post ;;
         replaceCompilerNode cur new) f3)
  /\ (forall (C : Compiler) sf p s ci ic f ws f1 slp f2,
      getChildren (Some sl) f = (Ok ws, f1) ->
      getParent sf sl f1 = (Ok slp, f2) ->
      (ci <? 0) || (Z.of_nat (length ws) <? ci) = false ->
      insertIntoSyntaxList sf p s sl ci ic f
      = (let* t := getFullText sf in
         let* tmp := createTempSourceFileFromText (newFileText t p s) in
         handleNode sl slp ci ic (Some sf) tmp) f2)
  /\ (forall sf f root l,
      factoryWf f ->
      compilerNodeOf sf f = Some root ->
      compilerNodeOf sl f = Some l ->
      exists slp f',
        getParent sf sl f = (Ok slp, f') /\ extends f f'
        /\ match findParent (nid l) root with
           | Some parent => exists pw, slp = Some pw /\ nodeCache f' !! nid parent = Some pw
           | None => slp = None
           end).
Proof.
  split; [|split; [|split; [|split; [|split; [|split; [|split; [|split; [|split]]]]]]]].
  - intros; apply isInsertTarget_iff.
  - intros slp ci ic cur new f current Hcur Hk. rewrite handleNode_eq.
    rewrite (bind_ok _ _ _ _ _ (getCompilerNode_some _ _ _ Hcur)).
    rewrite Hk, Z.eqb_refl. change (negb true) with false. cbv iota.
    unfold replaceCurrent.
    now rewrite (bind_ok _ _ _ _ _ (getChildrenIterator_some _ _ _ Hcur)).
  - reflexivity.
  - intros slp ci ic new cursor pre c post f cursor1 f1 E.
    destruct (handleNodeLoop_consumes _ _ _ _ _ _ _ _ _ _ E) as [Hlen ->].
    split; [reflexivity|]. split; [exact Hlen|].
    rewrite handleNodeLoop_app. rewrite (bind_ok _ _ _ _ _ E). reflexivity.
  - intros slp ci ic new cursor pre post f e f1 E.
    rewrite handleNodeLoop_app. now apply bind_throw.
  - intros slp ci ic new o cursor c f tmp f1 w f2 E1 E2.
    eapply handleNodeStep_eq; eauto.
  - intros slp ci ic new c f tmp f1 E1.
    rewrite (handleNodeStep_end _ _ _ _ _ _ _ _ _ E1).
    destruct (isInsertTarget sl slp c new f1); apply bind_throw.
    + apply handleSyntaxList_undefined.
    + apply handleNode_undefined.
  - intros slp ci ic cur new f current pre c post cursor1 f1 tmp f2 o w f3
           Hcur Hk Hnew Epre Ho E1 E2.
    rewrite handleNode_eq.
    rewrite (bind_ok _ _ _ _ _ (getCompilerNode_some _ _ _ Hcur)).
    rewrite Hk, Z.eqb_refl. change (negb true) with false. cbv iota.
    unfold replaceCurrent.
    rewrite (bind_ok _ _ _ _ _ (getChildrenIterator_some _ _ _ Hcur)).
    rewrite Hnew, bind_loop_app.
    rewrite (bind_ok _ _ _ _ _ Epre).
    destruct (handleNodeLoop_consumes _ _ _ _ _ _ _ _ _ _ Epre) as [_ ->].
    rewrite (drop_S _ _ _ Ho). simpl handleNodeLoop.
    unfold bind at 1 2.
    rewrite (handleNodeStep_eq _ _ _ _ _ _ _ _ _ _ _ _ _ E1 E2).
    unfold bind.
    destruct (isInsertTarget sl slp c new f2);
      [destruct (handleSyntaxList sl slp ci ic (Some w) c f3) as [[[]|e] f4]
      |destruct (handleNode sl slp ci ic (Some w) c f3) as [[[]|e] f4]];
      reflexivity.
  - intros C sf p s ci ic f ws f1 slp f2 E1 E2 Hrange.
    unfold insertIntoSyntaxList.
    now rewrite (bind_ok _ _ _ _ _ E1), (bind_ok _ _ _ _ _ E2), Hrange.
  - intros sf f root l Hwf Hsf Hsl. unfold getParent.
    rewrite (bind_ok _ _ _ _ _ (getCompilerNode_some _ _ _ Hsf)).
    rewrite (bind_ok _ _ _ _ _ (getCompilerNode_some _ _ _ Hsl)).
    destruct (findParent (nid l) root) as [parent|].
    + destruct (getNodeFromCompilerNode_spec parent f Hwf)
        as (pw & f' & E & _ & Hx & Hreg & _).
      exists (Some pw), f'. rewrite (bind_ok _ _ _ _ _ E). eauto.
    + exists None, f. split; [reflexivity|]. split; [apply extends_refl | reflexivity].
Qed.

Lemma delegation_to_splice_witness :
  (isInsertTarget 2 (Some 1%nat) Example.members' Example.enumE' Example.factory = true
   <-> delegationCondition 2 (Some 1%nat) Example.members' Example.enumE' Example.factory)
  /\ (let pre := [Example.token 23 SyntaxKind.EnumKeyword 0 4;
                  Example.token 24 SyntaxKind.Identifier 4 6;
                  Example.token 25 SyntaxKind.OpenBraceToken 6 8] in
      let post := [Example.token 29 SyntaxKind.CloseBraceToken 13 15] in
      let f1 := (handleNodeLoop 2 (Some 1%nat) (handleNode 2 (Some 1%nat) 1 2)
                   (handleSyntaxList 2 (Some 1%nat) 1 2) Example.enumE'
                   (children Example.enumE) pre Example.factory).2 in
      let f2 := (getNodeFromCompilerNode Example.members' f1).2 in
      let f3 := (getNodeFromCompilerNode Example.members f2).2 in
      handleNode 2 (Some 1%nat) 1 2 (Some 1%nat) Example.enumE' Example.factory
      = ((if isInsertTarget 2 (Some 1%nat) Example.members' Example.enumE' f2
          then handleSyntaxList 2 (Some 1%nat) 1 2 (Some 2%nat) Example.members'
          else handleNode 2 (Some 1%nat) 1 2 (Some 2%nat) Example.members') ;;
         handleNodeLoop 2 (Some 1%nat) (handleNode 2 (Some 1%nat) 1 2)
           (handleSyntaxList 2 (Some 1%nat) 1 2) Example.enumE'
           (drop (S (length pre)) (children Example.enumE)) post ;;
         replaceCompilerNode 1 Example.enumE') f3)
  /\ @insertIntoSyntaxList Example.parser 0 10 (list_ascii_of_string ", B") 2 1 2
       Example.factory
     = (let* t := @getFullText Example.parser 0 in
        let* tmp := @createTempSourceFileFromText Example.parser (newFileText t 10 (list_ascii_of_string ", B")) in
        handleNode 2 (Some 1%nat) 1 2 (Some 0%nat) tmp)
         (getNodesFromCompilerNodes (children Example.members) Example.factory).2
  /\ exists slp f',
       getParent 0 2 Example.factory = (Ok slp, f') /\ extends Example.factory f'
       /\ exists pw, slp = Some pw /\ nodeCache f' !! nid Example.enumE = Some pw.
Proof.
  destruct (delegation_to_splice 2)
    as (Hiff & _ & _ & _ & _ & _ & _ & Hpair & Hpipe & Hparent).
  split; [|split; [|split]].
  - apply Hiff.
  - cbv zeta.
    eapply (Hpair (Some 1%nat) 1 2 1%nat Example.enumE' Example.factory Example.enumE
              [Example.token 23 SyntaxKind.EnumKeyword 0 4;
               Example.token 24 SyntaxKind.Identifier 4 6;
               Example.token 25 SyntaxKind.OpenBraceToken 6 8]
              Example.members'
              [Example.token 29 SyntaxKind.CloseBraceToken 13 15]
              [Example.members; Example.token 9 SyntaxKind.CloseBraceToken 10 12]
              _ _ _ Example.members 2%nat);
      vm_compute; reflexivity.
  - apply (Hpipe Example.parser 0%nat 10 (list_ascii_of_string ", B") 1 2 Example.factory
             [3%nat] (getNodesFromCompilerNodes (children Example.members) Example.factory).2
             (Some 1%nat));
      vm_compute; reflexivity.
  - destruct (Hparent 0%nat Example.factory Example.oldFile Example.members
                example_factory_wf eq_refl eq_refl) as (slp & f' & E & Hx & Hm).
    exists slp, f'. split; [exact E|]. split; [exact Hx|]. exact Hm.
Defined.


(** ** Where a failed edit leaves the wrappers *)

Lemma movedOnto_refl news f : movedOnto news f f.
Proof. intros w o E. eauto. Qed.

Lemma movedOnto_trans news f1 f2 f3 :
  movedOnto news f1 f2 -> movedOnto news f2 f3 -> movedOnto news f1 f3.
Proof.
  intros H1 H2 w o E. destruct (H1 _ _ E) as (o' & E' & Hn).
  destruct (H2 _ _ E') as (o'' & E'' & Hn'). exists o''. split; [exact E''|].
  destruct Hn' as [Hn'|Hn']; [rewrite Hn'; exact Hn | now right].
Qed.

Lemma extends_movedOnto news f f' : extends f f' -> movedOnto news f f'.
Proof.
  intros (Hw & _) w o E. exists o. split; [|now left].
  eapply lookup_weaken; eauto.
Qed.

Section Onto.
Variable news : list tsNode.

Lemma onto_ret {A} (a : A) : onto news (ret a).
Proof.
  intros f r f' Hwf E. inversion E; subst. split; [exact Hwf | apply movedOnto_refl].
Qed.

Lemma onto_throw {A} e : onto news (@throw A e).
Proof.
  intros f r f' Hwf E. inversion E; subst. split; [exact Hwf | apply movedOnto_refl].
Qed.

Lemma onto_bind {A B} (c : M A) (k : A -> M B) :
  onto news c -> (forall a, onto news (k a)) -> onto news (bind c k).
Proof.
  intros Hc Hk f r f2 Hwf E.
  destruct (bind_inv _ _ _ _ _ E) as [(a & f1 & E1 & E2)|(e & E1 & _)].
  - destruct (Hc _ _ _ Hwf E1) as (Hwf1 & H1).
    destruct (Hk a _ _ _ Hwf1 E2) as (Hwf2 & H2).
    split; [exact Hwf2 | eapply movedOnto_trans; eauto].
  - exact (Hc _ _ _ Hwf E1).
Qed.

Lemma onto_getNodeFromCompilerNode n : onto news (getNodeFromCompilerNode n).
Proof.
  intros f r f' Hwf E.
  destruct (getNodeFromCompilerNode_spec n f Hwf) as (w & f1 & E1 & Hwf1 & Hx & _).
  rewrite E1 in E. inversion E; subst.
  split; [exact Hwf1 | now apply extends_movedOnto].
Qed.

Lemma onto_getNodesFromCompilerNodes ns : onto news (getNodesFromCompilerNodes ns).
Proof.
  induction ns as [|n ns IH]; simpl.
  - apply onto_ret.
  - apply onto_bind; [apply onto_getNodeFromCompilerNode|].
    intros w. apply onto_bind; [exact IH|]. intros ws. apply onto_ret.
Qed.

Lemma onto_getCompilerNode w : onto news (getCompilerNode w).
Proof.
  intros f r f' Hwf E. unfold getCompilerNode in E.
  destruct w as [w|]; [destruct (compilerNodeOf w f)|]; inversion E; subst;
    (split; [exact Hwf | apply movedOnto_refl]).
Qed.

Lemma onto_getChildrenIterator w : onto news (getChildrenIterator w).
Proof.
  apply onto_bind; [apply onto_getCompilerNode|]. intros n. apply onto_ret.
Qed.

Lemma onto_getChildren w : onto news (getChildren w).
Proof.
  apply onto_bind; [apply onto_getCompilerNode|].
  intros n. apply onto_getNodesFromCompilerNodes.
Qed.

Lemma onto_next cursor : onto news (next cursor).
Proof.
  destruct cursor as [|c cursor]; simpl.
  - apply onto_ret.
  - apply onto_bind; [apply onto_getNodeFromCompilerNode|]. intros w. apply onto_ret.
Qed.

Lemma onto_getParent sf w : onto news (getParent sf w).
Proof.
  unfold getParent.
  apply onto_bind; [apply onto_getCompilerNode|]. intros root.
  apply onto_bind; [apply onto_getCompilerNode|]. intros n.
  destruct (findParent (nid n) root); [|apply onto_ret].
  apply onto_bind; [apply onto_getNodeFromCompilerNode|].
  intros; apply onto_ret.
Qed.

Lemma onto_replaceCompilerNode w n : n ∈ news -> onto news (replaceCompilerNode w n).
Proof.
  intros Hn f r f' Hwf E.
  split; [exact (proj1 (preserves_replaceCompilerNode w n f r f' Hwf E))|].
  unfold replaceCompilerNode in E.
  destruct (wrappers f !! w) as [o|] eqn:Eo;
    [|inversion E; subst; apply movedOnto_refl].
  destruct (kind (node o) =? kind n);
    [|inversion E; subst; apply movedOnto_refl].
  inversion E; subst. clear E. intros w0 o0 Hw0. simpl.
  destruct (decide (w0 = w)) as [->|Hne].
  - rewrite lookup_insert_eq. eexists. split; [reflexivity|]. now right.
  - rewrite lookup_insert_ne by congruence. eauto.
Qed.

Lemma onto_replaceCurrent cur n : n ∈ news -> onto news (replaceCurrent cur n).
Proof.
  intros Hn. destruct cur as [w|]; simpl;
    [now apply onto_replaceCompilerNode | apply onto_throw].
Qed.

Section OntoLoops.
Variables (sl : nat) (slp : option nat) (ci ic : Z).
Variable hN hSL : option nat -> tsNode -> M unit.

Lemma onto_handleNodeStep new cursor c :
  (forall cur, onto news (hN cur c)) -> (forall cur, onto news (hSL cur c)) ->
  onto news (handleNodeStep sl slp hN hSL new cursor c).
Proof.
  intros HN HSL. unfold handleNodeStep.
  apply onto_bind; [apply onto_getNodeFromCompilerNode|].
  intros _ f r f' Hwf E.
  revert E. apply onto_bind; [apply onto_next | | exact Hwf].
  intros y. apply onto_bind; [|intros; apply onto_ret].
  destruct (isInsertTarget sl slp c new f); auto.
Qed.

Lemma onto_handleNodeLoop new cs : forall cursor,
  Forall (fun c => (forall cur, onto news (hN cur c))
                   /\ (forall cur, onto news (hSL cur c))) cs ->
  onto news (handleNodeLoop sl slp hN hSL new cursor cs).
Proof.
  induction cs as [|c cs IH]; intros cursor Hall; simpl.
  - apply onto_ret.
  - inversion Hall as [|? ? [HN HSL] Hrest]; subst.
    apply onto_bind; [now apply onto_handleNodeStep|].
    intros cursor'. now apply IH.
Qed.

Lemma onto_handleSyntaxListStep i cursor c :
  (forall cur, onto news (hN cur c)) ->
  onto news (handleSyntaxListStep ci ic hN i cursor c).
Proof.
  intros HN. unfold handleSyntaxListStep.
  destruct ((ci <=? i) && (i <? ci + ic)); [apply onto_ret|].
  apply onto_bind; [apply onto_next|].
  intros y. apply onto_bind; [apply HN | intros; apply onto_ret].
Qed.

Lemma onto_handleSyntaxListLoop cs : forall i cursor,
  Forall (fun c => forall cur, onto news (hN cur c)) cs ->
  onto news (handleSyntaxListLoop ci ic hN i cursor cs).
Proof.
  induction cs as [|c cs IH]; intros i cursor Hall; simpl.
  - apply onto_ret.
  - inversion Hall as [|? ? HN Hrest]; subst.
    apply onto_bind; [now apply onto_handleSyntaxListStep|].
    intros st. now apply IH.
Qed.
End OntoLoops.

Lemma onto_walk sl slp ci ic new :
  (forall m, m ∈ subnodes new -> m ∈ news) ->
  (forall cur, onto news (handleNode sl slp ci ic cur new))
  /\ (forall cur, onto news (handleSyntaxList sl slp ci ic cur new)).
Proof.
  induction new as [new IH] using tsNode_nested_ind. intros Hsub.
  assert (Hnew : new ∈ news) by apply Hsub, subnodes_self.
  assert (IH' : Forall (fun c => (forall cur, onto news (handleNode sl slp ci ic cur c))
                                 /\ (forall cur, onto news (handleSyntaxList sl slp ci ic cur c)))
                  (children new)).
  { rewrite Forall_forall in IH. apply Forall_forall. intros c Hc. apply IH; [exact Hc|].
    intros m Hm. apply Hsub. eapply subnodes_trans; [|exact Hm].
    now apply child_in_subnodes. }
  assert (HSL : forall cur, onto news (handleSyntaxList sl slp ci ic cur new)).
  { intros cur. unfold handleSyntaxList.
    apply onto_bind; [apply onto_getChildrenIterator|]. intros cursor.
    apply onto_bind; [apply onto_getNodesFromCompilerNodes|]. intros _.
    apply onto_bind; [|intros; now apply onto_replaceCurrent].
    apply onto_handleSyntaxListLoop.
    eapply Forall_impl; [exact IH'|]. intros c [H _]. exact H. }
  split; [|exact HSL].
  intros cur. rewrite handleNode_eq.
  apply onto_bind; [apply onto_getCompilerNode|]. intros current.
  destruct (negb (kind current =? kind new)); [apply onto_throw|].
  apply onto_bind; [apply onto_getChildrenIterator|]. intros cursor.
  apply onto_bind; [|intros; now apply onto_replaceCurrent].
  apply onto_handleNodeLoop. exact IH'.
Qed.
End Onto.

Lemma onto_insertIntoSyntaxList (C : Compiler) sf p s sl ci ic f root r f' :
  factoryWf f ->
  compilerNodeOf sf f = Some root ->
  insertIntoSyntaxList sf p s sl ci ic f = (r, f') ->
  movedOnto (subnodes (createSourceFile (newFileText (sourceText root) p s))) f f'.
Proof.
  intros Hwf Hsf E.
  set (news := subnodes (createSourceFile (newFileText (sourceText root) p s))).
  unfold insertIntoSyntaxList in E.
  destruct (bind_inv _ _ _ _ _ E) as [(ws & f1 & E1 & E2)|(e & E1 & _)];
    [|exact (proj2 (onto_getChildren news _ _ _ _ Hwf E1))].
  clear E. destruct (getChildren_extends _ _ _ _ Hwf E1) as [Hwf1 Hx1].
  apply (movedOnto_trans _ _ f1); [now apply extends_movedOnto|].
  destruct (bind_inv _ _ _ _ _ E2) as [(slp & f2 & E3 & E4)|(e & E3 & _)];
    [|exact (proj2 (onto_getParent news _ _ _ _ _ Hwf1 E3))].
  clear E2. destruct (getParent_extends _ _ _ _ _ Hwf1 E3) as [Hwf2 Hx2].
  apply (movedOnto_trans _ _ f2); [now apply extends_movedOnto|].
  destruct ((ci <? 0) || (Z.of_nat (length ws) <? ci)).
  { inversion E4; subst. apply movedOnto_refl. }
  assert (Hsf2 : compilerNodeOf sf f2 = Some root).
  { eapply extends_compilerNodeOf; [|exact Hsf]. eapply extends_trans; eauto. }
  unfold getFullText in E4.
  rewrite (bind_ok _ _ _ _ _ (bind_ok _ _ _ _ _ (getCompilerNode_some _ _ _ Hsf2))) in E4.
  unfold createTempSourceFileFromText in E4.
  destruct (bind_inv _ _ _ _ _ E4) as [(tmp & f3 & E5 & E6)|(e & E5 & _)].
  - apply bind_ok_inv in E5 as (w & f3' & E5 & Eret). inversion Eret; subst. clear Eret.
    destruct (onto_getNodeFromCompilerNode news _ _ _ _ Hwf2 E5) as [Hwf3 H3].
    apply (movedOnto_trans _ _ f3); [exact H3|].
    refine (proj2 (proj1 (onto_walk news sl slp ci ic _ _) _ _ _ _ Hwf3 E6)).
    auto.
  - destruct (bind_inv _ _ _ _ _ E5) as [(w & f3 & _ & Eret)|(e' & E5' & _)];
      [discriminate|].
    exact (proj2 (onto_getNodeFromCompilerNode news _ _ _ _ Hwf2 E5')).
Qed.

(** C4, as amended: when [insertIntoSyntaxList] fails on a source file
    wrapper, the error is a TypeError, an InvalidOperationError or the range
    error on [childIndex], raised for an index out of range; nothing is
    forgotten or removed: every wrapper is still in the factory, with the
    forgotten mark and the kind it had, on the node it had or on a node of the
    reparse of the patched text. *)
Theorem failed_edit_forgets_nothing (C : Compiler) (sourceFile : nat) (insertPos : Z)
    (newText : text) (syntaxList : nat) (childIndex insertItemsCount : Z)
    (f f' : Factory) (root : tsNode) (e : error) :
  factoryWf f ->
  compilerNodeOf sourceFile f = Some root ->
  insertIntoSyntaxList sourceFile insertPos newText syntaxList childIndex
    insertItemsCount f = (Throw e, f') ->
  (e = TypeError
   \/ (exists msg, e = InvalidOperationError msg)
   \/ (exists n, e = ArgumentError "childIndex" n childIndex
                 /\ (childIndex < 0 \/ n < childIndex)))
  /\ factoryWf f'
  /\ forall w o, wrappers f !! w = Some o ->
       exists o', wrappers f' !! w = Some o'
                  /\ forgotten o' = forgotten o
                  /\ kind (node o') = kind (node o)
                  /\ (node o' = node o
                      \/ node o' ∈ subnodes (createSourceFile
                                               (newFileText (sourceText root) insertPos
                                                  newText))).
Proof.
  intros Hwf Hsf E.
  destruct (steady_insertIntoSyntaxList C _ _ _ _ _ _ _ _ _ Hwf E) as (Hwf' & Hk & He).
  destruct (preserves_insertIntoSyntaxList C _ _ _ _ _ _ _ _ _ Hwf E) as (_ & Hkeep & _).
  pose proof (onto_insertIntoSyntaxList C _ _ _ _ _ _ _ _ _ _ Hwf Hsf E) as Hon.
  split; [|split; [exact Hwf'|]].
  - destruct (He e eq_refl) as [[->|Hmsg]|Harg]; auto.
  - intros w o Ho.
    destruct (Hk _ _ Ho) as (o1 & E1 & Hkind).
    destruct (Hkeep _ _ Ho) as (o2 & E2 & Hforgot).
    destruct (Hon _ _ Ho) as (o3 & E3 & Hnode).
    exists o1. rewrite E1 in E2, E3. inversion E2; inversion E3; subst. auto.
Qed.

(** A declared count that does not match the reparse: the edit of
    [enum E { A }] into [enum E { A, B }] declared with one inserted child
    where the reparse has two.  The walk runs out of pre-edit children and fails with a TypeError;
    by then the wrapper of member [A] is on the member of the reparse, while
    the wrappers of the list, of the declaration and of the file are on
    their pre-edit nodes; no wrapper is forgotten. *)
Lemma count_mismatch_run :
  exists f',
    @insertIntoSyntaxList Example.parser 0 10 (list_ascii_of_string ", B") 2 1 1
      Example.factory = (Throw TypeError, f')
    /\ compilerNodeOf 3 Example.factory = Some Example.memberA
    /\ compilerNodeOf 3 f' = Some Example.memberA'
    /\ compilerNodeOf 2 f' = Some Example.members
    /\ compilerNodeOf 1 f' = Some Example.enumE
    /\ compilerNodeOf 0 f' = Some Example.oldFile
    /\ map_Forall (fun _ o => forgotten o = false) (wrappers f').
Proof.
  eexists. split; [vm_compute; reflexivity|].
  repeat (split; [vm_compute; reflexivity|]).
  apply map_Forall_to_list. vm_compute. repeat constructor.
Qed.

(** C4, as stated, fails: after the failed edit of [count_mismatch_run] the
    wrapper of member [A] is neither on its pre-edit node nor forgotten. *)
Lemma failed_edit_is_partly_applied : ~ atomic_on_failure.
Proof.
  intros H.
  destruct count_mismatch_run as (f' & Erun & E3 & E3' & _ & _ & _ & Hforgot).
  unfold compilerNodeOf in E3.
  destruct (wrappers Example.factory !! 3%nat) as [o|] eqn:Eo; [|discriminate].
  simpl in E3. inversion E3 as [Hnode]. clear E3.
  destruct (H Example.parser 0%nat 10 (list_ascii_of_string ", B") 2%nat 1 1
              Example.factory TypeError f' example_factory_wf Erun 3%nat o Eo)
    as [Hold|Hf].
  - rewrite E3', Hnode in Hold. inversion Hold.
  - unfold isForgotten in Hf. unfold compilerNodeOf in E3'.
    destruct (wrappers f' !! 3%nat) as [o'|] eqn:Eo'; [|discriminate].
    rewrite (Hforgot _ _ Eo') in Hf. discriminate.
Qed.

Lemma failed_edit_forgets_nothing_witness :
  (TypeError = TypeError
   \/ (exists msg, TypeError = InvalidOperationError msg)
   \/ (exists n, TypeError = ArgumentError "childIndex" n 1 /\ (1 < 0 \/ n < 1)))
  /\ factoryWf
       (@insertIntoSyntaxList Example.parser 0 10 (list_ascii_of_string ", B") 2 1 1
          Example.factory).2
  /\ forall w o, wrappers Example.factory !! w = Some o ->
       exists o',
         wrappers (@insertIntoSyntaxList Example.parser 0 10 (list_ascii_of_string ", B")
                     2 1 1 Example.factory).2 !! w = Some o'
         /\ forgotten o' = forgotten o
         /\ kind (node o') = kind (node o)
         /\ (node o' = node o
             \/ node o' ∈ subnodes (@createSourceFile Example.parser
                                      (newFileText (@sourceText Example.parser Example.oldFile)
                                         10 (list_ascii_of_string ", B")))).
Proof.
  apply (failed_edit_forgets_nothing Example.parser 0 10 (list_ascii_of_string ", B")
           2 1 1 Example.factory _ Example.oldFile TypeError example_factory_wf eq_refl).
  vm_compute. reflexivity.
Defined.
